(** * Prowling: the results list of the Prowlarr search client

    A shallow embedding of the pure and stateful parts of the interactive
    client: the query-string serializer, the size humanizer, the sort
    comparators, the "search within results" filter, the results-list loop
    with its array aliasing, [loadConfig] and [saveConfig], the settings
    menu and the actions of the detail view.  The extended client (with
    settings, protocol and indexer-priority sorting) is embedded in full;
    of the original [index.js], whose results loop is the same text with
    eight sort keys, only [loadConfig] differs and is embedded separately.

    Conventions.
    - A JavaScript string is a Rocq [string] holding its UTF-8 bytes.
    - Numbers coming from the aggregator's JSON (sizes, seeder counts,
      priorities, timestamps) are integers, embedded as [Z]; the one
      non-integer number the comparators can produce, [NaN], is explicit.
    - Arrays live in a heap of references, so that "a copy is sorted" and
      "the original is retained" are statements about the store.
    - Library functions whose result depends on the host (Unicode case
      mapping, white space, collation, date parsing) are fields of a
      [Runtime]; the file system and [JSON.parse] answer through
      [config_read]. *)

From Stdlib Require Import ZArith Lia String Ascii List Sorted Permutation.
From stdpp Require Import base option list gmap strings pretty.

Set Warnings "-register-all".
Local Open Scope Z_scope.

(** ** Host-language primitives *)

Module JS.

(** A JavaScript number restricted to what the client computes with:
    an integer, or [NaN]. *)
Inductive number := NaN | Num (z : Z).

(** [a - b] on numbers: [NaN] is absorbing. *)
Definition sub (a b : number) : number :=
  match a, b with
  | Num x, Num y => Num (x - y)
  | _, _ => NaN
  end.

(** An object property that may be absent ([undefined]), [null], or hold
    a value. *)
Inductive field (A : Type) := undefined | null | val (a : A).
Arguments undefined {A}.
Arguments null {A}.
Arguments val {A} a.

(** [x || 0] for a numeric property: [undefined], [null] and [0] are
    falsy. *)
Definition or_zero (x : field Z) : Z :=
  match x with
  | val z => z
  | _ => 0
  end.

(** [!x] for a numeric property. *)
Definition falsy (x : field Z) : bool :=
  match x with
  | val z => z =? 0
  | _ => true
  end.

(** Truthiness of a string: only the empty string is falsy. *)
Definition truthy_string (s : string) : bool :=
  match s with
  | EmptyString => false
  | String _ _ => true
  end.

(** [s.startsWith(t)] at position 0. *)
Fixpoint starts_with (t s : string) : bool :=
  match t, s with
  | EmptyString, _ => true
  | String a t', String b s' => if Ascii.eqb a b then starts_with t' s' else false
  | String _ _, EmptyString => false
  end.

(** [s.includes(t)]: some position of [s] starts an occurrence of [t]. *)
Fixpoint includes (s t : string) : bool :=
  starts_with t s ||
  match s with
  | EmptyString => false
  | String _ s' => includes s' t
  end.

(** [parts.join(sep)]. *)
Fixpoint join (sep : string) (parts : list string) : string :=
  match parts with
  | [] => EmptyString
  | [p] => p
  | p :: rest => p +:+ sep +:+ join sep rest
  end.

(** Abrupt and normal completion of a call. *)
Inductive completion (A : Type) := Normal (a : A) | Throw (error : string).
Arguments Normal {A} a.
Arguments Throw {A} error.

(** A parsed JSON text. *)
Inductive json :=
| JNull
| JBool (b : bool)
| JNum (z : Z)
| JStr (s : string)
| JArr (l : list json)
| JObj (m : gmap string json).

(** [ToBoolean] on a JSON value. *)
Definition truthy (v : json) : bool :=
  match v with
  | JNull => false
  | JBool b => b
  | JNum z => negb (z =? 0)
  | JStr s => truthy_string s
  | JArr _ | JObj _ => true
  end.

(** [v.key] for one of the configuration's property names (never an array
    index or a built-in): [None] is [undefined]; reading a property of
    [null] throws. *)
Definition get (v : json) (key : string) : completion (option json) :=
  match v with
  | JNull => Throw "TypeError"
  | JObj m => Normal (m !! key)
  | _ => Normal None
  end.

(** The own enumerable properties copied by an object spread [...v]:
    those of an object, the indexed elements of an array, the indexed
    characters of a string (per byte here, exact on ASCII), none of a
    number, boolean or [null]. *)
Definition own_properties (v : json) : gmap string json :=
  match v with
  | JObj m => m
  | JArr l => list_to_map (imap (λ (i : nat) x, (pretty i, x)) l)
  | JStr s =>
      list_to_map
        (imap (λ (i : nat) c, (pretty i, JStr (String c EmptyString)))
           (list_ascii_of_string s))
  | _ => ∅
  end.

(** [{...a, ...v}]: later properties win. *)
Definition spread_over (a : gmap string json) (v : json) : gmap string json :=
  own_properties v ∪ a.

Section Sort.
Context {A : Type}.
Variable comparefn : A → A → number.

(** SortCompare of ECMAScript: the comparator's result as a number, with
    [NaN] read as [+0]. *)
Definition SortCompare (x y : A) : Z :=
  match comparefn x y with
  | NaN => 0
  | Num v => v
  end.

(** Stable insertion of [x], which preceded every element of [l] in the
    input: [x] moves right only past elements it is strictly greater
    than. *)
Fixpoint insert_sorted (x : A) (l : list A) : list A :=
  match l with
  | [] => [x]
  | y :: l' =>
      if 0 <? SortCompare x y then y :: insert_sorted x l' else x :: l
  end.

(** [Array.prototype.sort(comparefn)] on the array's contents.
    ECMAScript requires the sort to be stable; for a consistent comparator
    the stable sorted permutation is unique ([stable_sort_unique] below),
    and it is computed here by insertion from the right.  Where the
    comparator is not consistent (a [NaN] among numbers), ECMAScript leaves
    the order to the engine: insertion from the right is then one possible
    order and need not be the order of a given engine (a merge sort places
    some such arrays differently).  What is said below of the order the
    program displays is therefore said where the comparator is consistent,
    or of properties that no order of equal-comparing elements can
    break. *)
Definition Array_sort (l : list A) : list A :=
  foldr insert_sorted [] l.

(** [x] may stand before [y] in sorted output. *)
Definition ordered (x y : A) : Prop := SortCompare x y ≤ 0.

(** The part of comparator consistency that insertion relies on: when [x]
    sorts after [y], [y] does not sort after [x]. *)
Definition antisymmetric : Prop :=
  ∀ x y, 0 < SortCompare x y → SortCompare y x ≤ 0.

(** What ECMAScript asks of any engine's [sort]: [out] is a permutation of
    the input [l], it is in order, and the sort is stable: input elements
    none of which sorts after another keep the order they had. *)
Definition stable_sort_of (l out : list A) : Prop :=
  out ≡ₚ l ∧
  StronglySorted ordered out ∧
  ∀ P : A → bool,
    (∀ x y, x ∈ l → y ∈ l → P x = true → P y = true → SortCompare x y ≤ 0) →
    List.filter P out = List.filter P l.

End Sort.

End JS.

(** ** The host's locale- and engine-dependent library functions *)

Class Runtime := {
  (** [String.prototype.toLowerCase] *)
  toLowerCase : string → string;
  (** [String.prototype.trim] *)
  trim : string → string;
  (** [String.prototype.localeCompare]: negative, zero or positive *)
  localeCompare : string → string → Z;
  (** [Date.parse]: milliseconds since the epoch, or [NaN] *)
  Date_parse : string → JS.number;
}.

(** ECMAScript requires [localeCompare] to be a consistent comparison
    function: its sign is antisymmetric and "not after" is transitive. *)
Class RuntimeLaws (rt : Runtime) : Prop := {
  localeCompare_antisym : ∀ a b, localeCompare a b < 0 ↔ 0 < localeCompare b a;
  localeCompare_trans :
    ∀ a b c, localeCompare a b ≤ 0 → localeCompare b c ≤ 0 → localeCompare a c ≤ 0;
}.

(** ** Data model *)

Module Indexer.
Record t := { id : Z; name : string; priority : JS.field Z }.
End Indexer.

(** The properties of a search result that sorting, filtering and the size
    column read. *)
Module SearchResult.
Record t := {
  title : string;
  indexer : string;
  size : JS.field Z;
  seeders : JS.field Z;
  protocol : string;
  publishDate : JS.field string;
}.
End SearchResult.

(** The values of the "Sort results by:" prompt. *)
Module SortBy.
Inductive t :=
| title_asc | title_desc
| seeders_desc | seeders_asc
| size_desc | size_asc
| date_desc | date_asc
| protocol
| indexer_priority_desc | indexer_priority_asc.
End SortBy.

(** ** The client *)

Module Prowling.
Import JS.

(** [this]: the fields of [ProwlingClient] that the embedded methods use. *)
Record client := {
  baseUrl : string;
  indexers : list Indexer.t;
  currentMenuLevel : string;
  qbittorrentUrl : string;
  theme : gmap string json;
  settings : gmap string json;
}.

(** [this.protocols.usenet] *)
Definition protocols_usenet : string := "usenet".

(** The constructor's theme. *)
Definition default_theme : gmap string json :=
  list_to_map [
    ("primary", JStr "cyan"); ("secondary", JStr "yellow");
    ("success", JStr "green"); ("error", JStr "red");
    ("warning", JStr "yellow"); ("info", JStr "blue");
    ("highlight", JStr "magenta") ].

(** The constructor's UI settings. *)
Definition default_settings : gmap string json :=
  list_to_map [
    ("pageSize", JNum 15); ("defaultSortOrder", JStr "seeders_desc");
    ("defaultDownloadDir", JStr ""); ("showAdultContent", JBool true);
    ("showExtendedInfo", JBool false); ("confirmDownloads", JBool true);
    ("autoRefreshResults", JBool false); ("resultsPerPage", JNum 30);
    ("displayDensity", JStr "normal"); ("enableNotifications", JBool true);
    ("notificationSound", JBool true); ("enableKeyboardShortcuts", JBool true);
    ("autoSaveSearchHistory", JBool true); ("maxSearchHistory", JNum 20);
    ("enableAnimations", JBool true); ("displayMode", JStr "auto");
    ("cacheResults", JBool true); ("cacheDuration", JNum 30) ].

(** [new ProwlingClient()] *)
Definition constructor : client :=
  {| baseUrl := ""; indexers := []; currentMenuLevel := "main";
     qbittorrentUrl := ""; theme := default_theme;
     settings := default_settings |}.

(** *** Query string *)

(** A primitive parameter value and its [ToString]. *)
Inductive prim := PStr (s : string) | PNum (z : Z).

(** Integers print in decimal (below 10^21 in magnitude, where JavaScript
    does too). *)
Definition ToString (v : prim) : string :=
  match v with
  | PStr s => s
  | PNum z => pretty z
  end.

Inductive param := scalar (v : prim) | array (vs : list prim).

(** The characters [encodeURIComponent] leaves alone:
    letters, digits and [- _ . ! ~ * ' ( )]. *)
Definition unreserved (c : ascii) : bool :=
  let n := Z.of_nat (nat_of_ascii c) in
  ((65 <=? n) && (n <=? 90)) || ((97 <=? n) && (n <=? 122)) ||
  ((48 <=? n) && (n <=? 57)) ||
  bool_decide (n ∈ [45; 95; 46; 33; 126; 42; 39; 40; 41]).

Definition hex_digit (n : Z) : ascii :=
  ascii_of_nat (Z.to_nat (if n <? 10 then 48 + n else 55 + n)).

(** [%XX] for one byte of the UTF-8 encoding. *)
Definition percent_encode (c : ascii) : string :=
  let n := Z.of_nat (nat_of_ascii c) in
  String "%" (String (hex_digit (n / 16)) (String (hex_digit (n mod 16)) EmptyString)).

Fixpoint encodeURIComponent (s : string) : string :=
  match s with
  | EmptyString => EmptyString
  | String c s' =>
      (if unreserved c then String c EmptyString else percent_encode c)
      +:+ encodeURIComponent s'
  end.

(** [paramsSerializer]: [params] lists the object's own keys in
    [Object.keys] order; [parts.push] appends. *)
Definition paramsSerializer (params : list (string * param)) : string :=
  let parts :=
    fold_left
      (λ (parts : list string) '(key, value),
         match value with
         | array vs =>
             fold_left (λ parts v, parts ++ [key +:+ "=" +:+ ToString v]) vs parts
         | scalar v =>
             parts ++ [key +:+ "=" +:+ encodeURIComponent (ToString v)]
         end)
      params [] in
  join "&" parts.

(** The answer of the category prompt once "back" is excluded. *)
Inductive category := one_category (c : Z) | categories (cs : list Z) | all.

(** [searchParams] as built before the request. *)
Definition searchParams (this : client) (query : string) (cat : category)
  : list (string * param) :=
  [("query", scalar (PStr query)); ("type", scalar (PStr "search"))]
  ++ match cat with
     | all => []
     | one_category c => [("categories", array [PNum c])]
     | categories cs => [("categories", array (PNum <$> cs))]
     end
  ++ match Indexer.id <$> indexers this with
     | [] => []
     | indexerIds => [("indexerIds", array (PNum <$> indexerIds))]
     end.

(** *** Size column *)

Definition sizes : list string := ["B"; "KB"; "MB"; "GB"; "TB"].

(** [x.toFixed(2)] for the non-negative quotient [x = num / den]: the
    nearest multiple of 1/100, the larger one on a tie. *)
Definition toFixed2 (num den : Z) : string :=
  let n := (200 * num + den) / (2 * den) in
  let cents := n mod 100 in
  pretty (n / 100) +:+ "." +:+ pretty (cents / 10) +:+ pretty (cents mod 10).

(** [formatSize], for sizes below 2^53.
    [Math.floor(Math.log(bytes) / Math.log(1024))] is taken exactly, as
    [log2 bytes / 10]; the rounding of the two logarithms is not modelled.
    In double precision the quotient of the logarithms already reaches 5
    for the last three byte counts below 1024^5, so there the program
    prints [1.00 undefined] and this definition does not; everywhere else
    below 2^53 the two agree.  The properties below are stated for sizes
    under 1023 * 1024^4 and for sizes from 1024^5 on.
    The division by [1024^i] is exact in binary floating point, so
    [toFixed] rounds the true quotient.  A negative size has logarithm
    [NaN]. *)
Definition formatSize (bytes : field Z) : string :=
  if falsy bytes then "Unknown"
  else
    let b := or_zero bytes in
    if b <? 0 then "NaN undefined"
    else
      let i := Z.log2 b / 10 in
      toFixed2 b (1024 ^ i) +:+ " " +:+ default "undefined" (sizes !! Z.to_nat i).

(** *** Sorting *)

Section WithRuntime.
Context {rt : Runtime}.

(** [this.indexers.find(i => i.name === name)?.priority || 0] *)
Definition priority_of (this : client) (name : string) : Z :=
  match List.find (λ i, String.eqb (Indexer.name i) name) (indexers this) with
  | Some i => or_zero (Indexer.priority i)
  | None => 0
  end.

(** The time value of [new Date(publishDate || 0)]. *)
Definition Date_of (publishDate : field string) : number :=
  match publishDate with
  | val s => if truthy_string s then Date_parse s else Num 0
  | _ => Num 0
  end.

Definition is_usenet (r : SearchResult.t) : bool :=
  String.eqb (SearchResult.protocol r) protocols_usenet.

(** The comparator passed to [sort]. *)
Definition compareBy (this : client) (sortBy : SortBy.t) (a b : SearchResult.t)
  : number :=
  match sortBy with
  | SortBy.title_asc =>
      Num (localeCompare (SearchResult.title a) (SearchResult.title b))
  | SortBy.title_desc =>
      Num (localeCompare (SearchResult.title b) (SearchResult.title a))
  | SortBy.seeders_desc =>
      Num (or_zero (SearchResult.seeders b) - or_zero (SearchResult.seeders a))
  | SortBy.seeders_asc =>
      Num (or_zero (SearchResult.seeders a) - or_zero (SearchResult.seeders b))
  | SortBy.size_desc =>
      Num (or_zero (SearchResult.size b) - or_zero (SearchResult.size a))
  | SortBy.size_asc =>
      Num (or_zero (SearchResult.size a) - or_zero (SearchResult.size b))
  | SortBy.date_desc =>
      sub (Date_of (SearchResult.publishDate b)) (Date_of (SearchResult.publishDate a))
  | SortBy.date_asc =>
      sub (Date_of (SearchResult.publishDate a)) (Date_of (SearchResult.publishDate b))
  | SortBy.protocol =>
      if is_usenet a && negb (is_usenet b) then Num (-1)
      else if negb (is_usenet a) && is_usenet b then Num 1
      else Num 0
  | SortBy.indexer_priority_desc =>
      Num (priority_of this (SearchResult.indexer b)
           - priority_of this (SearchResult.indexer a))
  | SortBy.indexer_priority_asc =>
      Num (priority_of this (SearchResult.indexer a)
           - priority_of this (SearchResult.indexer b))
  end.

(** The predicate of "search within results". *)
Definition title_matches (searchTerm : string) (result : SearchResult.t) : bool :=
  includes (toLowerCase (SearchResult.title result)) searchTerm.

End WithRuntime.

(** *** Arrays in the store *)

Definition loc := nat.
Abbreviation heap_t := (gmap loc (list SearchResult.t)).

(** The elements of the array at [l]. *)
Definition contents (h : heap_t) (l : loc) : list SearchResult.t :=
  default [] (h !! l).

(** A new array object. *)
Definition alloc (h : heap_t) (a : list SearchResult.t) : loc * heap_t :=
  let l := fresh (dom h) in (l, <[l := a]> h).

(** [[...arr]]: a new array with the same elements. *)
Definition spread (h : heap_t) (arr : loc) : loc * heap_t :=
  alloc h (contents h arr).

(** [arr.sort(comparefn)]: sorts the array at [arr] in place (and returns
    [arr]). *)
Definition sort_in_place (comparefn : SearchResult.t → SearchResult.t → number)
    (h : heap_t) (arr : loc) : heap_t :=
  <[arr := Array_sort comparefn (contents h arr)]> h.

(** [arr.filter(p)]: a new array with the elements satisfying [p], in
    order. *)
Definition Array_filter (p : SearchResult.t → bool) (h : heap_t) (arr : loc)
  : loc * heap_t :=
  alloc h (List.filter p (contents h arr)).

(** *** The results loop of [startSearchLoop] *)

(** An entry of [navigationStack]. *)
Record nav_entry := { type : string; data : loc }.

(** The block-scoped variables of one search. *)
Record locals := {
  results : loc;
  currentResults : loc;
  filteredResults : option loc;
  isFiltered : bool;
}.

(** The prompt the loop is waiting at. *)
Inductive prompt :=
| results_prompt
| no_matches_prompt
| detail_prompt (selected : SearchResult.t).

(** [frame] is [None] once the loop is left and control is back at the
    main menu, where the variables of the search are out of scope. *)
Record state := {
  this : client;
  heap : heap_t;
  navigationStack : list nav_entry;
  console : list string;
  frame : option (locals * prompt);
}.

Inductive detail_action :=
| download_client | download_url | magnet_url | open_qbittorrent
| more_info | back | main_menu.

(** One answer of the user.  Choosing "Sort results" or "Search within
    results" is taken together with the answer to the prompt that follows
    it. *)
Inductive input :=
| select_sort (sortBy : SortBy.t)
| select_search (searchQuery : string)
| select_show_all
| select_back
| select_item (selected : SearchResult.t)
| press_enter
| action (a : detail_action).

Definition set_frame (f : option (locals * prompt)) (st : state) : state :=
  {| this := this st; heap := heap st; navigationStack := navigationStack st;
     console := console st; frame := f |}.

Definition set_heap (h : heap_t) (st : state) : state :=
  {| this := this st; heap := h; navigationStack := navigationStack st;
     console := console st; frame := frame st |}.

Definition set_navigationStack (s : list nav_entry) (st : state) : state :=
  {| this := this st; heap := heap st; navigationStack := s;
     console := console st; frame := frame st |}.

Definition set_this (c : client) (st : state) : state :=
  {| this := c; heap := heap st; navigationStack := navigationStack st;
     console := console st; frame := frame st |}.

Definition set_currentMenuLevel (level : string) (st : state) : state :=
  set_this
    {| baseUrl := baseUrl (this st); indexers := indexers (this st);
       currentMenuLevel := level; qbittorrentUrl := qbittorrentUrl (this st);
       theme := theme (this st); settings := settings (this st) |} st.

(** [console.log(msg)]; the colouring of the text is not recorded. *)
Definition console_log (msg : string) (st : state) : state :=
  {| this := this st; heap := heap st; navigationStack := navigationStack st;
     console := console st ++ [msg]; frame := frame st |}.

Definition nl : string := String (ascii_of_nat 10) EmptyString.

Definition no_matches_message : string :=
  nl +:+ "No matches found in current results 😕" +:+ nl.

Definition found_message (n : nat) : string :=
  nl +:+ "Found " +:+ pretty n +:+ " matching results" +:+ nl.

Definition no_results_message : string :=
  nl +:+ "No results found 😕" +:+ nl.

(** The search has returned the array [found].  An empty one is reported
    and the main menu comes back; otherwise the loop is entered with
    [currentResults] aliasing [results]. *)
Definition enter_results (found : list SearchResult.t) (st : state) : state :=
  let '(r, h) := alloc (heap st) found in
  if (length found =? 0)%nat then
    console_log no_results_message (set_frame None (set_heap h st))
  else
    set_frame
      (Some ({| results := r; currentResults := r; filteredResults := None;
                isFiltered := false |}, results_prompt))
      (set_heap h st).

Section Loop.
Context {rt : Runtime}.

(** The "sort_results" branch. *)
Definition sort_results (sortBy : SortBy.t) (vars : locals) (st : state) : state :=
  let '(copy, h) := spread (heap st) (currentResults vars) in
  let h := sort_in_place (compareBy (this st) sortBy) h copy in
  set_frame
    (Some ({| results := results vars; currentResults := copy;
              filteredResults := filteredResults vars;
              isFiltered := isFiltered vars |}, results_prompt))
    (set_heap h st).

(** The "search_results" branch. *)
Definition search_results (searchQuery : string) (vars : locals) (st : state)
  : state :=
  if truthy_string (trim searchQuery) then
    let searchTerm := toLowerCase searchQuery in
    let '(filtered, h) :=
      Array_filter (title_matches searchTerm) (heap st) (results vars) in
    let st := set_heap h st in
    if (length (contents h filtered) =? 0)%nat then
      set_frame
        (Some ({| results := results vars; currentResults := currentResults vars;
                  filteredResults := Some filtered;
                  isFiltered := isFiltered vars |}, no_matches_prompt))
        (console_log no_matches_message st)
    else
      console_log (found_message (length (contents h filtered)))
        (set_frame
           (Some ({| results := results vars; currentResults := filtered;
                     filteredResults := Some filtered;
                     isFiltered := true |}, results_prompt))
           st)
  else st.

(** The "show_all" branch. *)
Definition show_all (vars : locals) (st : state) : state :=
  set_frame
    (Some ({| results := results vars; currentResults := results vars;
              filteredResults := None; isFiltered := false |}, results_prompt))
    st.

(** "Back to search": the loop is left, one entry of the navigation stack
    is dropped if there is one, and the outer loop starts over at the main
    menu.  (The variables assigned from the popped entry go out of scope
    with the [continue].) *)
Definition back_to_search (st : state) : state :=
  set_currentMenuLevel "main"
    (set_frame None (set_navigationStack (removelast (navigationStack st)) st)).

(** An item is chosen: the full result array is pushed and the detail view
    opens. *)
Definition open_item (selected : SearchResult.t) (vars : locals) (st : state)
  : state :=
  set_currentMenuLevel "details"
    (set_frame (Some (vars, detail_prompt selected))
       (set_navigationStack
          (navigationStack st ++ [{| type := "results"; data := results vars |}])
          st)).

(** One answer in the detail view.  The copy, open and more-info actions
    print or send and come back to the same view; "back" and "main menu"
    both end the inner loop only, so the results prompt is shown again. *)
Definition detail (a : detail_action) (selected : SearchResult.t)
    (vars : locals) (st : state) : state :=
  match a with
  | back => set_frame (Some (vars, results_prompt)) st
  | main_menu =>
      set_frame (Some (vars, results_prompt)) (set_navigationStack [] st)
  | _ => set_currentMenuLevel "details" st
  end.

(** One iteration: the answer [i] at the current prompt.  An answer the
    prompt does not offer leaves the state as it is. *)
Definition step (st : state) (i : input) : state :=
  match frame st with
  | None => st
  | Some (vars, results_prompt) =>
      match i with
      | select_sort sortBy => sort_results sortBy vars st
      | select_search searchQuery => search_results searchQuery vars st
      | select_show_all => show_all vars st
      | select_back => back_to_search st
      | select_item selected => open_item selected vars st
      | _ => st
      end
  | Some (vars, no_matches_prompt) =>
      match i with
      | press_enter => set_frame (Some (vars, results_prompt)) st
      | _ => st
      end
  | Some (vars, detail_prompt selected) =>
      match i with
      | action a => detail a selected vars st
      | _ => st
      end
  end.

Definition run (st : state) (inputs : list input) : state :=
  fold_left step inputs st.

(** What the results prompt lists. *)
Definition displayed (st : state) : list SearchResult.t :=
  match frame st with
  | Some (vars, _) => contents (heap st) (currentResults vars)
  | None => []
  end.

End Loop.

(** *** Configuration file *)

(** Calls that may throw, over the client's state. *)
Definition M (A : Type) : Type := state → completion A * state.

#[export] Instance M_ret : MRet M := λ A a st, (Normal a, st).

#[export] Instance M_bind : MBind M := λ A B f m st,
  match m st with
  | (Normal a, st') => f a st'
  | (Throw error, st') => (Throw error, st')
  end.

Definition lift {A : Type} (c : completion A) : M A := λ st, (c, st).

(** [try { body } catch (error) { handler }] *)
Definition try_catch {A : Type} (body : M A) (handler : string → M A) : M A :=
  λ st,
    match body st with
    | (Throw error, st') => handler error st'
    | normal => normal
    end.

Definition get_this : M client := λ st, (Normal (this st), st).

Definition put_this (c : client) : M unit := λ st, (Normal (), set_this c st).

Definition log (msg : string) : M unit := λ st, (Normal (), console_log msg st).

Definition set_theme (t : gmap string json) (c : client) : client :=
  {| baseUrl := baseUrl c; indexers := indexers c;
     currentMenuLevel := currentMenuLevel c; qbittorrentUrl := qbittorrentUrl c;
     theme := t; settings := settings c |}.

Definition set_settings (s : gmap string json) (c : client) : client :=
  {| baseUrl := baseUrl c; indexers := indexers c;
     currentMenuLevel := currentMenuLevel c; qbittorrentUrl := qbittorrentUrl c;
     theme := theme c; settings := s |}.

(** What the file system and [JSON.parse] answer on one run of
    [loadConfig]. *)
Inductive config_read :=
| file_missing
| read_throws (error : string)
| parse_throws (text : string)
| parse_returns (text : string) (config : json).

(** [fs.existsSync(this.configPath)] *)
Definition existsSync (r : config_read) : bool :=
  match r with
  | file_missing => false
  | _ => true
  end.

(** [fs.readFileSync(this.configPath, 'utf8')] *)
Definition readFileSync (r : config_read) : completion string :=
  match r with
  | file_missing => Throw "ENOENT"
  | read_throws error => Throw error
  | parse_throws text | parse_returns text _ => Normal text
  end.

(** [JSON.parse(text)] *)
Definition JSON_parse (r : config_read) (text : string) : completion json :=
  match r with
  | parse_returns _ config => Normal config
  | _ => Throw "SyntaxError"
  end.

Definition load_warning : string :=
  "Could not load config file. Using default settings.".

(** The object returned when no configuration was read. *)
Definition fallback_config (c : client) : json :=
  JObj (list_to_map [
    ("serverUrl", JStr ""); ("apiKey", JStr ""); ("qbittorrentUrl", JStr "");
    ("theme", JObj (theme c)); ("settings", JObj (settings c)) ]).

(** [loadConfig].  The [try] block yields [Some config] when it returns
    from the function and [None] when control falls out of it. *)
Definition loadConfig (r : config_read) : M json :=
  returned ←
    try_catch
      (if existsSync r then
         text ← lift (readFileSync r);
         config ← lift (JSON_parse r text);
         config_theme ← lift (get config "theme");
         _ ← match config_theme with
             | Some v =>
                 if truthy v then
                   c ← get_this; put_this (set_theme (spread_over (theme c) v) c)
                 else mret ()
             | None => mret ()
             end;
         config_settings ← lift (get config "settings");
         _ ← match config_settings with
             | Some v =>
                 if truthy v then
                   c ← get_this;
                   put_this (set_settings (spread_over (settings c) v) c)
                 else mret ()
             | None => mret ()
             end;
         mret (Some config)
       else mret None)
      (λ error, _ ← log load_warning; mret None);
  match returned with
  | Some config => mret config
  | None => c ← get_this; mret (fallback_config c)
  end.

End Prowling.

(** ** [index.js]: the original client's [loadConfig] *)

Module IndexJs.
Import JS Prowling.

Definition fallback_config : json :=
  JObj (list_to_map [("serverUrl", JStr ""); ("apiKey", JStr "")]).

Definition loadConfig (r : config_read) : M json :=
  returned ←
    try_catch
      (if existsSync r then
         text ← lift (readFileSync r);
         config ← lift (JSON_parse r text);
         mret (Some config)
       else mret None)
      (λ error, _ ← log load_warning; mret None);
  match returned with
  | Some config => mret config
  | None => mret fallback_config
  end.

End IndexJs.

(** ** A reference host

    A concrete [Runtime] to run the client on: exact for ASCII text under
    code-unit collation, and for dates in the interchange format with a
    four-digit year and the UTC designator ([YYYY-MM-DD],
    [YYYY-MM-DDTHH:mm:ssZ], [YYYY-MM-DDTHH:mm:ss.sssZ]).  Any other string
    is taken as unparseable. *)

Module Host.
Import JS.

Definition lower (c : ascii) : ascii :=
  let n := nat_of_ascii c in
  if ((65 <=? n) && (n <=? 90))%nat then ascii_of_nat (n + 32) else c.

Fixpoint lower_case (s : string) : string :=
  match s with
  | EmptyString => EmptyString
  | String c s' => String (lower c) (lower_case s')
  end.

(** TAB, LF, VT, FF, CR and SPACE. *)
Definition is_space (c : ascii) : bool :=
  bool_decide (nat_of_ascii c ∈ [9; 10; 11; 12; 13; 32]%nat).

Fixpoint trim_start (s : string) : string :=
  match s with
  | EmptyString => EmptyString
  | String c s' => if is_space c then trim_start s' else s
  end.

Fixpoint trim_end (s : string) : string :=
  match s with
  | EmptyString => EmptyString
  | String c s' =>
      match trim_end s' with
      | EmptyString => if is_space c then EmptyString else String c EmptyString
      | t => String c t
      end
  end.

Definition code_unit_compare (a b : string) : Z :=
  match String.compare a b with
  | Lt => -1
  | Eq => 0
  | Gt => 1
  end.

Definition digit (c : ascii) : option Z :=
  let n := Z.of_nat (nat_of_ascii c) in
  if (48 <=? n) && (n <=? 57) then Some (n - 48) else None.

(** The decimal number written by [cs]. *)
Fixpoint digits (acc : Z) (cs : list ascii) : option Z :=
  match cs with
  | [] => Some acc
  | c :: cs' => d ← digit c; digits (10 * acc + d) cs'
  end.

Definition leap_year (y : Z) : bool :=
  ((y mod 4 =? 0) && negb (y mod 100 =? 0)) || (y mod 400 =? 0).

Definition days_in_month (y m : Z) : Z :=
  if m =? 2 then (if leap_year y then 29 else 28)
  else if bool_decide (m ∈ [4; 6; 9; 11]) then 30 else 31.

(** Days from 1970-01-01 to the civil date [y-m-d]. *)
Definition days_from_civil (y m d : Z) : Z :=
  let y' := if m <=? 2 then y - 1 else y in
  let era := y' / 400 in
  let yoe := y' - era * 400 in
  let doy := (153 * (if 2 <? m then m - 3 else m + 9) + 2) / 5 + d - 1 in
  let doe := yoe * 365 + yoe / 4 - yoe / 100 + doy in
  era * 146097 + doe - 719468.

Definition make_date (y m d : Z) : option Z :=
  if (1 <=? m) && (m <=? 12) && (1 <=? d) && (d <=? days_in_month y m)
  then Some (days_from_civil y m d * 86400000) else None.

Definition make_time (h mi s ms : Z) : option Z :=
  if (h <=? 23) && (mi <=? 59) && (s <=? 59)
  then Some (((h * 60 + mi) * 60 + s) * 1000 + ms) else None.

Definition parse_time (cs : list ascii) : option Z :=
  match cs with
  | [] => Some 0
  | "T" :: h1 :: h2 :: ":" :: m1 :: m2 :: ":" :: s1 :: s2 :: rest =>
      h ← digits 0 [h1; h2];
      mi ← digits 0 [m1; m2];
      s ← digits 0 [s1; s2];
      match rest with
      | ["Z"] => make_time h mi s 0
      | ["."; f1; f2; f3; "Z"] => ms ← digits 0 [f1; f2; f3]; make_time h mi s ms
      | _ => None
      end
  | _ => None
  end%char.

Definition parse_date (s : string) : option Z :=
  match list_ascii_of_string s with
  | y1 :: y2 :: y3 :: y4 :: "-" :: m1 :: m2 :: "-" :: d1 :: d2 :: rest =>
      y ← digits 0 [y1; y2; y3; y4];
      m ← digits 0 [m1; m2];
      d ← digits 0 [d1; d2];
      day ← make_date y m d;
      time ← parse_time rest;
      Some (day + time)
  | _ => None
  end%char.

Definition iso_parse (s : string) : number :=
  match parse_date s with
  | Some t => Num t
  | None => NaN
  end.

#[export] Instance runtime : Runtime := {|
  toLowerCase := lower_case;
  trim s := trim_end (trim_start s);
  localeCompare := code_unit_compare;
  Date_parse := iso_parse;
|}.

End Host.

(** ** What the specification says, in its own words *)

Module Spec.
Import JS Prowling.

Section WithRuntime.
Context {rt : Runtime}.

(** [title] contains [query] as a case-insensitive substring: after case
    folding both, [query] occurs somewhere in [title]. *)
Definition contains_ci (query title : string) : Prop :=
  ∃ pre post, toLowerCase title = pre +:+ toLowerCase query +:+ post.

(** [m] is exactly the elements of [l] that satisfy [P], in their
    original order. *)
Inductive selects {A : Type} (P : A → Prop) : list A → list A → Prop :=
| selects_nil : selects P [] []
| selects_keep x l m : P x → selects P l m → selects P (x :: l) (x :: m)
| selects_drop x l m : ¬ P x → selects P l m → selects P (x :: l) m.

(** The match set of [query] over [full] is [m]. *)
Definition match_set (query : string) (full m : list SearchResult.t) : Prop :=
  selects (λ r, contains_ci query (SearchResult.title r)) full m.

(** "Search within results" returned [l]: the array it assigned to
    [filteredResults] holds [l]. *)
Definition returned (st' : state) (l : list SearchResult.t) : Prop :=
  ∃ vars p filtered,
    frame st' = Some (vars, p) ∧ filteredResults vars = Some filtered ∧
    heap st' !! filtered = Some l.

(** An empty match set was handled at [st], leading to [st']: the user is
    told, the displayed sequence and the flag are as before, and the next
    key press shows the results list again. *)
Definition empty_match_reported (st st' : state) : Prop :=
  console st' = console st ++ [no_matches_message] ∧
  ∃ vars vars',
    frame st = Some (vars, results_prompt) ∧
    frame st' = Some (vars', no_matches_prompt) ∧
    currentResults vars' = currentResults vars ∧
    isFiltered vars' = isFiltered vars ∧
    displayed st' = displayed st ∧
    frame (step st' press_enter) = Some (vars', results_prompt) ∧
    displayed (step st' press_enter) = displayed st.

(** The query has something other than white space in it. *)
Definition non_blank (query : string) : Prop := trim query ≠ EmptyString.

(** The timestamp the specification gives a result: the parsed publish
    date, and epoch 0 when the date is missing or does not parse. *)
Definition timestamp_or_epoch (r : SearchResult.t) : Z :=
  match Date_of (SearchResult.publishDate r) with
  | Num t => t
  | NaN => 0
  end.

(** The date keys compare [a] and [b] by those timestamps. *)
Definition compares_timestamps (this : client) (a b : SearchResult.t) : Prop :=
  SortCompare (compareBy this SortBy.date_asc) a b
    = timestamp_or_epoch a - timestamp_or_epoch b ∧
  SortCompare (compareBy this SortBy.date_desc) a b
    = timestamp_or_epoch b - timestamp_or_epoch a.

(** The date keys see [a] and [b] as a tie, whichever comes first. *)
Definition date_tie (this : client) (a b : SearchResult.t) : Prop :=
  ∀ sortBy, sortBy = SortBy.date_asc ∨ sortBy = SortBy.date_desc →
    SortCompare (compareBy this sortBy) a b = 0 ∧
    SortCompare (compareBy this sortBy) b a = 0.

(** The publish date is missing: absent, [null] or empty. *)
Definition no_date (r : SearchResult.t) : Prop :=
  match SearchResult.publishDate r with
  | val s => s = EmptyString
  | _ => True
  end.

(** The comparator of [sortBy] can tell where [r] belongs: for the date
    keys, its publish date is missing or parses. *)
Definition comparable (sortBy : SortBy.t) (r : SearchResult.t) : Prop :=
  match sortBy with
  | SortBy.date_desc | SortBy.date_asc =>
      Date_of (SearchResult.publishDate r) ≠ NaN
  | _ => True
  end.

End WithRuntime.

(** The result with an explicit 0 wherever its size or seeder count is
    missing. *)
Definition zero_fill (r : SearchResult.t) : SearchResult.t :=
  {| SearchResult.title := SearchResult.title r;
     SearchResult.indexer := SearchResult.indexer r;
     SearchResult.size := val (or_zero (SearchResult.size r));
     SearchResult.seeders := val (or_zero (SearchResult.seeders r));
     SearchResult.protocol := SearchResult.protocol r;
     SearchResult.publishDate := SearchResult.publishDate r |}.

(** The seeders and size keys. *)
Definition numeric_key (sortBy : SortBy.t) : bool :=
  match sortBy with
  | SortBy.seeders_desc | SortBy.seeders_asc
  | SortBy.size_desc | SortBy.size_asc => true
  | _ => false
  end.

(** The keys for which the specification promises a fixed point. *)
Definition total_key (sortBy : SortBy.t) : bool :=
  match sortBy with
  | SortBy.protocol
  | SortBy.indexer_priority_desc | SortBy.indexer_priority_asc => false
  | _ => true
  end.

(** Usenet entries come before all others. *)
Definition usenet_first (l : list SearchResult.t) : Prop :=
  StronglySorted (λ a b, is_usenet b = true → is_usenet a = true) l.

(** Priorities never decrease (or never increase) along the list. *)
Definition by_priority (this : client) (descending : bool)
    (l : list SearchResult.t) : Prop :=
  StronglySorted
    (λ a b,
       let pa := priority_of this (SearchResult.indexer a) in
       let pb := priority_of this (SearchResult.indexer b) in
       if descending then pb ≤ pa else pa ≤ pb) l.

(** The [key=value] pairs one parameter contributes: one per element of
    an array, with the element as it prints; one for a scalar, with the
    value URI-encoded. *)
Definition pairs_of (kv : string * param) : list string :=
  match kv.2 with
  | array vs => (λ v, kv.1 +:+ "=" +:+ ToString v) <$> vs
  | scalar v => [kv.1 +:+ "=" +:+ encodeURIComponent (ToString v)]
  end.

(** The query string of the specification. *)
Definition query_string (params : list (string * param)) : string :=
  join "&" (params ≫= pairs_of).

(** The invariant of the results list for the search whose full result
    sequence [full] was stored at [r]: the stored sequence is intact, the
    loop still refers to it, and what is displayed is a permutation of a
    part of it. *)
Definition retains (r : loc) (full : list SearchResult.t) (st : state)
  : Prop :=
  heap st !! r = Some full ∧
  displayed st ⊆+ full ∧
  match frame st with
  | Some (vars, _) => results vars = r
  | None => True
  end.

(** The configuration file does not exist, or exists and does not parse. *)
Definition missing_or_malformed (r : config_read) : Prop :=
  r = file_missing ∨ ∃ text, r = parse_throws text.

(** The defaults the specification documents for the settings. *)
Definition documented_settings : list (string * json) :=
  [ ("pageSize", JNum 15); ("defaultSortOrder", JStr "seeders_desc");
    ("showAdultContent", JBool true); ("confirmDownloads", JBool true);
    ("resultsPerPage", JNum 30); ("displayDensity", JStr "normal");
    ("enableNotifications", JBool true); ("cacheDuration", JNum 30) ].

(** The [settings] of a configuration object. *)
Definition settings_of (config : json) : gmap string json :=
  match get config "settings" with
  | Normal (Some (JObj m)) => m
  | _ => ∅
  end.

End Spec.

(** ** Sample data *)

Module Sample.
Import JS Prowling.

(** A client that has just been constructed and has not searched yet. *)
Definition start : state :=
  {| this := constructor; heap := ∅; navigationStack := []; console := [];
     frame := None |}.

Definition result (title : string) (seeders size : field Z) (protocol : string)
    (publishDate : field string) : SearchResult.t :=
  {| SearchResult.title := title; SearchResult.indexer := "Indexer";
     SearchResult.size := size; SearchResult.seeders := seeders;
     SearchResult.protocol := protocol;
     SearchResult.publishDate := publishDate |}.

Definition ubuntu : SearchResult.t :=
  result "Ubuntu 22.04" (val 5) (val 1536) "torrent" (val "2022-04-21T00:00:00Z").

Definition debian : SearchResult.t :=
  result "Debian 12" null undefined "usenet" undefined.

Definition fedora : SearchResult.t :=
  result "Fedora 40" (val 20) (val 2251799813685248) "torrent" (val "not a date").

(** The results list right after a search that found the three. *)
Definition listing : state := enter_results [ubuntu; debian; fedora] start.

(** The variables of that search. *)
Definition listing_vars : locals :=
  {| results := 0%nat; currentResults := 0%nat; filteredResults := None;
     isFiltered := false |}.

End Sample.

(** ** The settings menu *)

Module Settings.
Import JS Prowling.

(** What [fs.writeFileSync] does on one call.  It returns, [text] being
    the text [JSON.stringify] produced; or it throws before the file is
    opened (no permission, no such directory), which leaves the file as it
    was; or it throws once the file has been opened, and so truncated:
    [remains] is then what a later read of the file is answered. *)
Inductive write_outcome :=
| write_returns (text : string)
| write_throws (message : string)
| write_breaks (message : string) (remains : config_read).

(** The client together with what it keeps outside [this]: the API key
    among the HTTP client's default headers, and the configuration file,
    given as what a later [loadConfig] will be answered.  The console
    holds the lines of [console.log]; what the spinner writes is not
    recorded. *)
Record session := {
  client_state : state;
  X_Api_Key : string;
  disk : config_read;
}.

(** Calls that may throw, over the session. *)
Definition MS (A : Type) : Type := session → completion A * session.

#[export] Instance MS_ret : MRet MS := λ A a s, (Normal a, s).

#[export] Instance MS_bind : MBind MS := λ A B f m s,
  match m s with
  | (Normal a, s') => f a s'
  | (Throw error, s') => (Throw error, s')
  end.

Definition on_state (f : state → state) : MS unit :=
  λ s, (Normal (),
        {| client_state := f (client_state s); X_Api_Key := X_Api_Key s;
           disk := disk s |}).

Definition on_this (f : client → client) : MS unit :=
  on_state (λ st, set_this (f (this st)) st).

(** [console.log(msg)] in a fixed colour. *)
Definition print (msg : string) : MS unit := on_state (console_log msg).

Definition set_X_Api_Key (key : string) : MS unit :=
  λ s, (Normal (),
        {| client_state := client_state s; X_Api_Key := key; disk := disk s |}).

Definition set_disk (d : config_read) : MS unit :=
  λ s, (Normal (),
        {| client_state := client_state s; X_Api_Key := X_Api_Key s; disk := d |}).

Definition set_baseUrl (url : string) (c : client) : client :=
  {| baseUrl := url; indexers := indexers c;
     currentMenuLevel := currentMenuLevel c; qbittorrentUrl := qbittorrentUrl c;
     theme := theme c; settings := settings c |}.

Definition set_qbittorrentUrl (url : string) (c : client) : client :=
  {| baseUrl := baseUrl c; indexers := indexers c;
     currentMenuLevel := currentMenuLevel c; qbittorrentUrl := url;
     theme := theme c; settings := settings c |}.

Definition set_indexers (l : list Indexer.t) (c : client) : client :=
  {| baseUrl := baseUrl c; indexers := l;
     currentMenuLevel := currentMenuLevel c; qbittorrentUrl := qbittorrentUrl c;
     theme := theme c; settings := settings c |}.

(** [this.settings[key] = value] *)
Definition update_setting (key : string) (value : json) : MS unit :=
  on_this (λ c, set_settings (<[key := value]> (settings c)) c).

(** The object [saveConfig] serializes. *)
Definition config_object (serverUrl apiKey qbittorrentUrl : string)
    (theme settings : gmap string json) : json :=
  JObj (list_to_map [
    ("serverUrl", JStr serverUrl); ("apiKey", JStr apiKey);
    ("qbittorrentUrl", JStr qbittorrentUrl);
    ("theme", JObj theme); ("settings", JObj settings) ]).

(** [saveConfig(serverUrl, apiKey, qbittorrentUrl)], with the theme and
    settings defaulting to the client's.  After a write that returns, the
    file holds the text of [JSON.stringify]; that [JSON.parse] gives the
    object back from this text (the round trip of the two library
    functions on an object of strings, integers and booleans) is assumed
    here, not derived.  What a failed write leaves in the file is given by
    the outcome. *)
Definition saveConfig (serverUrl apiKey qbittorrentUrl : string)
    (w : write_outcome) : MS unit :=
  match w with
  | write_returns text =>
      λ s, (set_disk
              (parse_returns text
                 (config_object serverUrl apiKey qbittorrentUrl
                    (theme (this (client_state s)))
                    (settings (this (client_state s))))) ;;
            print "✓ Configuration Loaded") s
  | write_throws message =>
      print ("Failed to save configuration: " +:+ message)
  | write_breaks message remains =>
      set_disk remains ;;
      print ("Failed to save configuration: " +:+ message)
  end.

(** [this.saveConfig(this.baseUrl, axios.defaults.headers.common['X-Api-Key'],
    this.qbittorrentUrl)] *)
Definition save_current (w : write_outcome) : MS unit :=
  λ s, saveConfig (baseUrl (this (client_state s))) (X_Api_Key s)
         (qbittorrentUrl (this (client_state s))) w s.

(** The roles of the theme and the colours the theme prompt offers. *)
Inductive role :=
| primary | secondary | success | error | warning | info | highlight.

Definition role_name (r : role) : string :=
  match r with
  | primary => "primary" | secondary => "secondary" | success => "success"
  | error => "error" | warning => "warning" | info => "info"
  | highlight => "highlight"
  end.

Inductive color :=
| black | red | green | yellow | blue | magenta | cyan | white | gray.

Definition color_name (c : color) : string :=
  match c with
  | black => "black" | red => "red" | green => "green" | yellow => "yellow"
  | blue => "blue" | magenta => "magenta" | cyan => "cyan" | white => "white"
  | gray => "gray"
  end.

(** The values of the other list prompts. *)
Inductive sort_order :=
| title_asc | title_desc | seeders_desc | seeders_asc
| size_desc | size_asc | date_desc | date_asc.

Definition sort_order_name (o : sort_order) : string :=
  match o with
  | title_asc => "title_asc" | title_desc => "title_desc"
  | seeders_desc => "seeders_desc" | seeders_asc => "seeders_asc"
  | size_desc => "size_desc" | size_asc => "size_asc"
  | date_desc => "date_desc" | date_asc => "date_asc"
  end.

Inductive density := compact | normal | comfortable.

Definition density_name (d : density) : string :=
  match d with
  | compact => "compact" | normal => "normal" | comfortable => "comfortable"
  end.

Inductive display_mode := auto | light | dark.

Definition display_mode_name (m : display_mode) : string :=
  match m with auto => "auto" | light => "light" | dark => "dark" end.

(** The answers given in one visit to a sub-menu: the entry chosen and the
    value entered for it (a number prompt is answered with an integer). *)
Inductive theme_answer :=
| theme_back
| theme_pick (themeElement : role) (colorChoice : color).

Inductive ui_answer :=
| ui_back
| ui_pageSize (value : Z)
| ui_resultsPerPage (value : Z)
| ui_showExtendedInfo (value : bool).

Inductive download_answer :=
| download_back
| download_defaultDownloadDir (value : string)
| download_confirmDownloads (value : bool).

Inductive search_answer :=
| search_back
| search_defaultSortOrder (value : sort_order)
| search_showAdultContent (value : bool)
| search_autoRefreshResults (value : bool).

(** [reply] is what the status and indexer requests give: the indexers, or
    a failure of either request. *)
Inductive connection_answer :=
| connection_back
| connection_serverUrl (value : string) (reply : completion (list Indexer.t))
| connection_apiKey (value : string) (reply : completion (list Indexer.t))
| connection_qbittorrentUrl (value : string).

Inductive appearance_answer :=
| appearance_back
| appearance_displayDensity (value : density)
| appearance_enableAnimations (value : bool)
| appearance_displayMode (value : display_mode).

Inductive keyboard_answer :=
| keyboard_back
| keyboard_enableKeyboardShortcuts (value : bool)
| keyboard_searchShortcuts
| keyboard_navigationShortcuts.

Inductive notification_answer :=
| notification_back
| notification_enableNotifications (value : bool)
| notification_notificationSound (value : bool)
| notification_notificationTypes.

Inductive performance_answer :=
| performance_back
| performance_cacheResults (value : bool)
| performance_autoSaveSearchHistory (value : bool)
| performance_cacheDuration (value : Z)
| performance_maxSearchHistory (value : Z).

Definition press_enter_to_continue : MS unit :=
  print (nl +:+ "Press Enter to continue...").

(** [availableColors] of [customizeTheme]. *)
Definition availableColors : list string :=
  ["black"; "red"; "green"; "yellow"; "blue"; "magenta"; "cyan"; "white";
   "gray"].

(** [String(v)], as a computed property name [o[v]] takes it; [None] is
    [undefined]. *)
Fixpoint ToString (v : json) : string :=
  match v with
  | JNull => "null"
  | JBool b => if b then "true" else "false"
  | JNum z => pretty z
  | JStr s => s
  | JArr l =>
      join ","
        (List.map (λ x, match x with JNull => "" | _ => ToString x end) l)
  | JObj _ => "[object Object]"
  end.

Definition ToPropertyKey (v : option json) : string :=
  match v with
  | Some v => ToString v
  | None => "undefined"
  end.

Section WithChalk.
(** [chalk name text] is the call [chalk[name](text)]: the text a style
    returns for it (colour codes are not modelled), or the error thrown
    when [chalk[name]] cannot be called. *)
Variable chalk : string → string → completion string.

(** [chalk[this.theme.role](text)] *)
Definition themed (r : role) (text : string) : MS string :=
  λ s, (chalk (ToPropertyKey (theme (this (client_state s)) !! role_name r))
          text, s).

(** [console.log(chalk[this.theme.role](msg))] *)
Definition styled (r : role) (msg : string) : MS unit :=
  out ← themed r msg; print out.

(** [chalk[name](text)] for a fixed name. *)
Definition call_chalk (name text : string) : MS string :=
  λ s, (chalk name text, s).

(** The choices of the colour prompt, [colors.map(color => chalk[color](color))]. *)
Fixpoint color_choices (colors : list string) : MS (list string) :=
  match colors with
  | [] => mret []
  | color :: rest =>
      name ← call_chalk color color;
      names ← color_choices rest;
      mret (name :: names)
  end.

Definition customizeTheme (a : theme_answer) (w : write_outcome) : MS unit :=
  styled info (nl +:+ "📝 Customize Theme Colors") ;;
  styled secondary
    ("Select colors for different elements of the application." +:+ nl) ;;
  match a with
  | theme_back => mret ()
  | theme_pick themeElement colorChoice =>
      color_choices availableColors ;;
      on_this (λ c,
        set_theme
          (<[role_name themeElement := JStr (color_name colorChoice)]> (theme c))
          c) ;;
      save_current w ;;
      styled success
        ("✓ " +:+ role_name themeElement +:+ " color updated to "
         +:+ color_name colorChoice) ;;
      styled info (nl +:+ "Theme Preview:") ;;
      styled primary "Primary Text" ;;
      styled secondary "Secondary Text" ;;
      styled success "Success Message" ;;
      styled error "Error Message" ;;
      styled warning "Warning Message" ;;
      styled info "Info Message" ;;
      styled highlight "Highlighted Item" ;;
      press_enter_to_continue
  end.

(** The common end of the other sub-menus. *)
Definition saved (w : write_outcome) (name : string) : MS unit :=
  save_current w ;;
  styled success ("✓ " +:+ name +:+ " updated successfully") ;;
  press_enter_to_continue.

Definition customizeUI (a : ui_answer) (w : write_outcome) : MS unit :=
  styled info (nl +:+ "📝 Customize UI Preferences") ;;
  styled secondary ("Adjust how the application interface behaves." +:+ nl) ;;
  match a with
  | ui_back => mret ()
  | ui_pageSize value =>
      update_setting "pageSize" (JNum value) ;; saved w "pageSize"
  | ui_resultsPerPage value =>
      update_setting "resultsPerPage" (JNum value) ;; saved w "resultsPerPage"
  | ui_showExtendedInfo value =>
      update_setting "showExtendedInfo" (JBool value) ;;
      saved w "showExtendedInfo"
  end.

Definition customizeDownloadSettings (a : download_answer) (w : write_outcome)
  : MS unit :=
  styled info (nl +:+ "📝 Customize Download Settings") ;;
  styled secondary ("Configure how downloads are handled." +:+ nl) ;;
  match a with
  | download_back => mret ()
  | download_defaultDownloadDir value =>
      update_setting "defaultDownloadDir" (JStr value) ;;
      saved w "defaultDownloadDir"
  | download_confirmDownloads value =>
      update_setting "confirmDownloads" (JBool value) ;;
      saved w "confirmDownloads"
  end.

Definition customizeSearchPreferences (a : search_answer) (w : write_outcome)
  : MS unit :=
  styled info (nl +:+ "📝 Customize Search Preferences") ;;
  styled secondary
    ("Configure how search results are displayed and sorted." +:+ nl) ;;
  match a with
  | search_back => mret ()
  | search_defaultSortOrder value =>
      update_setting "defaultSortOrder" (JStr (sort_order_name value)) ;;
      saved w "defaultSortOrder"
  | search_showAdultContent value =>
      update_setting "showAdultContent" (JBool value) ;;
      saved w "showAdultContent"
  | search_autoRefreshResults value =>
      update_setting "autoRefreshResults" (JBool value) ;;
      saved w "autoRefreshResults"
  end.

(** The connection test after a new URL or key: the indexers are replaced
    when both requests succeed (the second answering with an array); a
    failure of either is caught and reported. *)
Definition test_connection (reply : completion (list Indexer.t))
    (failure : string) : MS unit :=
  match reply with
  | Normal indexers => on_this (set_indexers indexers)
  | Throw _ => print failure
  end.

Definition customizeConnectionSettings (a : connection_answer)
    (w : write_outcome) : MS unit :=
  styled info (nl +:+ "📝 Customize Connection Settings") ;;
  styled secondary
    ("Configure connection to Prowlarr and other services." +:+ nl) ;;
  match a with
  | connection_back => mret ()
  | connection_serverUrl value reply =>
      on_this (set_baseUrl value) ;;
      test_connection reply
        "Settings saved, but connection failed. Please check the URL." ;;
      saved w "serverUrl"
  | connection_apiKey value reply =>
      set_X_Api_Key value ;;
      test_connection reply
        "Settings saved, but authentication failed. Please check the API key." ;;
      saved w "apiKey"
  | connection_qbittorrentUrl value =>
      on_this (set_qbittorrentUrl value) ;;
      saved w "qbittorrentUrl"
  end.

Definition customizeAppearanceSettings (a : appearance_answer)
    (w : write_outcome) : MS unit :=
  styled info (nl +:+ "📝 Customize Appearance Settings") ;;
  styled secondary ("Configure how the application looks and feels." +:+ nl) ;;
  match a with
  | appearance_back => mret ()
  | appearance_displayDensity value =>
      update_setting "displayDensity" (JStr (density_name value)) ;;
      saved w "displayDensity"
  | appearance_enableAnimations value =>
      update_setting "enableAnimations" (JBool value) ;;
      saved w "enableAnimations"
  | appearance_displayMode value =>
      update_setting "displayMode" (JStr (display_mode_name value)) ;;
      saved w "displayMode"
  end.

(** What the two "Configure ... Shortcuts" entries print. *)
Definition shortcuts_note (which : string) : MS unit :=
  styled info (nl +:+ which +:+ " Shortcuts") ;;
  styled secondary "These shortcuts are currently not customizable." ;;
  styled secondary "This feature will be available in a future update.".

Definition keyboard_saved (w : write_outcome) : MS unit :=
  save_current w ;;
  styled success "✓ Keyboard settings updated successfully" ;;
  press_enter_to_continue.

Definition customizeKeyboardShortcuts (a : keyboard_answer) (w : write_outcome)
  : MS unit :=
  styled info (nl +:+ "📝 Customize Keyboard Shortcuts") ;;
  styled secondary
    ("Configure keyboard shortcuts for faster navigation." +:+ nl) ;;
  match a with
  | keyboard_back => mret ()
  | keyboard_enableKeyboardShortcuts value =>
      update_setting "enableKeyboardShortcuts" (JBool value) ;;
      styled info
        (nl +:+ "Keyboard shortcuts "
         +:+ (if value then "enabled" else "disabled")) ;;
      (if value then
         styled secondary "Available shortcuts:" ;;
         styled secondary "- Ctrl+S: Quick search" ;;
         styled secondary "- Ctrl+D: Download selected item" ;;
         styled secondary "- Ctrl+R: Refresh results" ;;
         styled secondary "- Ctrl+H: View search history" ;;
         styled secondary "- Ctrl+F: Filter results"
       else mret ()) ;;
      keyboard_saved w
  | keyboard_searchShortcuts => shortcuts_note "Search" ;; keyboard_saved w
  | keyboard_navigationShortcuts =>
      shortcuts_note "Navigation" ;; keyboard_saved w
  end.

Definition customizeNotificationSettings (a : notification_answer)
    (w : write_outcome) : MS unit :=
  styled info (nl +:+ "📝 Customize Notification Settings") ;;
  styled secondary ("Configure how and when notifications appear." +:+ nl) ;;
  match a with
  | notification_back => mret ()
  | notification_enableNotifications value =>
      update_setting "enableNotifications" (JBool value) ;;
      saved w "enableNotifications"
  | notification_notificationSound value =>
      update_setting "notificationSound" (JBool value) ;;
      saved w "notificationSound"
  | notification_notificationTypes =>
      styled info (nl +:+ "Notification Types") ;;
      styled secondary ("Select which events trigger notifications:" +:+ nl) ;;
      styled secondary "This feature will be expanded in a future update." ;;
      saved w "notificationTypes"
  end.

Definition customizePerformanceSettings (a : performance_answer)
    (w : write_outcome) : MS unit :=
  styled info (nl +:+ "📝 Customize Performance Settings") ;;
  styled secondary ("Configure application performance and caching." +:+ nl) ;;
  match a with
  | performance_back => mret ()
  | performance_cacheResults value =>
      update_setting "cacheResults" (JBool value) ;; saved w "cacheResults"
  | performance_autoSaveSearchHistory value =>
      update_setting "autoSaveSearchHistory" (JBool value) ;;
      saved w "autoSaveSearchHistory"
  | performance_cacheDuration value =>
      update_setting "cacheDuration" (JNum value) ;; saved w "cacheDuration"
  | performance_maxSearchHistory value =>
      update_setting "maxSearchHistory" (JNum value) ;;
      saved w "maxSearchHistory"
  end.

(** One round of the settings menu: the entry chosen, the answers given
    in it, and what the write of the configuration file does. *)
Inductive visit :=
| reset (confirm : bool)
| connection (a : connection_answer)
| theme_colors (a : theme_answer)
| ui (a : ui_answer)
| download (a : download_answer)
| search (a : search_answer)
| appearance (a : appearance_answer)
| keyboard (a : keyboard_answer)
| notifications (a : notification_answer)
| performance (a : performance_answer).

(** "Reset to Default Settings", once confirmed. *)
Definition reset_to_default (w : write_outcome) : MS unit :=
  on_this (λ c, set_settings default_settings (set_theme default_theme c)) ;;
  save_current w ;;
  styled success "✓ Settings reset to default".

Definition visit_menu (v : visit) (w : write_outcome) : MS unit :=
  match v with
  | reset confirm => if confirm then reset_to_default w else mret ()
  | connection a => customizeConnectionSettings a w
  | theme_colors a => customizeTheme a w
  | ui a => customizeUI a w
  | download a => customizeDownloadSettings a w
  | search a => customizeSearchPreferences a w
  | appearance a => customizeAppearanceSettings a w
  | keyboard a => customizeKeyboardShortcuts a w
  | notifications a => customizeNotificationSettings a w
  | performance a => customizePerformanceSettings a w
  end.

(** The loop of [showSettingsMenu]: the prompt is built (its prefix is
    styled by the theme), then the visits are made in turn; when they are
    used up, "Back to Main Menu" is chosen. *)
Fixpoint settings_loop (visits : list (visit * write_outcome)) : MS unit :=
  themed highlight "⚙️" ;;
  match visits with
  | [] => mret ()
  | (v, w) :: rest => visit_menu v w ;; settings_loop rest
  end.

Definition showSettingsMenu (visits : list (visit * write_outcome)) : MS unit :=
  on_state (set_currentMenuLevel "settings") ;;
  styled primary (nl +:+ "┌─────────────────────────────────────────┐") ;;
  left ← themed primary "│";
  right ← themed primary "│";
  print (left +:+ " ⚙️ Settings Menu                      " +:+ right) ;;
  styled primary ("└─────────────────────────────────────────┘" +:+ nl) ;;
  settings_loop visits.

(** [startSearchLoop] from its first line to the return of the settings
    menu, when "Settings" is what is chosen first at the main menu: the
    banner, the new navigation stack, the main menu prompt (its prefix
    is styled by the theme) and [showSettingsMenu]. *)
Definition startSearchLoop_settings (visits : list (visit * write_outcome))
  : MS unit :=
  styled primary (nl +:+ "┌─────────────────────────────────────────┐") ;;
  left ← themed primary "│";
  right ← themed primary "│";
  print (left +:+ " ⚲ Prowling - Prowlarr Search Client     " +:+ right) ;;
  styled primary ("└─────────────────────────────────────────┘" +:+ nl) ;;
  on_state (set_navigationStack []) ;;
  on_state (set_currentMenuLevel "main") ;;
  themed highlight "⚇" ;;
  showSettingsMenu visits.

End WithChalk.

End Settings.

(** ** The actions of the detail view *)

Module Detail.
Import JS Prowling.

(** The links of a search result, beside the fields of [SearchResult.t]. *)
Record links := {
  downloadUrl : field string;
  magnetUrl : field string;
}.

(** Truthiness of a string property: [undefined], [null] and the empty
    string are falsy. *)
Definition truthy (x : field string) : bool :=
  match x with
  | val s => truthy_string s
  | _ => false
  end.

(** [x || y] *)
Definition or_else (x y : field string) : field string :=
  if truthy x then x else y.

(** [this.protocols.torrent] *)
Definition protocols_torrent : string := "torrent".

(** [actionChoices] as the detail view builds it: the name shown and the
    value of each choice. *)
Definition actionChoices (c : client) (selected : SearchResult.t) (l : links)
  : list (string * detail_action) :=
  (if truthy (downloadUrl l) then
     if String.eqb (SearchResult.protocol selected) protocols_usenet
     then [("⚡ Copy NZB URL", download_url)]
     else [("⚟ Copy torrent URL", download_url)]
   else []) ++
  (if truthy (magnetUrl l) then
     ("⚲ Copy magnet URL", magnet_url) ::
     (if truthy_string (qbittorrentUrl c)
      then [("⚓ Open in qBittorrent", open_qbittorrent)] else [])
   else if truthy (downloadUrl l)
           && String.eqb (SearchResult.protocol selected) protocols_torrent
           && truthy_string (qbittorrentUrl c)
   then [("⚓ Open in qBittorrent", open_qbittorrent)]
   else []) ++
  [("⚲ View more details", more_info); ("← Back to results", back);
   ("⌂ Back to main menu", main_menu)].

#[global] Instance detail_action_eq_dec : EqDecision detail_action.
Proof. solve_decision. Defined.

(** A POST of the form field [urls] to [url]. *)
Record request := { url : string; urls : string }.

(** [openInQBittorrent(selected)]: the request sent, if any, and the state
    after; [reply] is what the POST does.  The early returns leave from
    inside the [try] block, past the closing prompt. *)
Definition openInQBittorrent (l : links) (reply : completion unit) (st : state)
  : option request * state :=
  if negb (truthy_string (qbittorrentUrl (this st))) then (None, st)
  else
    match or_else (magnetUrl l) (downloadUrl l) with
    | val url =>
        if negb (truthy_string url) then (None, st)
        else
          let sent :=
            {| url := qbittorrentUrl (this st) +:+ "/api/v2/torrents/add";
               urls := url |} in
          let st' :=
            match reply with
            | Normal _ => st
            | Throw _ =>
                console_log
                  "You may need to login to qBittorrent WebUI first in your browser."
                  (console_log
                     (nl +:+ "Tip: Make sure qBittorrent WebUI is enabled and the URL is correct.")
                     st)
            end in
          (Some sent, console_log (nl +:+ "Press Enter to go back...") st')
    | _ => (None, st)
    end.

End Detail.

(** ** Further notions for stating properties *)

Module Notions.
Import JS Prowling.

(** The value of a hexadecimal digit as [encodeURIComponent] writes it. *)
Definition unhex (c : ascii) : Z :=
  let n := Z.of_nat (nat_of_ascii c) in
  if n <? 58 then n - 48 else n - 55.

(** Undoing percent-encoding, byte by byte. *)
Fixpoint percent_decode (s : string) : string :=
  match s with
  | EmptyString => EmptyString
  | String c rest =>
      if Ascii.eqb c "%" then
        match rest with
        | String x (String y rest') =>
            String (ascii_of_nat (Z.to_nat (16 * unhex x + unhex y)))
              (percent_decode rest')
        | _ => String c (percent_decode rest)
        end
      else String c (percent_decode rest)
  end.

(** The category codes a category answer stands for. *)
Definition category_codes (cat : category) : list Z :=
  match cat with
  | all => []
  | one_category c => [c]
  | categories cs => cs
  end.

(** The strings of [l], one after another. *)
Definition concat_strings (l : list string) : string :=
  foldr String.append EmptyString l.

(** While the results list is shown it is never empty, and unless a
    filter is flagged it holds every result of the search. *)
Definition shown_ok (full : list SearchResult.t) (st : state) : Prop :=
  match frame st with
  | Some (vars, _) =>
      displayed st ≠ [] ∧ (isFiltered vars = false → displayed st ≡ₚ full)
  | None => True
  end.

(** The actions of the detail view that end it. *)
Definition leaves_detail (a : detail_action) : bool :=
  match a with
  | back | main_menu => true
  | _ => false
  end.

(** [{...old, ...v}] as [loadConfig] applies it to an optional property:
    only a truthy value is spread. *)
Definition merged (old : gmap string json) (v : option json) : gmap string json :=
  match v with
  | Some v => if truthy v then spread_over old v else old
  | None => old
  end.

(** *** The settings menu *)

Section SettingsNotions.
Import Settings.

(** A [chalk] that knows the nine colours of the theme prompt and returns
    the text as it is (colour support off). *)
Definition plain_chalk (name text : string) : completion string :=
  if bool_decide (name ∈ availableColors) then Normal text
  else Throw "TypeError".

(** The colours the theme prompt offers are styles of [chalk]. *)
Definition colors_are_styles (chalk : string → string → completion string)
  : Prop :=
  ∀ (k : color) text, ∃ out, chalk (color_name k) text = Normal out.

(** The role [r] of the theme holds one of the nine colours. *)
Definition role_ok (s : session) (r : role) : Prop :=
  ∃ k : color,
    theme (this (client_state s)) !! role_name r = Some (JStr (color_name k)).

(** Every role of the theme holds one of the nine colours. *)
Definition theme_ok (s : session) : Prop :=
  ∀ r : role, ∃ k : color,
    theme (this (client_state s)) !! role_name r = Some (JStr (color_name k)).

Inductive json_kind :=
| null_kind | boolean_kind | number_kind | string_kind | array_kind
| object_kind.

Definition kind_of (v : json) : json_kind :=
  match v with
  | JNull => null_kind
  | JBool _ => boolean_kind
  | JNum _ => number_kind
  | JStr _ => string_kind
  | JArr _ => array_kind
  | JObj _ => object_kind
  end.

(** The settings have the keys of the defaults and no others, each with a
    value of the kind of its default. *)
Definition settings_typed (s : session) : Prop :=
  ∀ key, kind_of <$> settings (this (client_state s)) !! key
         = kind_of <$> default_settings !! key.

(** The file holds what the client holds. *)
Definition in_sync (s : session) : Prop :=
  ∃ text,
    disk s =
    parse_returns text
      (config_object (baseUrl (this (client_state s))) (X_Api_Key s)
         (qbittorrentUrl (this (client_state s)))
         (theme (this (client_state s))) (settings (this (client_state s)))).

(** The visit goes past "back" (or confirms the reset), so that the
    configuration is written. *)
Definition saves (v : visit) : bool :=
  match v with
  | reset confirm => confirm
  | connection connection_back | theme_colors theme_back | ui ui_back
  | download download_back | search search_back
  | appearance appearance_back | keyboard keyboard_back
  | notifications notification_back | performance performance_back => false
  | _ => true
  end.

Definition write_succeeds (w : write_outcome) : Prop :=
  ∃ text, w = write_returns text.

(** The message of the error a failed write throws. *)
Definition failure_message (w : write_outcome) : option string :=
  match w with
  | write_returns _ => None
  | write_throws message | write_breaks message _ => Some message
  end.

(** The entries of the settings menu that open a sub-menu. *)
Definition opens_sub_menu (v : visit) : bool :=
  match v with
  | reset _ => false
  | _ => true
  end.

(** [m] throws [error] from [s], leaving a session that satisfies [Q]. *)
Definition throws {A : Type} (m : MS A) (s : session) (error : string)
    (Q : session → Prop) : Prop :=
  ∃ s', m s = (Throw error, s') ∧ Q s'.

(** [m] completes normally from [s], with a result and a session that
    satisfy [Q]. *)
Definition completes {A : Type} (m : MS A) (s : session)
    (Q : A → session → Prop) : Prop :=
  ∃ a s', m s = (Normal a, s') ∧ Q a s'.

(** What one visit to a sub-menu leaves behind, from the session [s]. *)
Definition visit_post (s : session) (v : visit) (w : write_outcome)
    (s' : session) : Prop :=
  theme_ok s' ∧
  (settings_typed s → settings_typed s') ∧
  (saves v = false →
     this (client_state s') = this (client_state s) ∧
     X_Api_Key s' = X_Api_Key s ∧ disk s' = disk s) ∧
  match w with
  | write_returns _ => saves v = true → in_sync s'
  | write_throws message | write_breaks message _ =>
      saves v = true →
      ("Failed to save configuration: " +:+ message)
      ∈ console (client_state s')
  end.

(** What a stay in the settings menu leaves behind, from the session
    [s]. *)
Definition menu_post (s : session) (visits : list (visit * write_outcome))
    (s' : session) : Prop :=
  theme_ok s' ∧
  (settings_typed s → settings_typed s') ∧
  (Forall (λ vw, write_succeeds vw.2) visits → in_sync s → in_sync s').

(** A client that has just been constructed, with its key and no
    configuration file. *)
Definition new_session : session :=
  {| client_state := Sample.start; X_Api_Key := "0123456789abcdef";
     disk := file_missing |}.

End SettingsNotions.

End Notions.

(** * Properties *)

(** ** Sorting *)

Section SortFacts.
Import JS.
Context {A : Type}.
Variable comparefn : A → A → number.

Lemma insert_sorted_Permutation x l : insert_sorted comparefn x l ≡ₚ x :: l.
Proof.
  induction l as [|y l IH]; simpl; [done|].
  destruct (0 <? SortCompare comparefn x y); [|done].
  rewrite IH. apply Permutation_swap.
Qed.

Lemma Array_sort_Permutation l : Array_sort comparefn l ≡ₚ l.
Proof.
  induction l as [|x l IH]; simpl; [done|].
  rewrite insert_sorted_Permutation. by rewrite IH.
Qed.

Lemma insert_sorted_HdRel a x l :
  ordered comparefn a x → HdRel (ordered comparefn) a l →
  HdRel (ordered comparefn) a (insert_sorted comparefn x l).
Proof.
  intros Hax Hal. destruct l as [|y l]; simpl.
  - by constructor.
  - destruct (0 <? SortCompare comparefn x y); constructor; [|done].
    by inversion Hal.
Qed.

Lemma insert_sorted_Sorted x l :
  antisymmetric comparefn → Sorted (ordered comparefn) l →
  Sorted (ordered comparefn) (insert_sorted comparefn x l).
Proof.
  intros Hanti. induction 1 as [|y l Hs IH Hhd]; simpl.
  - repeat constructor.
  - destruct (0 <? SortCompare comparefn x y) eqn:Hc.
    + apply Z.ltb_lt in Hc. constructor; [done|].
      apply insert_sorted_HdRel; [by apply Hanti | done].
    + apply Z.ltb_ge in Hc. constructor; [by constructor|].
      by constructor.
Qed.

(** Neighbours of the output are in order, whatever the comparator does
    on elements that are far apart. *)
Lemma Array_sort_Sorted l :
  antisymmetric comparefn → Sorted (ordered comparefn) (Array_sort comparefn l).
Proof.
  intros Hanti. induction l as [|x l IH]; simpl.
  - constructor.
  - by apply insert_sorted_Sorted.
Qed.

(** Sorted input is a fixed point: nothing moves. *)
Lemma Array_sort_fixed l :
  Sorted (ordered comparefn) l → Array_sort comparefn l = l.
Proof.
  induction 1 as [|x l Hs IH Hhd]; simpl; [done|].
  rewrite IH. destruct Hhd as [|y l Hxy]; simpl; [done|].
  unfold ordered in Hxy.
  destruct (0 <? SortCompare comparefn x y) eqn:Hc; [|done].
  apply Z.ltb_lt in Hc. lia.
Qed.

Lemma Array_sort_idempotent l :
  antisymmetric comparefn →
  Array_sort comparefn (Array_sort comparefn l) = Array_sort comparefn l.
Proof. intros Hanti. by apply Array_sort_fixed, Array_sort_Sorted. Qed.

(** The sort is stable: elements among which none sorts after another
    keep the order they had in the input. *)
Lemma insert_sorted_stable (P : A → bool) x l :
  (∀ y, y ∈ l → P x = true → P y = true → SortCompare comparefn x y ≤ 0) →
  List.filter P (insert_sorted comparefn x l) = List.filter P (x :: l).
Proof.
  induction l as [|y l IH]; intros Htie; [done|].
  cbn [insert_sorted].
  destruct (0 <? SortCompare comparefn x y) eqn:Hc; [|done].
  apply Z.ltb_lt in Hc. cbn [List.filter] in *.
  rewrite IH by (intros z Hz; apply Htie; by right).
  destruct (P x) eqn:Hx, (P y) eqn:Hy; try done.
  specialize (Htie y ltac:(by left) eq_refl Hy). lia.
Qed.

Lemma Array_sort_stable (P : A → bool) l :
  (∀ x y, x ∈ l → y ∈ l → P x = true → P y = true →
     SortCompare comparefn x y ≤ 0) →
  List.filter P (Array_sort comparefn l) = List.filter P l.
Proof.
  induction l as [|x l IH]; intros Htie; [done|].
  cbn [Array_sort foldr]. fold (Array_sort comparefn l).
  rewrite insert_sorted_stable.
  - cbn [List.filter]. rewrite IH; [done|].
    intros y z Hy Hz. apply Htie; by right.
  - intros y Hy. rewrite Array_sort_Permutation in Hy.
    apply Htie; [by left | by right].
Qed.

(** Where the comparator is consistent on the elements at hand (those
    satisfying [P]), every earlier element of the output is in order with
    every later one. *)
Section On.
Variable P : A → Prop.
Hypothesis anti_on :
  ∀ x y, P x → P y → 0 < SortCompare comparefn x y → SortCompare comparefn y x ≤ 0.
Hypothesis trans_on :
  ∀ x y z, P x → P y → P z →
    ordered comparefn x y → ordered comparefn y z → ordered comparefn x z.

Lemma insert_sorted_StronglySorted_on x l :
  P x → Forall P l → StronglySorted (ordered comparefn) l →
  StronglySorted (ordered comparefn) (insert_sorted comparefn x l).
Proof.
  intros Hx HP. induction 1 as [|y l Hs IH Hall]; simpl.
  - repeat constructor.
  - apply Forall_cons in HP as [Hy HP].
    destruct (0 <? SortCompare comparefn x y) eqn:Hc.
    + apply Z.ltb_lt in Hc. constructor; [by apply IH|].
      rewrite insert_sorted_Permutation. constructor; [|done].
      by apply anti_on.
    + apply Z.ltb_ge in Hc. constructor; [by constructor|].
      constructor; [done|].
      rewrite Forall_forall in Hall, HP. apply Forall_forall. intros z Hz.
      apply (trans_on x y z); auto.
Qed.

Lemma Array_sort_StronglySorted_on l :
  Forall P l → StronglySorted (ordered comparefn) (Array_sort comparefn l).
Proof.
  induction 1 as [|x l Hx HP IH]; simpl.
  - constructor.
  - apply insert_sorted_StronglySorted_on; [done| |done].
    by rewrite Array_sort_Permutation.
Qed.

Lemma ordered_refl_on z : P z → ordered comparefn z z.
Proof.
  intros Hz. unfold ordered.
  destruct (Z.lt_ge_cases 0 (SortCompare comparefn z z)); [by apply anti_on | lia].
Qed.

(** The model meets what ECMAScript asks of [sort]. *)
Lemma Array_sort_is_stable_sort l :
  Forall P l → stable_sort_of comparefn l (Array_sort comparefn l).
Proof.
  intros HP. split; [apply Array_sort_Permutation|].
  split; [by apply Array_sort_StronglySorted_on|].
  intros T HT. by apply Array_sort_stable.
Qed.

(** Two sorted arrangements of the same elements that order every group
    of tied elements alike are the same list. *)
Lemma stable_sorts_agree a b :
  Forall P a → a ≡ₚ b →
  StronglySorted (ordered comparefn) a → StronglySorted (ordered comparefn) b →
  (∀ T : A → bool,
     (∀ x y, x ∈ a → y ∈ a → T x = true → T y = true →
        SortCompare comparefn x y ≤ 0) →
     List.filter T a = List.filter T b) →
  a = b.
Proof.
  revert b. induction a as [|x a IH]; intros b HP Hperm Ha Hb Hst.
  - symmetry. by apply Permutation_nil.
  - destruct b as [|y b]; [by apply Permutation_sym, Permutation_nil_cons in Hperm|].
    apply Forall_cons in HP as [Hx HP].
    apply StronglySorted_inv in Ha as [Ha Hxa].
    apply StronglySorted_inv in Hb as [Hb Hyb].
    rewrite Forall_forall in Hxa, Hyb, HP.
    assert (Hy_in : y ∈ x :: a) by (rewrite Hperm; by left).
    assert (Hx_in : x ∈ y :: b) by (rewrite <- Hperm; by left).
    assert (Hxy : ordered comparefn x y).
    { apply elem_of_cons in Hy_in as [->|Hin]; [by apply ordered_refl_on | auto]. }
    assert (Hyx : ordered comparefn y x).
    { apply elem_of_cons in Hx_in as [->|Hin]; [by apply ordered_refl_on | auto]. }
    assert (Heq : x = y).
    { pose (T := λ z, (SortCompare comparefn x z <=? 0)
                      && (SortCompare comparefn z x <=? 0)).
      assert (HTx : T x = true).
      { unfold T. pose proof (ordered_refl_on x Hx) as Hr. unfold ordered in Hr.
        apply andb_true_intro. split; by apply Z.leb_le. }
      assert (HTy : T y = true).
      { unfold T. apply andb_true_intro. split; by apply Z.leb_le. }
      specialize (Hst T). cbn [List.filter] in Hst. rewrite HTx, HTy in Hst.
      assert (Hgoal : x :: List.filter T a = y :: List.filter T b); [|congruence].
      apply Hst. intros u v Hu Hv HTu HTv.
      unfold T in HTu, HTv.
      apply andb_prop in HTu as [_ Hux]. apply andb_prop in HTv as [Hxv _].
      apply Z.leb_le in Hux, Hxv.
      assert (HPu : P u) by (apply elem_of_cons in Hu as [->|?]; auto).
      assert (HPv : P v) by (apply elem_of_cons in Hv as [->|?]; auto).
      by apply (trans_on u x v). }
    subst y. f_equal.
    assert (Htail : a ≡ₚ b) by by apply Permutation_cons_inv in Hperm.
    apply IH; try done; [by apply Forall_forall|].
    intros T HT. destruct (T x) eqn:HTx.
    + destruct (existsb (λ z, T z && (SortCompare comparefn z x <=? 0)) a) eqn:Hex.
      * apply existsb_exists in Hex as (z0 & Hz0 & Hz0T).
        apply list_elem_of_In in Hz0.
        apply andb_prop in Hz0T as [HTz0 Hz0x]. apply Z.leb_le in Hz0x.
        specialize (Hst T). cbn [List.filter] in Hst. rewrite HTx in Hst.
        assert (Hgoal : x :: List.filter T a = x :: List.filter T b); [|congruence].
        apply Hst. intros u v Hu Hv HTu HTv.
        apply elem_of_cons in Hu as [Hu|Hu]; apply elem_of_cons in Hv as [Hv|Hv];
          subst.
        -- by apply ordered_refl_on.
        -- by apply Hxa.
        -- apply (trans_on u z0 x); auto. by apply HT.
        -- by apply HT.
      * assert (Hnone : ∀ z, z ∈ a → T z = true → 0 < SortCompare comparefn z x).
        { intros z Hz HTz.
          destruct (Z.lt_ge_cases 0 (SortCompare comparefn z x)) as [|Hle]; [done|].
          assert (Hsome : existsb
                    (λ z, T z && (SortCompare comparefn z x <=? 0)) a = true).
          { apply existsb_exists. exists z. split; [by apply list_elem_of_In|].
            rewrite HTz. simpl. by apply Z.leb_le. }
          congruence. }
        pose (T' := λ z, T z && (0 <? SortCompare comparefn z x)).
        assert (Hsame : ∀ l, (∀ z, z ∈ l → z ∈ a) →
                  List.filter T' l = List.filter T l).
        { intros l Hl. apply List.filter_ext_in. intros z Hz.
          apply list_elem_of_In in Hz. unfold T'.
          destruct (T z) eqn:HTz; [|done]. simpl.
          apply Z.ltb_lt. by apply Hnone; [apply Hl|]. }
        rewrite <- (Hsame a) by done.
        rewrite <- (Hsame b) by (intros z Hz; by rewrite Htail).
        assert (HT'x : T' x = false).
        { unfold T'. rewrite HTx. simpl. apply Z.ltb_ge.
          by apply ordered_refl_on. }
        specialize (Hst T'). cbn [List.filter] in Hst. rewrite HT'x in Hst.
        apply Hst. intros u v Hu Hv HTu HTv. unfold T' in HTu, HTv.
        apply andb_prop in HTu as [HTu Hux], HTv as [HTv Hvx].
        apply Z.ltb_lt in Hux, Hvx.
        pose proof (ordered_refl_on x Hx) as Hr. unfold ordered in Hr.
        apply elem_of_cons in Hu as [->|Hu]; [lia|].
        apply elem_of_cons in Hv as [->|Hv]; [lia|].
        by apply HT.
    + specialize (Hst T). cbn [List.filter] in Hst. rewrite HTx in Hst.
      apply Hst. intros u v Hu Hv HTu HTv.
      apply elem_of_cons in Hu as [->|Hu]; [congruence|].
      apply elem_of_cons in Hv as [->|Hv]; [congruence|].
      by apply HT.
Qed.

(** So the engine has no choice: on elements the comparator is consistent
    on, whatever stable sort it runs returns the list computed here. *)
Lemma stable_sort_unique l out :
  Forall P l → stable_sort_of comparefn l out → out = Array_sort comparefn l.
Proof.
  intros HP (Hperm & Hsorted & Hstable).
  apply stable_sorts_agree; try done.
  - by rewrite Hperm.
  - by rewrite Hperm, Array_sort_Permutation.
  - by apply Array_sort_StronglySorted_on.
  - intros T HT.
    assert (HT' : ∀ x y, x ∈ l → y ∈ l → T x = true → T y = true →
              SortCompare comparefn x y ≤ 0).
    { intros x y Hx Hy. apply HT; by rewrite Hperm. }
    by rewrite (Hstable T HT'), (Array_sort_stable T l HT').
Qed.

End On.

End SortFacts.

Lemma StronglySorted_weaken {A : Type} (R R' : A → A → Prop) l :
  (∀ a b, R a b → R' a b) → StronglySorted R l → StronglySorted R' l.
Proof.
  intros HR. induction 1 as [|x l Hs IH Hall]; constructor; [done|].
  rewrite Forall_forall in Hall. apply Forall_forall. auto.
Qed.

(** Sorting commutes with a relabelling of the elements that the
    comparator cannot see. *)
Lemma insert_sorted_map {A B : Type} (f : A → B)
    (cmpA : A → A → JS.number) (cmpB : B → B → JS.number) x s :
  (∀ x y, JS.SortCompare cmpB (f x) (f y) = JS.SortCompare cmpA x y) →
  JS.insert_sorted cmpB (f x) (f <$> s) = f <$> JS.insert_sorted cmpA x s.
Proof.
  intros Hf. induction s as [|y s IH]; [done|].
  rewrite fmap_cons. cbn [JS.insert_sorted]. rewrite Hf.
  destruct (0 <? JS.SortCompare cmpA x y); rewrite ?fmap_cons; [|done].
  by rewrite IH.
Qed.

Lemma Array_sort_map {A B : Type} (f : A → B)
    (cmpA : A → A → JS.number) (cmpB : B → B → JS.number) l :
  (∀ x y, JS.SortCompare cmpB (f x) (f y) = JS.SortCompare cmpA x y) →
  JS.Array_sort cmpB (f <$> l) = f <$> JS.Array_sort cmpA l.
Proof.
  intros Hf. induction l as [|x l IH]; [done|].
  rewrite fmap_cons. unfold JS.Array_sort in *. cbn [foldr].
  rewrite IH. by apply insert_sorted_map.
Qed.

(** ** Strings *)

Lemma starts_with_spec t s :
  JS.starts_with t s = true ↔ ∃ post, s = t +:+ post.
Proof.
  revert s. induction t as [|a t IH]; intros s; simpl.
  - split; [intros _; by exists s | done].
  - destruct s as [|b s].
    + split; [done | intros [post Hp]; discriminate].
    + destruct (Ascii.eqb_spec a b) as [->|Hne].
      * rewrite IH. split; intros [post Hp]; exists post.
        -- by rewrite Hp.
        -- by injection Hp.
      * split; [done | intros [post Hp]; injection Hp; congruence].
Qed.

(** [includes] decides the substring relation. *)
Lemma includes_spec s t :
  JS.includes s t = true ↔ ∃ pre post, s = pre +:+ t +:+ post.
Proof.
  induction s as [|c s IH]; simpl.
  - rewrite orb_false_r, starts_with_spec. split.
    + intros [post Hp]. by exists EmptyString, post.
    + intros [pre [post Hp]]. destruct pre; [by exists post | discriminate].
  - rewrite orb_true_iff, starts_with_spec, IH. split.
    + intros [[post Hp] | [pre [post Hp]]].
      * by exists EmptyString, post.
      * exists (String c pre), post. simpl. by rewrite Hp.
    + intros [pre [post Hp]]. destruct pre as [|c' pre]; simpl in Hp.
      * left. by exists post.
      * right. exists pre, post. by injection Hp.
Qed.

(** ** The store *)

Section StoreFacts.
Import JS Prowling.

Lemma fresh_unused (h : heap_t) : h !! fresh (dom h) = None.
Proof. apply not_elem_of_dom, is_fresh. Qed.

Lemma contents_lookup (h : heap_t) l a : h !! l = Some a → contents h l = a.
Proof. unfold contents. by intros ->. Qed.

Lemma contents_insert (h : heap_t) l a : contents (<[l := a]> h) l = a.
Proof. unfold contents. by rewrite lookup_insert_eq. Qed.

(** Allocation leaves every array that exists as it is. *)
Lemma lookup_insert_fresh (h : heap_t) a k :
  is_Some (h !! k) → <[fresh (dom h) := a]> h !! k = h !! k.
Proof.
  intros [v Hk]. apply lookup_insert_ne. intros <-.
  rewrite fresh_unused in Hk. discriminate.
Qed.

Lemma contents_insert_fresh (h : heap_t) a k :
  is_Some (h !! k) → contents (<[fresh (dom h) := a]> h) k = contents h k.
Proof. intros Hk. unfold contents. by rewrite lookup_insert_fresh. Qed.

End StoreFacts.

(** ** Search within results *)

Section FilterFacts.
Import JS Prowling Spec.
Context {rt : Runtime}.

Lemma selects_filter {A : Type} (P : A → Prop) (p : A → bool) l :
  (∀ x, p x = true ↔ P x) → selects P l (List.filter p l).
Proof.
  intros Hp. induction l as [|x l IH]; simpl; [constructor|].
  destruct (p x) eqn:Hx.
  - constructor; [by apply Hp | done].
  - constructor; [|done]. rewrite <- Hp. congruence.
Qed.

Lemma selects_functional {A : Type} (P : A → Prop) l m m' :
  selects P l m → selects P l m' → m = m'.
Proof.
  intros H. revert m'.
  induction H as [|x l m Hx H IH|x l m Hx H IH]; intros m' H'.
  - by inversion H'.
  - inversion H' as [|y k n Hy Hn|y k n Hy Hn]; subst; [|done].
    by rewrite (IH _ Hn).
  - inversion H' as [|y k n Hy Hn|y k n Hy Hn]; subst; [done|].
    by apply IH.
Qed.

(** The loop's predicate decides case-insensitive containment. *)
Lemma title_matches_spec query r :
  title_matches (toLowerCase query) r = true ↔
  contains_ci query (SearchResult.title r).
Proof. unfold title_matches, contains_ci. apply includes_spec. Qed.

Lemma filter_is_match_set query full :
  match_set query full (List.filter (title_matches (toLowerCase query)) full).
Proof. apply selects_filter. intros r. apply title_matches_spec. Qed.

Lemma non_blank_truthy query : non_blank query → truthy_string (trim query) = true.
Proof. unfold non_blank. by destruct (trim query). Qed.

(** The "search_results" branch on a query with something in it. *)
Lemma search_results_non_blank query vars st full :
  heap st !! results vars = Some full →
  non_blank query →
  let filtered := fresh (dom (heap st)) in
  let m := List.filter (title_matches (toLowerCase query)) full in
  let st1 := set_heap (<[filtered := m]> (heap st)) st in
  search_results query vars st =
    if (length m =? 0)%nat then
      set_frame
        (Some ({| results := results vars; currentResults := currentResults vars;
                  filteredResults := Some filtered;
                  isFiltered := isFiltered vars |}, no_matches_prompt))
        (console_log no_matches_message st1)
    else
      console_log (found_message (length m))
        (set_frame
           (Some ({| results := results vars; currentResults := filtered;
                     filteredResults := Some filtered;
                     isFiltered := true |}, results_prompt))
           st1).
Proof.
  intros Hfull Hq. unfold search_results, Array_filter, alloc.
  rewrite (non_blank_truthy _ Hq), (contents_lookup _ _ _ Hfull).
  by rewrite contents_insert.
Qed.

End FilterFacts.

Section FilterStep.
Import JS Prowling Spec.
Context {rt : Runtime}.

(** One "search within results" with a query that is not blank: a new
    array receives the matches over the full sequence; it is installed
    when there are matches, and otherwise the no-matches prompt is shown
    with the loop's variables as they were. *)
Lemma search_step st vars full query :
  frame st = Some (vars, results_prompt) →
  heap st !! results vars = Some full →
  non_blank query →
  let m := List.filter (title_matches (toLowerCase query)) full in
  let st' := step st (select_search query) in
  ∃ filtered,
    heap st !! filtered = None ∧
    heap st' = <[filtered := m]> (heap st) ∧
    ((m = [] ∧
      console st' = console st ++ [no_matches_message] ∧
      frame st' =
        Some ({| results := results vars; currentResults := currentResults vars;
                 filteredResults := Some filtered;
                 isFiltered := isFiltered vars |}, no_matches_prompt))
     ∨
     (m ≠ [] ∧
      console st' = console st ++ [found_message (length m)] ∧
      frame st' =
        Some ({| results := results vars; currentResults := filtered;
                 filteredResults := Some filtered;
                 isFiltered := true |}, results_prompt))).
Proof.
  intros Hframe Hfull Hq m st'. exists (fresh (dom (heap st))).
  split; [apply fresh_unused|].
  subst st'. unfold step. rewrite Hframe.
  rewrite (search_results_non_blank _ _ _ _ Hfull Hq). fold m.
  destruct m as [|x m'] eqn:Hm; simpl.
  - split; [done|]. by left.
  - split; [done|]. by right.
Qed.

End FilterStep.



(** C7, as amended. For every non-blank query whose match set over the
    full sequence is empty, the user is told that nothing matched, the
    displayed sequence and the [isFiltered] flag stay as they were (the
    empty match set is not installed), and after the key press the results
    list is shown again.  A blank query is ignored without a message. *)
Theorem empty_match_set_is_reported {rt : Runtime}
    (st : Prowling.state) vars full query :
  Prowling.frame st = Some (vars, Prowling.results_prompt) →
  Prowling.heap st !! Prowling.results vars = Some full →
  Spec.match_set query full [] →
  (Spec.non_blank query →
     Spec.empty_match_reported st
       (Prowling.step st (Prowling.select_search query))) ∧
  (¬ Spec.non_blank query →
     Prowling.step st (Prowling.select_search query) = st).
Proof.
  intros Hframe Hfull Hempty. split.
  - intros Hq.
    destruct (search_step st vars full query Hframe Hfull Hq)
      as (filtered & Hnew & Hheap & Hcase).
    pose proof (selects_functional _ _ _ _ (filter_is_match_set query full) Hempty)
      as Hm.
    destruct Hcase as [(_ & Hconsole & Hf) | (Hne & _)]; [|done].
    split; [done|].
    eexists vars, _. split; [done|]. split; [exact Hf|].
    assert (Hshown : Prowling.displayed
              (Prowling.step st (Prowling.select_search query))
            = Prowling.displayed st).
    { unfold Prowling.displayed. rewrite Hf, Hframe, Hheap. simpl.
      unfold Prowling.contents.
      destruct (decide (filtered = Prowling.currentResults vars)) as [<-|Hd].
      - by rewrite lookup_insert_eq, Hm, Hnew.
      - by rewrite lookup_insert_ne. }
    assert (Henter : Prowling.step
              (Prowling.step st (Prowling.select_search query)) Prowling.press_enter
            = Prowling.set_frame
                (Some ({| Prowling.results := Prowling.results vars;
                          Prowling.currentResults := Prowling.currentResults vars;
                          Prowling.filteredResults := Some filtered;
                          Prowling.isFiltered := Prowling.isFiltered vars |},
                       Prowling.results_prompt))
                (Prowling.step st (Prowling.select_search query))).
    { unfold Prowling.step at 1. by rewrite Hf. }
    repeat split; try done.
    + by rewrite Henter.
    + rewrite Henter, <- Hshown. unfold Prowling.displayed. simpl. by rewrite Hf.
  - intros Hblank. unfold Prowling.step. rewrite Hframe.
    unfold Prowling.search_results, Spec.non_blank in *.
    destruct (trim query); [done|]. exfalso. by apply Hblank.
Qed.

Lemma empty_match_set_is_reported_witness :
  Spec.empty_match_reported (rt := Host.runtime) Sample.listing
    (Prowling.step (rt := Host.runtime) Sample.listing
       (Prowling.select_search "xyz")).
Proof.
  apply (empty_match_set_is_reported (rt := Host.runtime)
           Sample.listing Sample.listing_vars
           [Sample.ubuntu; Sample.debian; Sample.fedora]).
  - reflexivity.
  - reflexivity.
  - apply (filter_is_match_set (rt := Host.runtime) "xyz").
  - unfold Spec.non_blank. vm_compute. discriminate.
Defined.

(** C7, as stated, fails for a blank query: three spaces match no title,
    and the loop ignores the query without telling the user. *)
Lemma blank_query_is_not_reported :
  Prowling.frame Sample.listing
    = Some (Sample.listing_vars, Prowling.results_prompt) ∧
  Prowling.heap Sample.listing !! Prowling.results Sample.listing_vars
    = Some [Sample.ubuntu; Sample.debian; Sample.fedora] ∧
  Spec.match_set (rt := Host.runtime) "   "
    [Sample.ubuntu; Sample.debian; Sample.fedora] [] ∧
  ¬ Spec.empty_match_reported (rt := Host.runtime) Sample.listing
      (Prowling.step (rt := Host.runtime) Sample.listing
         (Prowling.select_search "   ")).
Proof.
  split; [reflexivity|]. split; [reflexivity|]. split.
  - apply (filter_is_match_set (rt := Host.runtime) "   ").
  - intros [Hconsole _]. vm_compute in Hconsole. discriminate.
Qed.

(** ** The comparators *)

Section ComparatorFacts.
Import JS Prowling Spec.
Context {rt : Runtime} {laws : RuntimeLaws rt}.

(** Every comparator of the sort prompt is antisymmetric in sign. *)
Lemma compareBy_antisymmetric this sortBy :
  antisymmetric (compareBy this sortBy).
Proof.
  intros x y. unfold SortCompare, compareBy.
  destruct sortBy;
    try (intros Hxy; apply Z.lt_le_incl, localeCompare_antisym, Hxy);
    try lia.
  - destruct (Date_of _), (Date_of _); simpl; lia.
  - destruct (Date_of _), (Date_of _); simpl; lia.
  - destruct (is_usenet x), (is_usenet y); simpl; lia.
Qed.

(** On results whose dates parse, "may stand before" is transitive. *)
Lemma compareBy_transitive this sortBy x y z :
  comparable sortBy x → comparable sortBy y → comparable sortBy z →
  ordered (compareBy this sortBy) x y →
  ordered (compareBy this sortBy) y z →
  ordered (compareBy this sortBy) x z.
Proof.
  unfold ordered, SortCompare, compareBy, comparable.
  destruct sortBy; intros Hx Hy Hz; try lia.
  - apply localeCompare_trans.
  - intros Hxy Hyz. by apply (localeCompare_trans _ _ _ Hyz).
  - destruct (Date_of (SearchResult.publishDate x)),
      (Date_of (SearchResult.publishDate y)),
      (Date_of (SearchResult.publishDate z)); simpl; try done; lia.
  - destruct (Date_of (SearchResult.publishDate x)),
      (Date_of (SearchResult.publishDate y)),
      (Date_of (SearchResult.publishDate z)); simpl; try done; lia.
  - destruct (is_usenet x), (is_usenet y), (is_usenet z); simpl; lia.
Qed.

Lemma Array_sort_compareBy_StronglySorted this sortBy l :
  Forall (comparable sortBy) l →
  StronglySorted (ordered (compareBy this sortBy))
    (Array_sort (compareBy this sortBy) l).
Proof.
  apply Array_sort_StronglySorted_on.
  - intros x y _ _. apply compareBy_antisymmetric.
  - apply compareBy_transitive.
Qed.

(** Sorting by any key a second time moves nothing. *)
Lemma Array_sort_compareBy_idempotent this sortBy l :
  Array_sort (compareBy this sortBy) (Array_sort (compareBy this sortBy) l)
  = Array_sort (compareBy this sortBy) l.
Proof. apply Array_sort_idempotent, compareBy_antisymmetric. Qed.

(** Whatever stable sort the engine runs, on results whose dates parse it
    returns the list the model computes. *)
Lemma engine_sort_is_Array_sort this sortBy l out :
  Forall (comparable sortBy) l →
  stable_sort_of (compareBy this sortBy) l out →
  out = Array_sort (compareBy this sortBy) l.
Proof.
  apply (stable_sort_unique (compareBy this sortBy) (comparable sortBy)).
  - intros x y _ _. apply compareBy_antisymmetric.
  - apply compareBy_transitive.
Qed.

End ComparatorFacts.

Section SortStep.
Import JS Prowling Spec.
Context {rt : Runtime}.

(** One "sort results": a new array receives the displayed elements and is
    sorted; the loop then displays it. *)
Lemma sort_step st vars sortBy :
  frame st = Some (vars, results_prompt) →
  let copy := fresh (dom (heap st)) in
  step st (select_sort sortBy) =
    set_frame
      (Some ({| results := results vars; currentResults := copy;
                filteredResults := filteredResults vars;
                isFiltered := isFiltered vars |}, results_prompt))
      (set_heap
         (<[copy := Array_sort (compareBy (this st) sortBy) (displayed st)]>
            (heap st)) st).
Proof.
  intros Hframe copy. unfold step, displayed. rewrite Hframe.
  unfold sort_results, spread, alloc, sort_in_place. fold copy.
  by rewrite contents_insert, insert_insert_eq.
Qed.

Lemma displayed_sort_step st vars sortBy :
  frame st = Some (vars, results_prompt) →
  displayed (step st (select_sort sortBy))
  = Array_sort (compareBy (this st) sortBy) (displayed st).
Proof.
  intros Hframe. rewrite (sort_step _ _ _ Hframe).
  unfold displayed at 1. simpl. apply contents_insert.
Qed.

End SortStep.

(** C2, amended.  For every displayed sequence and every sort key,
    sorting yields a new array that is a permutation of the displayed
    sequence, and no array that existed before is changed; in particular
    the input keeps its elements in their order.  Wherever the comparator
    can place all the elements (for the date keys: every publish date is
    missing or parses; for the other keys: always), the new array is in
    the order of that key's comparator, each element standing before
    every later one. *)
Theorem sort_returns_sorted_copy {rt : Runtime} {laws : RuntimeLaws rt}
    (st : Prowling.state) vars sortBy :
  Prowling.frame st = Some (vars, Prowling.results_prompt) →
  let st' := Prowling.step st (Prowling.select_sort sortBy) in
  let comparefn := Prowling.compareBy (Prowling.this st) sortBy in
  Prowling.displayed st' ≡ₚ Prowling.displayed st ∧
  (Forall (Spec.comparable sortBy) (Prowling.displayed st) →
     StronglySorted (JS.ordered comparefn) (Prowling.displayed st')) ∧
  (∃ vars',
     Prowling.frame st' = Some (vars', Prowling.results_prompt) ∧
     Prowling.heap st !! Prowling.currentResults vars' = None) ∧
  (∀ l, is_Some (Prowling.heap st !! l) →
     Prowling.heap st' !! l = Prowling.heap st !! l).
Proof.
  intros Hframe st' comparefn. subst st'.
  rewrite (displayed_sort_step _ _ _ Hframe). fold comparefn.
  split; [apply Array_sort_Permutation|].
  split; [apply Array_sort_compareBy_StronglySorted|].
  rewrite (sort_step _ _ _ Hframe). simpl. split.
  - eexists. split; [done|]. simpl. apply fresh_unused.
  - intros l Hl. by apply lookup_insert_fresh.
Qed.

(** C4. Sorting by a key and then by the same key again leaves the
    sequence as the first sort produced it, for the title, seeders, size
    and date keys.  For the protocol key the sorted sequence has the
    usenet entries before all others, and for the indexer-priority keys it
    runs by priority. *)
Theorem sorting_twice_is_sorting_once {rt : Runtime} {laws : RuntimeLaws rt}
    (st : Prowling.state) vars sortBy :
  Prowling.frame st = Some (vars, Prowling.results_prompt) →
  let once := Prowling.step st (Prowling.select_sort sortBy) in
  let twice := Prowling.step once (Prowling.select_sort sortBy) in
  (Spec.total_key sortBy = true →
     Prowling.displayed twice = Prowling.displayed once) ∧
  (sortBy = SortBy.protocol → Spec.usenet_first (Prowling.displayed once)) ∧
  (sortBy = SortBy.indexer_priority_desc →
     Spec.by_priority (Prowling.this st) true (Prowling.displayed once)) ∧
  (sortBy = SortBy.indexer_priority_asc →
     Spec.by_priority (Prowling.this st) false (Prowling.displayed once)).
Proof.
  intros Hframe once twice.
  assert (Honce : Prowling.displayed once
            = JS.Array_sort (Prowling.compareBy (Prowling.this st) sortBy)
                (Prowling.displayed st))
    by apply (displayed_sort_step _ _ _ Hframe).
  assert (Hstrong : sortBy ≠ SortBy.date_desc → sortBy ≠ SortBy.date_asc →
            StronglySorted
              (JS.ordered (Prowling.compareBy (Prowling.this st) sortBy))
              (Prowling.displayed once)).
  { intros Hd Ha. rewrite Honce. apply Array_sort_compareBy_StronglySorted.
    apply Forall_forall. intros r _. by destruct sortBy. }
  split; [|split; [|split]].
  - intros _.
    assert (Hthis : Prowling.this once = Prowling.this st)
      by (subst once; by rewrite (sort_step _ _ _ Hframe)).
    assert (Hf : ∃ vars1, Prowling.frame once
                            = Some (vars1, Prowling.results_prompt))
      by (subst once; rewrite (sort_step _ _ _ Hframe); by eexists).
    destruct Hf as [vars1 Hf]. subst twice.
    rewrite (displayed_sort_step _ _ _ Hf), Hthis, Honce.
    apply Array_sort_compareBy_idempotent.
  - intros ->. eapply StronglySorted_weaken; [|by apply Hstrong].
    intros a b. unfold JS.ordered, JS.SortCompare, Prowling.compareBy.
    destruct (Prowling.is_usenet a), (Prowling.is_usenet b); simpl; auto; lia.
  - intros ->. eapply StronglySorted_weaken; [|by apply Hstrong].
    intros a b. unfold JS.ordered, JS.SortCompare, Prowling.compareBy. lia.
  - intros ->. eapply StronglySorted_weaken; [|by apply Hstrong].
    intros a b. unfold JS.ordered, JS.SortCompare, Prowling.compareBy. lia.
Qed.

(** ** The reference host is lawful *)

Lemma compare_not_after_trans a b c :
  String.compare a b ≠ Gt → String.compare b c ≠ Gt → String.compare a c ≠ Gt.
Proof.
  revert b c. induction a as [|x a IH]; intros [|y b] [|z c]; simpl; try done.
  unfold Ascii.compare.
  destruct (N.compare_spec (N_of_ascii x) (N_of_ascii y)),
    (N.compare_spec (N_of_ascii y) (N_of_ascii z)),
    (N.compare_spec (N_of_ascii x) (N_of_ascii z));
    try done; try lia.
  apply IH.
Qed.

Lemma host_laws : RuntimeLaws Host.runtime.
Proof.
  split; simpl; unfold Host.code_unit_compare.
  - intros a b. rewrite (String.compare_antisym a b).
    destruct (String.compare b a); simpl; lia.
  - intros a b c Hab Hbc.
    pose proof (compare_not_after_trans a b c) as Htrans.
    destruct (String.compare a b), (String.compare b c), (String.compare a c);
      try lia; exfalso; by apply Htrans.
Qed.

Lemma sort_returns_sorted_copy_witness :
  let st := Sample.listing in
  let st' := Prowling.step (rt := Host.runtime) st
               (Prowling.select_sort SortBy.seeders_desc) in
  let comparefn :=
    Prowling.compareBy (rt := Host.runtime) (Prowling.this st) SortBy.seeders_desc in
  Prowling.displayed st' ≡ₚ Prowling.displayed st ∧
  StronglySorted (JS.ordered comparefn) (Prowling.displayed st') ∧
  (∃ vars',
     Prowling.frame st' = Some (vars', Prowling.results_prompt) ∧
     Prowling.heap st !! Prowling.currentResults vars' = None) ∧
  (∀ l, is_Some (Prowling.heap st !! l) →
     Prowling.heap st' !! l = Prowling.heap st !! l).
Proof.
  intros st st' comparefn.
  destruct (sort_returns_sorted_copy (laws := host_laws)
              Sample.listing Sample.listing_vars SortBy.seeders_desc eq_refl)
    as (Hperm & Hsorted & Hfresh & Hkept).
  split; [exact Hperm|]. split; [|split; [exact Hfresh|exact Hkept]].
  apply Hsorted. apply Forall_forall. intros r _. exact I.
Defined.

(** C2, as stated, fails where a publish date does not parse.  Sorting
    [Ubuntu (2022); Fedora (not a date); Debian (no date)] by "Date
    (Oldest First)" leaves the three as they are: the unparseable date
    ties with both neighbours, so the result of 2022 stays before the one
    without a date, which the comparator places at 1970. *)
Lemma unparseable_date_leaves_dates_out_of_order :
  let st := Prowling.enter_results
              [Sample.ubuntu; Sample.fedora; Sample.debian] Sample.start in
  let st' := Prowling.step (rt := Host.runtime) st
               (Prowling.select_sort SortBy.date_asc) in
  let comparefn :=
    Prowling.compareBy (rt := Host.runtime) (Prowling.this st) SortBy.date_asc in
  Prowling.frame st = Some (Sample.listing_vars, Prowling.results_prompt) ∧
  Prowling.displayed st' = [Sample.ubuntu; Sample.fedora; Sample.debian] ∧
  0 < JS.SortCompare comparefn Sample.ubuntu Sample.debian ∧
  ¬ StronglySorted (JS.ordered comparefn) (Prowling.displayed st').
Proof.
  intros st st' comparefn.
  assert (Hshown : Prowling.displayed st'
                   = [Sample.ubuntu; Sample.fedora; Sample.debian])
    by (vm_compute; reflexivity).
  assert (Hlate : 0 < JS.SortCompare comparefn Sample.ubuntu Sample.debian)
    by (vm_compute; reflexivity).
  split; [reflexivity|]. split; [exact Hshown|]. split; [exact Hlate|].
  rewrite Hshown. intros Hsorted.
  apply StronglySorted_inv in Hsorted as [_ Hall].
  rewrite Forall_forall in Hall.
  assert (Hle : JS.ordered comparefn Sample.ubuntu Sample.debian)
    by (apply Hall; right; left; reflexivity).
  unfold JS.ordered in Hle. lia.
Qed.

Lemma sorting_twice_is_sorting_once_witness :
  let once := Prowling.step (rt := Host.runtime) Sample.listing
                (Prowling.select_sort SortBy.size_asc) in
  let twice := Prowling.step (rt := Host.runtime) once
                 (Prowling.select_sort SortBy.size_asc) in
  Prowling.displayed twice = Prowling.displayed once.
Proof.
  apply (sorting_twice_is_sorting_once (laws := host_laws)
           Sample.listing Sample.listing_vars SortBy.size_asc);
    reflexivity.
Defined.

(** The scenario of the specification: seeders 5, missing and 20 come out
    as 20, 5, missing. *)
Example seeders_desc_scenario :
  Prowling.displayed
    (Prowling.step (rt := Host.runtime) Sample.listing
       (Prowling.select_sort SortBy.seeders_desc))
  = [Sample.fedora; Sample.ubuntu; Sample.debian].
Proof. reflexivity. Qed.

(** C3. Under the seeders and size keys a result whose field is missing
    or [null] is compared exactly as the same result with an explicit 0:
    the comparator always returns a number, and writing the zeros out, in
    any of the results, leaves every result at the position it had. *)
Theorem missing_numbers_sort_as_zero {rt : Runtime}
    (this : Prowling.client) sortBy :
  Spec.numeric_key sortBy = true →
  (∀ a b,
     (∃ v, Prowling.compareBy this sortBy a b = JS.Num v) ∧
     Prowling.compareBy this sortBy (Spec.zero_fill a) b
       = Prowling.compareBy this sortBy a b ∧
     Prowling.compareBy this sortBy a (Spec.zero_fill b)
       = Prowling.compareBy this sortBy a b) ∧
  (∀ (f : SearchResult.t → SearchResult.t) l,
     (∀ r, f r = r ∨ f r = Spec.zero_fill r) →
     JS.Array_sort (Prowling.compareBy this sortBy) (f <$> l)
       = f <$> JS.Array_sort (Prowling.compareBy this sortBy) l).
Proof.
  intros Hkey.
  assert (Hcmp : ∀ a b,
            Prowling.compareBy this sortBy (Spec.zero_fill a) b
              = Prowling.compareBy this sortBy a b ∧
            Prowling.compareBy this sortBy a (Spec.zero_fill b)
              = Prowling.compareBy this sortBy a b).
  { intros a b. destruct a, b. by destruct sortBy. }
  split.
  - intros a b. split; [|apply Hcmp].
    destruct sortBy; try done; by eexists.
  - intros f l Hf. apply Array_sort_map. intros x y. unfold JS.SortCompare.
    destruct (Hf x) as [-> | ->], (Hf y) as [-> | ->];
      by rewrite ?(proj1 (Hcmp _ _)), ?(proj2 (Hcmp _ _)).
Qed.

Lemma missing_numbers_sort_as_zero_witness :
  JS.Array_sort
    (Prowling.compareBy (rt := Host.runtime) Prowling.constructor
       SortBy.seeders_desc)
    (Spec.zero_fill <$> [Sample.ubuntu; Sample.debian; Sample.fedora])
  = Spec.zero_fill <$>
      JS.Array_sort
        (Prowling.compareBy (rt := Host.runtime) Prowling.constructor
           SortBy.seeders_desc)
        [Sample.ubuntu; Sample.debian; Sample.fedora].
Proof.
  apply (missing_numbers_sort_as_zero (rt := Host.runtime) Prowling.constructor
           SortBy.seeders_desc).
  - reflexivity.
  - intros r. by right.
Defined.

(** C5, as amended. The date keys compare the parsed publish timestamps,
    and a result whose publish date is missing (absent, [null] or empty)
    is compared as if its timestamp were epoch 0.  A date that does not
    parse gives no timestamp: the comparison is [NaN], which the sort
    reads as a tie with every other result. *)
Theorem date_keys_compare_timestamps {rt : Runtime}
    (this : Prowling.client) (a b : SearchResult.t) :
  (Spec.comparable SortBy.date_asc a → Spec.comparable SortBy.date_asc b →
     Spec.compares_timestamps this a b) ∧
  (∀ s, SearchResult.publishDate a = JS.val s → s ≠ EmptyString →
     Prowling.Date_of (SearchResult.publishDate a) = Date_parse s) ∧
  (Spec.no_date a → Spec.timestamp_or_epoch a = 0 ∧ Spec.comparable SortBy.date_asc a) ∧
  (¬ Spec.comparable SortBy.date_asc a → Spec.date_tie this a b).
Proof.
  split; [|split; [|split]].
  - unfold Spec.comparable, Spec.compares_timestamps, Spec.timestamp_or_epoch,
      JS.SortCompare, Prowling.compareBy.
    intros Ha Hb.
    destruct (Prowling.Date_of (SearchResult.publishDate a)),
      (Prowling.Date_of (SearchResult.publishDate b)); done.
  - intros s -> Hs. simpl. by destruct s.
  - unfold Spec.no_date, Spec.timestamp_or_epoch, Spec.comparable.
    destruct (SearchResult.publishDate a) as [| |s]; simpl; try done.
    by intros ->.
  - unfold Spec.comparable. intros Hnan sortBy Hkey.
    assert (Ha : Prowling.Date_of (SearchResult.publishDate a) = JS.NaN).
    { destruct (Prowling.Date_of (SearchResult.publishDate a)); [done|].
      exfalso. by apply Hnan. }
    unfold JS.SortCompare, Prowling.compareBy.
    destruct Hkey as [-> | ->]; rewrite Ha;
      by destruct (Prowling.Date_of (SearchResult.publishDate b)).
Qed.

Lemma date_keys_compare_timestamps_witness :
  Spec.compares_timestamps (rt := Host.runtime) Prowling.constructor
    Sample.debian Sample.ubuntu ∧
  Spec.timestamp_or_epoch (rt := Host.runtime) Sample.debian = 0 ∧
  Spec.date_tie (rt := Host.runtime) Prowling.constructor
    Sample.fedora Sample.ubuntu.
Proof.
  pose proof (date_keys_compare_timestamps (rt := Host.runtime)
                Prowling.constructor Sample.debian Sample.ubuntu)
    as (Hcmp & _ & Hmissing & _).
  pose proof (date_keys_compare_timestamps (rt := Host.runtime)
                Prowling.constructor Sample.fedora Sample.ubuntu)
    as (_ & _ & _ & Htie).
  split; [|split].
  - apply Hcmp; vm_compute; discriminate.
  - apply Hmissing. exact I.
  - apply Htie. vm_compute. intros Hp. by apply Hp.
Defined.

(** C5, as stated, fails on a date that does not parse: it is a tie with
    a result published in 2022, not 52 years before it. *)
Lemma unparseable_date_is_not_epoch :
  ¬ Spec.compares_timestamps (rt := Host.runtime) Prowling.constructor
      Sample.fedora Sample.ubuntu.
Proof. intros [Hasc _]. vm_compute in Hasc. discriminate. Qed.

(** ** The invariant of the results list *)

Section Invariant.
Import JS Prowling Spec.
Context {rt : Runtime}.
Variable r : loc.
Variable full : list SearchResult.t.

Lemma filter_submseteq {A : Type} (p : A → bool) (l : list A) :
  List.filter p l ⊆+ l.
Proof.
  induction l as [|x l IH]; simpl; [done|].
  destruct (p x); [by apply submseteq_skip | by apply submseteq_cons].
Qed.

(** A step that keeps the store and the loop's variables keeps the
    invariant. *)
Lemma retains_same_arrays st st' vars p p' :
  heap st' = heap st →
  frame st = Some (vars, p) → frame st' = Some (vars, p') →
  retains r full st → retains r full st'.
Proof.
  unfold retains, displayed. intros -> -> ->. done.
Qed.

Lemma retains_left st st' :
  heap st' = heap st → frame st' = None →
  retains r full st → retains r full st'.
Proof.
  unfold retains, displayed. intros -> -> (Hr & _ & _).
  split; [done|]. split; [apply submseteq_nil_l | done].
Qed.

Lemma sort_retains st vars sortBy :
  frame st = Some (vars, results_prompt) →
  retains r full st → retains r full (step st (select_sort sortBy)).
Proof.
  intros Hframe (Hr & Hd & Hv). rewrite Hframe in Hv.
  unfold retains. rewrite (displayed_sort_step _ _ _ Hframe).
  rewrite (sort_step _ _ _ Hframe). simpl.
  split; [by rewrite lookup_insert_fresh|].
  split; [by rewrite Array_sort_Permutation | done].
Qed.

Lemma search_retains st vars query :
  frame st = Some (vars, results_prompt) →
  retains r full st → retains r full (step st (select_search query)).
Proof.
  intros Hframe (Hr & Hd & Hv). pose proof Hv as Hv'. rewrite Hframe in Hv'.
  destruct (truthy_string (trim query)) eqn:Hq.
  - assert (Hnb : non_blank query).
    { unfold non_blank. intros Hb. rewrite Hb in Hq. discriminate. }
    assert (Hfull : heap st !! results vars = Some full) by by rewrite Hv'.
    destruct (search_step st vars full query Hframe Hfull Hnb)
      as (filtered & Hnew & Hheap & Hcase).
    assert (Hr' : heap (step st (select_search query)) !! r = Some full).
    { rewrite Hheap, lookup_insert_ne; [done|]. intros Heq. congruence. }
    unfold retains, displayed.
    destruct Hcase as [(Hm & _ & Hf) | (_ & _ & Hf)]; rewrite Hf, Hheap; simpl.
    + split; [by rewrite <- Hheap|]. split; [|done].
      unfold displayed in Hd. rewrite Hframe in Hd. unfold contents in *.
      destruct (decide (filtered = currentResults vars)) as [<-|Hne].
      * rewrite lookup_insert_eq. simpl. apply filter_submseteq.
      * by rewrite lookup_insert_ne.
    + split; [by rewrite <- Hheap|]. split; [|done].
      rewrite contents_insert. apply filter_submseteq.
  - unfold step. rewrite Hframe. unfold search_results. by rewrite Hq.
Qed.

Lemma show_all_retains st vars :
  frame st = Some (vars, results_prompt) →
  retains r full st →
  retains r full (step st select_show_all) ∧
  displayed (step st select_show_all) = full.
Proof.
  intros Hframe (Hr & Hd & Hv). rewrite Hframe in Hv.
  unfold step. rewrite Hframe.
  assert (Hshown : displayed (show_all vars st) = full).
  { unfold displayed. simpl. rewrite Hv. by apply contents_lookup. }
  split; [|done]. unfold retains. rewrite Hshown. by simpl.
Qed.

(** Every answer of the user keeps the invariant. *)
Lemma step_retains st i : retains r full st → retains r full (step st i).
Proof.
  intros Hinv. destruct (frame st) as [[vars p]|] eqn:Hframe.
  - destruct p as [| |selected].
    + destruct i as [sortBy|query| | |selected| |a].
      * by apply (sort_retains _ vars).
      * by apply (search_retains _ vars).
      * by apply (show_all_retains _ vars).
      * unfold step. rewrite Hframe. by apply (retains_left st).
      * unfold step. rewrite Hframe.
        by apply (retains_same_arrays st _ vars results_prompt (detail_prompt selected)).
      * unfold step. by rewrite Hframe.
      * unfold step. by rewrite Hframe.
    + unfold step. rewrite Hframe. destruct i; try done.
      by apply (retains_same_arrays st _ vars no_matches_prompt results_prompt).
    + unfold step. rewrite Hframe. destruct i as [| | | | | |a]; try done.
      destruct a; simpl;
        first [ by apply (retains_same_arrays st _ vars
                            (detail_prompt selected) results_prompt)
              | by apply (retains_same_arrays st _ vars
                            (detail_prompt selected) (detail_prompt selected)) ].
  - unfold step. by rewrite Hframe.
Qed.

Lemma run_retains st inputs : retains r full st → retains r full (run st inputs).
Proof.
  revert st. induction inputs as [|i inputs IH]; intros st Hinv; [done|].
  simpl. apply IH. by apply step_retains.
Qed.

End Invariant.

(** Entering the results list establishes the invariant. *)
Lemma enter_results_retains (st0 : Prowling.state) found :
  Spec.retains (fresh (dom (Prowling.heap st0))) found
    (Prowling.enter_results found st0).
Proof.
  unfold Spec.retains, Prowling.displayed, Prowling.enter_results, Prowling.alloc.
  destruct found as [|x found]; simpl.
  - by rewrite lookup_insert_eq.
  - by rewrite contents_insert, lookup_insert_eq.
Qed.

Section Recovery.
Import JS Prowling Spec.
Context {rt : Runtime}.

(** Whatever is displayed, a query is matched against the full sequence. *)
Lemma search_returns_match_set st vars full query :
  frame st = Some (vars, results_prompt) →
  heap st !! results vars = Some full →
  non_blank query →
  ∃ m, match_set query full m ∧ returned (step st (select_search query)) m.
Proof.
  intros Hframe Hfull Hq.
  destruct (search_step st vars full query Hframe Hfull Hq)
    as (filtered & _ & Hheap & Hcase).
  eexists. split; [apply filter_is_match_set|].
  destruct Hcase as [(_ & _ & Hf) | (_ & _ & Hf)];
    eexists _, _, filtered; rewrite Hf, Hheap;
    (split; [done|]); (split; [done|]); apply lookup_insert_eq.
Qed.

End Recovery.

(** C6. Through every sequence of answers in the results list (sort,
    filter, show all, opening an item and coming back, leaving), the full
    result sequence of the search stays in the store unmodified and the
    displayed sequence is a permutation of a part of it; so at the results
    prompt "show all" displays the full sequence again, and a filter is
    computed from it. *)
Theorem results_list_retains_full_sequence {rt : Runtime}
    (st0 : Prowling.state) found inputs :
  let r := fresh (dom (Prowling.heap st0)) in
  let st := Prowling.run (Prowling.enter_results found st0) inputs in
  Prowling.heap st !! r = Some found ∧
  Prowling.displayed st ⊆+ found ∧
  (∀ vars, Prowling.frame st = Some (vars, Prowling.results_prompt) →
     Prowling.results vars = r ∧
     Prowling.displayed (Prowling.step st Prowling.select_show_all) = found ∧
     ∀ query, Spec.non_blank query →
       ∃ m, Spec.match_set query found m ∧
            Spec.returned (Prowling.step st (Prowling.select_search query)) m).
Proof.
  intros r st.
  assert (Hinv : Spec.retains r found st)
    by apply run_retains, enter_results_retains.
  destruct Hinv as (Hr & Hd & Hv).
  split; [done|]. split; [done|].
  intros vars Hframe. rewrite Hframe in Hv. split; [done|]. split.
  - apply (show_all_retains r found st vars Hframe). unfold Spec.retains.
    by rewrite Hframe.
  - intros query Hq. apply (search_returns_match_set st vars); try done.
    by rewrite Hv.
Qed.

Lemma results_list_retains_full_sequence_witness :
  let st := Prowling.run (rt := Host.runtime) Sample.listing
              [Prowling.select_search "u";
               Prowling.select_sort SortBy.size_desc;
               Prowling.select_item Sample.ubuntu;
               Prowling.action Prowling.back] in
  Prowling.heap st !! 0%nat = Some [Sample.ubuntu; Sample.debian; Sample.fedora] ∧
  Prowling.displayed st ⊆+ [Sample.ubuntu; Sample.debian; Sample.fedora].
Proof.
  pose proof (results_list_retains_full_sequence (rt := Host.runtime)
                Sample.start [Sample.ubuntu; Sample.debian; Sample.fedora]
                [Prowling.select_search "u";
                 Prowling.select_sort SortBy.size_desc;
                 Prowling.select_item Sample.ubuntu;
                 Prowling.action Prowling.back])
    as (Hfull & Hshown & _).
  split; [exact Hfull | exact Hshown].
Defined.

(** The scenario of the specification: after filtering by "ubu", a filter
    by "xyz" still looks at the whole result set, finds nothing, and
    leaves the first filter's view in place. *)
Example filter_again_scenario :
  let st := Prowling.run (rt := Host.runtime) Sample.listing
              [Prowling.select_search "ubu"; Prowling.select_search "xyz";
               Prowling.press_enter] in
  Prowling.displayed st = [Sample.ubuntu] ∧
  Prowling.console st
    = [Prowling.found_message 1; Prowling.no_matches_message].
Proof. split; reflexivity. Qed.

(** ** Configuration *)

(** C8. When the configuration file does not exist, or exists and does
    not parse, [loadConfig] returns normally with the fallback object and
    leaves the client as it was (after a warning, if the file was there);
    on a client fresh from its constructor the fallback carries the
    documented default settings.  The original [index.js] behaves alike
    with its two-field fallback. *)
Theorem loadConfig_falls_back_without_throwing
    (r : Prowling.config_read) (st : Prowling.state) :
  Spec.missing_or_malformed r →
  let after :=
    if Prowling.existsSync r then Prowling.console_log Prowling.load_warning st
    else st in
  Prowling.loadConfig r st
    = (JS.Normal (Prowling.fallback_config (Prowling.this st)), after) ∧
  IndexJs.loadConfig r st = (JS.Normal IndexJs.fallback_config, after) ∧
  Prowling.this after = Prowling.this st ∧
  (Prowling.this st = Prowling.constructor →
     ∀ key value, (key, value) ∈ Spec.documented_settings →
       Spec.settings_of (Prowling.fallback_config (Prowling.this st)) !! key
         = Some value).
Proof.
  intros [-> | [text ->]]; simpl.
  - repeat split; try done.
    intros -> key value Hin. unfold Spec.documented_settings in Hin.
    repeat (apply elem_of_cons in Hin as [[= -> ->] | Hin]; [by vm_compute|]).
    by apply elem_of_nil in Hin.
  - repeat split; try done.
    intros -> key value Hin. unfold Spec.documented_settings in Hin.
    repeat (apply elem_of_cons in Hin as [[= -> ->] | Hin]; [by vm_compute|]).
    by apply elem_of_nil in Hin.
Qed.

Lemma loadConfig_falls_back_without_throwing_witness :
  Prowling.loadConfig (Prowling.parse_throws "{ not json") Sample.start
  = (JS.Normal (Prowling.fallback_config Prowling.constructor),
     Prowling.console_log Prowling.load_warning Sample.start).
Proof.
  apply (loadConfig_falls_back_without_throwing
           (Prowling.parse_throws "{ not json") Sample.start).
  right. by eexists.
Defined.

(** A file holding the JSON text [null] parses, and reading its [theme]
    throws: the fallback is returned all the same. *)
Lemma loadConfig_null st :
  Prowling.loadConfig (Prowling.parse_returns "null" JS.JNull) st
  = (JS.Normal (Prowling.fallback_config (Prowling.this st)),
     Prowling.console_log Prowling.load_warning st).
Proof. reflexivity. Qed.

(** A file that parses to an object is returned as it is, and its
    settings are laid over the client's. *)
Lemma loadConfig_settings st (config saved : gmap string JS.json) :
  config !! "theme" = None →
  config !! "settings" = Some (JS.JObj saved) →
  ∃ st',
    Prowling.loadConfig (Prowling.parse_returns "" (JS.JObj config)) st
      = (JS.Normal (JS.JObj config), st') ∧
    Prowling.settings (Prowling.this st')
      = saved ∪ Prowling.settings (Prowling.this st) ∧
    Prowling.theme (Prowling.this st') = Prowling.theme (Prowling.this st).
Proof.
  intros Htheme Hsettings. eexists.
  unfold Prowling.loadConfig, mbind, Prowling.M_bind, Prowling.try_catch,
    Prowling.lift. simpl. rewrite Htheme, Hsettings. simpl.
  split; [reflexivity|]. by simpl.
Qed.

(** ** Query string *)

Section SerializerFacts.
Import JS Prowling Spec.

Lemma push_each (g : prim → string) vs parts :
  fold_left (λ parts v, parts ++ [g v]) vs parts = parts ++ (g <$> vs).
Proof.
  revert parts. induction vs as [|v vs IH]; intros parts; simpl.
  - by rewrite app_nil_r.
  - rewrite IH. by rewrite <- app_assoc.
Qed.

Lemma push_all params parts :
  fold_left
    (λ (parts : list string) '(key, value),
       match value with
       | array vs =>
           fold_left (λ parts v, parts ++ [key +:+ "=" +:+ ToString v]) vs parts
       | scalar v => parts ++ [key +:+ "=" +:+ encodeURIComponent (ToString v)]
       end) params parts
  = parts ++ (params ≫= pairs_of).
Proof.
  revert parts. induction params as [|[key value] params IH]; intros parts.
  - simpl. by rewrite app_nil_r.
  - cbn [fold_left]. rewrite IH, bind_cons, app_assoc. f_equal. f_equal.
    unfold pairs_of. simpl. destruct value as [v|vs]; [done|].
    apply (push_each (λ v, key +:+ "=" +:+ ToString v)).
Qed.

End SerializerFacts.

(** C9. The serializer writes one [key=value] pair per element of an
    array-valued parameter, the key bare and the element as it prints; one
    [key=value] pair with the value URI-encoded for a scalar parameter;
    and joins all pairs, in the order of the parameters, with [&]. *)
Theorem paramsSerializer_repeats_array_keys
    (params : list (string * Prowling.param)) :
  Prowling.paramsSerializer params = Spec.query_string params.
Proof.
  unfold Prowling.paramsSerializer, Spec.query_string.
  by rewrite push_all.
Qed.

Example search_query_string :
  Prowling.paramsSerializer
    (Prowling.searchParams
       {| Prowling.baseUrl := "http://localhost:9696";
          Prowling.indexers :=
            [ {| Indexer.id := 3; Indexer.name := "A"; Indexer.priority := JS.val 25 |};
              {| Indexer.id := 7; Indexer.name := "B"; Indexer.priority := JS.null |} ];
          Prowling.currentMenuLevel := "main"; Prowling.qbittorrentUrl := "";
          Prowling.theme := Prowling.default_theme;
          Prowling.settings := Prowling.default_settings |}
       "ubuntu 22.04 & more" (Prowling.categories [6000; 100051]))
  = "query=ubuntu%2022.04%20%26%20more&type=search&categories=6000&categories=100051&indexerIds=3&indexerIds=7".
Proof. reflexivity. Qed.

(** ** Size column *)

Section SizeFacts.
Import JS Prowling.

(** Every falsy size, an exact 0 included, reads "Unknown". *)
Lemma formatSize_falsy bytes : falsy bytes = true → formatSize bytes = "Unknown".
Proof. unfold formatSize. by intros ->. Qed.

Lemma formatSize_zero_is_unknown :
  formatSize (val 0) = "Unknown" ∧
  formatSize (val 0) = formatSize undefined ∧
  formatSize (val 0) = formatSize null.
Proof. by repeat split. Qed.

Lemma formatSize_positive b :
  0 < b →
  formatSize (val b)
  = toFixed2 b (1024 ^ (Z.log2 b / 10)) +:+ " " +:+
    default "undefined" (sizes !! Z.to_nat (Z.log2 b / 10)).
Proof.
  intros Hb. unfold formatSize. simpl.
  destruct (Z.eqb_spec b 0) as [->|_]; [lia|].
  destruct (Z.ltb_spec b 0); [lia | done].
Qed.

(** Below 1023 * 1024^4 (1023 TB) the unit is one of the table, picked by
    the power of 1024 the size has reached. *)
Lemma formatSize_in_table b :
  0 < b < 1023 * 1024 ^ 4 →
  ∃ i unit,
    sizes !! Z.to_nat i = Some unit ∧
    1024 ^ i ≤ b < 1024 ^ (i + 1) ∧
    formatSize (val b) = toFixed2 b (1024 ^ i) +:+ " " +:+ unit.
Proof.
  intros [Hpos Hsize].
  assert (Hlt : b < 1024 ^ 5)
    by (eapply Z.lt_trans; [apply Hsize|reflexivity]).
  rewrite (formatSize_positive b Hpos).
  pose proof (Z.log2_nonneg b) as Hlog0.
  assert (Hlog : Z.log2 b < 50).
  { apply Z.log2_lt_pow2; [done|]. by replace (2 ^ 50) with (1024 ^ 5). }
  set (i := Z.log2 b / 10).
  assert (Hi : 0 ≤ i < 5) by (subst i; split;
    [apply Z.div_pos; lia | apply Z.div_lt_upper_bound; lia]).
  assert (Hlo : 10 * i ≤ Z.log2 b) by (subst i; apply Z.mul_div_le; lia).
  assert (Hhi : Z.log2 b < 10 * (i + 1)).
  { subst i. pose proof (Z.mod_pos_bound (Z.log2 b) 10 ltac:(lia)).
    pose proof (Z.div_mod (Z.log2 b) 10 ltac:(lia)). lia. }
  assert (Hpow : ∀ k, 0 ≤ k → 1024 ^ k = 2 ^ (10 * k)).
  { intros k Hk. by rewrite Z.pow_mul_r by lia. }
  assert (Hb : 1024 ^ i ≤ b < 1024 ^ (i + 1)).
  { rewrite !Hpow by lia. split.
    - apply Z.log2_le_pow2; lia.
    - apply Z.log2_lt_pow2; lia. }
  assert (Hcases : i = 0 ∨ i = 1 ∨ i = 2 ∨ i = 3 ∨ i = 4) by lia.
  exists i.
  destruct Hcases as [Hc|[Hc|[Hc|[Hc|Hc]]]]; rewrite Hc in *;
    eexists; (split; [reflexivity|]); (split; [exact Hb|]); reflexivity.
Qed.

(** From 1024^5 on the index runs off the table and the unit prints as
    [undefined]. *)
Lemma formatSize_beyond_table b :
  1024 ^ 5 ≤ b →
  formatSize (val b)
  = toFixed2 b (1024 ^ (Z.log2 b / 10)) +:+ " undefined".
Proof.
  intros Hb. rewrite (formatSize_positive b) by lia.
  assert (Hlog : 50 ≤ Z.log2 b).
  { apply Z.log2_le_pow2; [lia|]. by replace (2 ^ 50) with (1024 ^ 5). }
  assert (Hi : 5 ≤ Z.log2 b / 10) by (apply Z.div_le_lower_bound; lia).
  replace (sizes !! Z.to_nat (Z.log2 b / 10)) with (@None string); [done|].
  symmetry. apply lookup_ge_None. simpl. lia.
Qed.

End SizeFacts.

(** C10. A size of two pebibytes, a strictly positive size, is formatted
    with [undefined] where the unit belongs. *)
Theorem formatSize_two_pebibytes :
  Prowling.formatSize (JS.val 2251799813685248) = "2.00 undefined".
Proof. reflexivity. Qed.

(** * Further properties of the code *)

(** ** Percent-encoding *)

Section EncodingFacts.
Import JS Prowling Notions.

Lemma list_ascii_of_string_append a b :
  list_ascii_of_string (a +:+ b)
  = list_ascii_of_string a ++ list_ascii_of_string b.
Proof. induction a as [|c a IH]; simpl; [done|]. by rewrite IH. Qed.

Lemma hex_digits_unreserved c :
  let n := Z.of_nat (nat_of_ascii c) in
  unreserved (hex_digit (n / 16)) = true ∧ unreserved (hex_digit (n mod 16)) = true.
Proof. destruct c as [[] [] [] [] [] [] [] []]; by vm_compute. Qed.

Lemma unreserved_not_percent c : unreserved c = true → Ascii.eqb c "%" = false.
Proof. destruct c as [[] [] [] [] [] [] [] []]; by vm_compute. Qed.

Lemma unhex_hex_digit c :
  let n := Z.of_nat (nat_of_ascii c) in
  ascii_of_nat (Z.to_nat (16 * unhex (hex_digit (n / 16))
                          + unhex (hex_digit (n mod 16)))) = c.
Proof. destruct c as [[] [] [] [] [] [] [] []]; by vm_compute. Qed.

(** Every character of an encoded string is unreserved or [%]. *)
Lemma encoded_chars s c :
  In c (list_ascii_of_string (encodeURIComponent s)) →
  unreserved c = true ∨ c = "%"%char.
Proof.
  intros Hin. induction s as [|d s IH]; simpl in Hin; [done|].
  rewrite list_ascii_of_string_append in Hin.
  apply in_app_or in Hin as [Hin|Hin]; [|by apply IH].
  destruct (unreserved d) eqn:Hd; simpl in Hin.
  - destruct Hin as [<-|[]]. by left.
  - destruct (hex_digits_unreserved d) as [Hhi Hlo].
    destruct Hin as [<-|[<-|[<-|[]]]]; auto.
Qed.

Lemma percent_decode_encode s : percent_decode (encodeURIComponent s) = s.
Proof.
  induction s as [|c s IH]; [done|].
  cbn [encodeURIComponent].
  destruct (unreserved c) eqn:Hc.
  - change (String c EmptyString +:+ encodeURIComponent s)
      with (String c (encodeURIComponent s)).
    cbn [percent_decode].
    by rewrite (unreserved_not_percent c Hc), IH.
  - unfold percent_encode.
    change (String "%" (String ?x (String ?y EmptyString)) +:+ ?r)
      with (String "%" (String x (String y r))).
    cbn [percent_decode]. rewrite Ascii.eqb_refl, IH.
    f_equal. apply unhex_hex_digit.
Qed.

End EncodingFacts.

(** X1. [encodeURIComponent] writes nothing but unreserved characters and
    [%]: none of the characters that structure a URL ([&], [=], [#], [?],
    [/], [+], space) can come out of it. *)
Theorem encodeURIComponent_alphabet (s : string) (c : ascii) :
  In c (list_ascii_of_string (Prowling.encodeURIComponent s)) →
  (Prowling.unreserved c = true ∨ c = "%"%char) ∧
  ¬ In c ["&"; "="; "#"; "?"; "/"; "+"; " "]%char.
Proof.
  intros Hin. pose proof (encoded_chars s c Hin) as Hc.
  split; [done|]. intros Hsep.
  destruct Hc as [Hc| ->].
  - simpl in Hsep.
    repeat (destruct Hsep as [<-|Hsep]; [by vm_compute in Hc|]). done.
  - simpl in Hsep. repeat (destruct Hsep as [Hsep|Hsep]; [discriminate|]). done.
Qed.

Lemma encodeURIComponent_alphabet_witness :
  (Prowling.unreserved "%" = true ∨ "%"%char = "%"%char) ∧
  ¬ In "%"%char ["&"; "="; "#"; "?"; "/"; "+"; " "]%char.
Proof.
  apply (encodeURIComponent_alphabet "a b" "%"%char).
  simpl. auto.
Defined.

(** X2. Percent-decoding an encoded string gives the string back, so
    [encodeURIComponent] never sends two different values as the same
    text. *)
Theorem encodeURIComponent_round_trip (s : string) :
  Notions.percent_decode (Prowling.encodeURIComponent s) = s ∧
  ∀ t, Prowling.encodeURIComponent s = Prowling.encodeURIComponent t → s = t.
Proof.
  split; [apply percent_decode_encode|].
  intros t Heq.
  by rewrite <- (percent_decode_encode s), Heq, percent_decode_encode.
Qed.

(** ** The search request *)

Section RequestFacts.
Import JS Prowling Notions.

Lemma string_app_nil_r (a : string) : a +:+ EmptyString = a.
Proof.
  induction a as [|x a IH]; [done|].
  change (String x (a +:+ EmptyString) = String x a). by rewrite IH.
Qed.

Lemma string_app_assoc (a b c : string) : (a +:+ b) +:+ c = a +:+ (b +:+ c).
Proof.
  induction a as [|x a IH]; [done|].
  change (String x ((a +:+ b) +:+ c) = String x (a +:+ (b +:+ c))).
  by rewrite IH.
Qed.

Lemma concat_strings_cons x l :
  concat_strings (x :: l) = x +:+ concat_strings l.
Proof. done. Qed.

Lemma concat_strings_app l k :
  concat_strings (l ++ k) = concat_strings l +:+ concat_strings k.
Proof.
  induction l as [|x l IH]; [done|].
  rewrite <- app_comm_cons, !concat_strings_cons, IH.
  by rewrite string_app_assoc.
Qed.

Lemma join_cons sep p rest :
  join sep (p :: rest) = p +:+ concat_strings ((λ q, sep +:+ q) <$> rest).
Proof.
  revert p. induction rest as [|q rest IH]; intros p.
  - symmetry. apply string_app_nil_r.
  - change (join sep (p :: q :: rest)) with (p +:+ sep +:+ join sep (q :: rest)).
    rewrite IH, fmap_cons, concat_strings_cons.
    by rewrite string_app_assoc.
Qed.

(** The query string of a search, written out. *)
Lemma search_query_string_form this query cat :
  paramsSerializer (searchParams this query cat)
  = "query=" +:+ encodeURIComponent query +:+ "&type=search"
    +:+ concat_strings ((λ c, "&categories=" +:+ pretty c) <$> category_codes cat)
    +:+ concat_strings
          ((λ i, "&indexerIds=" +:+ pretty (Indexer.id i)) <$> indexers this).
Proof.
  unfold paramsSerializer. rewrite push_all. rewrite app_nil_l.
  unfold searchParams.
  set (cats := match cat with
               | all => []
               | one_category c => [("categories", array [PNum c])]
               | categories cs => [("categories", array (PNum <$> cs))]
               end).
  set (ids := match Indexer.id <$> indexers this with
              | [] => []
              | _ :: _ => _
              end).
  assert (Hcats : (λ q, "&" +:+ q) <$> (cats ≫= Spec.pairs_of)
            = (λ c, "&categories=" +:+ pretty c) <$> category_codes cat).
  { subst cats. destruct cat as [c|cs|]; try done.
    csimpl. rewrite app_nil_r. unfold Spec.pairs_of. csimpl.
    rewrite <- !list_fmap_compose. by apply list_fmap_ext. }
  assert (Hids : (λ q, "&" +:+ q) <$> (ids ≫= Spec.pairs_of)
            = (λ i, "&indexerIds=" +:+ pretty (Indexer.id i)) <$> indexers this).
  { subst ids. destruct (indexers this) as [|i l]; [done|].
    csimpl. rewrite app_nil_r. f_equal.
    rewrite <- !list_fmap_compose. by apply list_fmap_ext. }
  rewrite !bind_app.
  change ([("query", scalar (PStr query)); ("type", scalar (PStr "search"))]
          ≫= Spec.pairs_of)
    with ["query=" +:+ encodeURIComponent query;
          "type=" +:+ encodeURIComponent "search"].
  rewrite <- !app_comm_cons, app_nil_l.
  rewrite join_cons, fmap_cons, fmap_app, Hcats, Hids.
  rewrite concat_strings_cons, concat_strings_app.
  replace (encodeURIComponent "search") with "search" by reflexivity.
  by rewrite !string_app_assoc.
Qed.

(** Text without [&] before an [&] is determined by the whole. *)
Lemma split_at_ampersand a b x y :
  ¬ In "&"%char (list_ascii_of_string a) →
  ¬ In "&"%char (list_ascii_of_string b) →
  a +:+ String "&" x = b +:+ String "&" y → a = b.
Proof.
  revert b. induction a as [|c a IH]; intros [|d b] Ha Hb Heq; try done.
  - exfalso. apply Hb. injection Heq as <- _. by left.
  - exfalso. apply Ha. injection Heq as -> _. by left.
  - injection Heq as -> Heq. f_equal. apply (IH b); try done.
    + intros Hin. apply Ha. by right.
    + intros Hin. apply Hb. by right.
Qed.

End RequestFacts.

(** X3. The query string of a search is [query=] with the encoded query,
    [&type=search], then one [&categories=code] per category code (none
    for "all categories") and one [&indexerIds=id] per loaded indexer, in
    their order (none when no indexer is loaded). *)
Theorem search_request_query_string
    (this : Prowling.client) (query : string) (cat : Prowling.category) :
  Prowling.paramsSerializer (Prowling.searchParams this query cat)
  = "query=" +:+ Prowling.encodeURIComponent query +:+ "&type=search"
    +:+ Notions.concat_strings
          ((λ c, "&categories=" +:+ pretty c) <$> Notions.category_codes cat)
    +:+ Notions.concat_strings
          ((λ i, "&indexerIds=" +:+ pretty (Indexer.id i))
             <$> Prowling.indexers this).
Proof. apply search_query_string_form. Qed.

(** X4. The query can be read back from the query string: whatever the
    categories and indexers, two searches are sent as the same string only
    if their queries are equal. *)
Theorem search_request_determines_query
    (this1 this2 : Prowling.client) (cat1 cat2 : Prowling.category)
    (query1 query2 : string) :
  Prowling.paramsSerializer (Prowling.searchParams this1 query1 cat1)
  = Prowling.paramsSerializer (Prowling.searchParams this2 query2 cat2) →
  query1 = query2.
Proof.
  rewrite !search_query_string_form. intros Heq.
  change ("query=" +:+ ?x) with
    (String "q" (String "u" (String "e" (String "r" (String "y" (String "=" x))))))
    in Heq.
  injection Heq as Heq.
  change ("&type=search" +:+ ?x) with (String "&" ("type=search" +:+ x)) in Heq.
  apply split_at_ampersand in Heq.
  - by rewrite <- (percent_decode_encode query1), Heq, percent_decode_encode.
  - intros Hin. by destruct (encoded_chars _ _ Hin) as [Hc|Hc].
  - intros Hin. by destruct (encoded_chars _ _ Hin) as [Hc|Hc].
Qed.

Lemma search_request_determines_query_witness : "ubuntu" = "ubuntu".
Proof.
  apply (search_request_determines_query Prowling.constructor Prowling.constructor
           Prowling.all Prowling.all "ubuntu" "ubuntu").
  reflexivity.
Defined.

(** X5. For a size from 1 byte up to just under 1023 TB (1023 * 1024^4
    bytes), [formatSize] picks the unit of the largest power of 1024 not
    above the size and prints the quotient rounded to the nearest
    hundredth: a number between 1.00 and 1024.00, within half a hundredth
    of the true quotient.  (The bound stays clear of the last bytes below
    1024^5, where the rounding of the two logarithms, which the embedding
    does not model, can matter.) *)
Theorem formatSize_rounds_to_hundredths (b : Z) :
  0 < b < 1023 * 1024 ^ 4 →
  ∃ i unit n,
    Prowling.sizes !! Z.to_nat i = Some unit ∧
    1024 ^ i ≤ b < 1024 ^ (i + 1) ∧
    100 ≤ n ≤ 102400 ∧
    2 * Z.abs (100 * b - n * 1024 ^ i) ≤ 1024 ^ i ∧
    Prowling.formatSize (JS.val b)
    = pretty (n / 100) +:+ "." +:+ pretty (n mod 100 / 10)
      +:+ pretty (n mod 100 mod 10) +:+ " " +:+ unit.
Proof.
  intros Hb.
  destruct (formatSize_in_table b Hb) as (i & unit & Hunit & Hi & Hfmt).
  assert (Hi0 : 0 ≤ i).
  { apply Z.nlt_ge. intros Hneg.
    destruct (Z.eq_dec (i + 1) 0) as [Hz|Hz].
    - rewrite Hz in Hi. simpl in Hi. lia.
    - rewrite (Z.pow_neg_r 1024 (i + 1)) in Hi by lia. lia. }
  set (d := 1024 ^ i) in *.
  assert (Hd : 0 < d) by (subst d; apply Z.pow_pos_nonneg; lia).
  exists i, unit, ((200 * b + d) / (2 * d)).
  split; [done|]. split; [done|].
  pose proof (Z.div_mod (200 * b + d) (2 * d) ltac:(lia)) as Hdm.
  pose proof (Z.mod_pos_bound (200 * b + d) (2 * d) ltac:(lia)) as Hmod.
  set (n := (200 * b + d) / (2 * d)) in *.
  assert (Hup : b < 1024 * d).
  { subst d. rewrite Z.pow_add_r in Hi by lia. lia. }
  split; [nia|]. split.
  - apply Z.abs_case; [by intros ?? ->| |]; nia.
  - rewrite Hfmt. unfold Prowling.toFixed2. cbv zeta. fold n.
    by rewrite !string_app_assoc.
Qed.

Lemma formatSize_rounds_to_hundredths_witness :
  ∃ i unit n,
    Prowling.sizes !! Z.to_nat i = Some unit ∧
    1024 ^ i ≤ 1536 < 1024 ^ (i + 1) ∧
    100 ≤ n ≤ 102400 ∧
    2 * Z.abs (100 * 1536 - n * 1024 ^ i) ≤ 1024 ^ i ∧
    Prowling.formatSize (JS.val 1536)
    = pretty (n / 100) +:+ "." +:+ pretty (n mod 100 / 10)
      +:+ pretty (n mod 100 mod 10) +:+ " " +:+ unit.
Proof. apply (formatSize_rounds_to_hundredths 1536). vm_compute. by split. Defined.

(** ** More about the results list *)

Section ListFacts.
Import JS Prowling Spec Notions.
Context {rt : Runtime}.

(** A step that keeps the store and the loop's variables keeps what is
    shown. *)
Lemma shown_ok_same_arrays full st st' vars p p' :
  heap st' = heap st →
  frame st = Some (vars, p) → frame st' = Some (vars, p') →
  shown_ok full st → shown_ok full st'.
Proof. unfold shown_ok, displayed. by intros -> -> ->. Qed.

Lemma sort_shown_ok full st vars sortBy :
  frame st = Some (vars, results_prompt) →
  shown_ok full st → shown_ok full (step st (select_sort sortBy)).
Proof.
  intros Hframe Hok. unfold shown_ok in *. rewrite Hframe in Hok.
  destruct Hok as [Hne Hall].
  rewrite (displayed_sort_step _ _ _ Hframe).
  rewrite (sort_step _ _ _ Hframe). simpl. split.
  - intros Hnil. apply Hne. apply Permutation_nil.
    by rewrite <- Hnil, Array_sort_Permutation.
  - intros Hf. rewrite Array_sort_Permutation. by apply Hall.
Qed.

Lemma search_shown_ok r full st vars query :
  frame st = Some (vars, results_prompt) →
  retains r full st → shown_ok full st →
  shown_ok full (step st (select_search query)).
Proof.
  intros Hframe (Hr & _ & Hv) Hok. rewrite Hframe in Hv.
  destruct (truthy_string (trim query)) eqn:Hq.
  - assert (Hnb : non_blank query).
    { unfold non_blank. intros Hb. rewrite Hb in Hq. discriminate. }
    assert (Hfull : heap st !! results vars = Some full) by by rewrite Hv.
    destruct (search_step st vars full query Hframe Hfull Hnb)
      as (filtered & Hnew & Hheap & Hcase).
    unfold shown_ok in *. rewrite Hframe in Hok. destruct Hok as [Hne Hall].
    unfold displayed in *. rewrite Hframe in Hne, Hall.
    destruct Hcase as [(Hm & _ & Hf) | (Hm & _ & Hf)]; rewrite Hf, Hheap; simpl.
    + assert (Hother : filtered ≠ currentResults vars).
      { intros Heq. apply Hne. rewrite <- Heq. unfold contents. by rewrite Hnew. }
      unfold contents in *. by rewrite lookup_insert_ne.
    + rewrite contents_insert. by split.
  - unfold step. rewrite Hframe. unfold search_results. by rewrite Hq.
Qed.

Lemma show_all_shown_ok r full st vars :
  frame st = Some (vars, results_prompt) →
  retains r full st → shown_ok full st →
  shown_ok full (step st select_show_all).
Proof.
  intros Hframe Hinv Hok.
  destruct (show_all_retains r full st vars Hframe Hinv) as [_ Hshown].
  destruct Hinv as (_ & Hsub & _).
  unfold shown_ok in *. rewrite Hframe in Hok. destruct Hok as [Hne _].
  rewrite Hshown. unfold step. rewrite Hframe. simpl. split; [|done].
  intros ->. apply Hne. by apply submseteq_nil_r.
Qed.

Lemma step_shown_ok r full st i :
  retains r full st → shown_ok full st → shown_ok full (step st i).
Proof.
  intros Hinv Hok. destruct (frame st) as [[vars p]|] eqn:Hframe.
  - destruct p as [| |selected].
    + destruct i as [sortBy|query| | |selected| |a].
      * by apply (sort_shown_ok _ _ vars).
      * by apply (search_shown_ok r _ _ vars).
      * by apply (show_all_shown_ok r _ _ vars).
      * unfold step. rewrite Hframe. by unfold shown_ok.
      * unfold step. rewrite Hframe.
        by apply (shown_ok_same_arrays full st _ vars results_prompt
                    (detail_prompt selected)).
      * unfold step. by rewrite Hframe.
      * unfold step. by rewrite Hframe.
    + unfold step. rewrite Hframe. destruct i; try done.
      by apply (shown_ok_same_arrays full st _ vars no_matches_prompt results_prompt).
    + unfold step. rewrite Hframe. destruct i as [| | | | | |a]; try done.
      destruct a; simpl;
        first [ by apply (shown_ok_same_arrays full st _ vars
                            (detail_prompt selected) results_prompt)
              | by apply (shown_ok_same_arrays full st _ vars
                            (detail_prompt selected) (detail_prompt selected)) ].
  - unfold step. by rewrite Hframe.
Qed.

Lemma run_shown_ok r full st inputs :
  retains r full st → shown_ok full st → shown_ok full (run st inputs).
Proof.
  revert st. induction inputs as [|i inputs IH]; intros st Hinv Hok; [done|].
  simpl. apply IH; [by apply step_retains | by apply (step_shown_ok r)].
Qed.

Lemma enter_results_shown_ok st0 found : shown_ok found (enter_results found st0).
Proof.
  unfold shown_ok, displayed, enter_results, alloc.
  destruct found as [|x found]; simpl; [done|].
  rewrite contents_insert. by split.
Qed.

End ListFacts.

(** X6. As long as the results list is on screen it is never empty, and
    unless the filter flag is set it shows every result of the search
    (sorting loses none). *)
Theorem results_list_is_never_empty {rt : Runtime}
    (st0 : Prowling.state) found inputs :
  let st := Prowling.run (Prowling.enter_results found st0) inputs in
  ∀ vars p, Prowling.frame st = Some (vars, p) →
    Prowling.displayed st ≠ [] ∧
    (Prowling.isFiltered vars = false → Prowling.displayed st ≡ₚ found).
Proof.
  intros st vars p Hframe.
  assert (Hok : Notions.shown_ok found st).
  { apply (run_shown_ok (fresh (dom (Prowling.heap st0)))).
    - apply enter_results_retains.
    - apply enter_results_shown_ok. }
  unfold Notions.shown_ok in Hok. by rewrite Hframe in Hok.
Qed.

Lemma results_list_is_never_empty_witness :
  let st := Prowling.run (rt := Host.runtime) Sample.listing
              [Prowling.select_sort SortBy.size_desc] in
  let vars := {| Prowling.results := 0%nat; Prowling.currentResults := 1%nat;
                 Prowling.filteredResults := None;
                 Prowling.isFiltered := false |} in
  Prowling.frame st = Some (vars, Prowling.results_prompt) ∧
  Prowling.displayed st ≠ [] ∧
  Prowling.displayed st ≡ₚ [Sample.ubuntu; Sample.debian; Sample.fedora].
Proof.
  intros st vars.
  assert (Hframe : Prowling.frame st = Some (vars, Prowling.results_prompt))
    by (vm_compute; reflexivity).
  destruct (results_list_is_never_empty (rt := Host.runtime) Sample.start
              [Sample.ubuntu; Sample.debian; Sample.fedora]
              [Prowling.select_sort SortBy.size_desc] vars
              Prowling.results_prompt Hframe) as [Hne Hall].
  split; [exact Hframe|]. split; [exact Hne|]. apply Hall. reflexivity.
Defined.

Section DetailFacts.
Import JS Prowling Spec Notions.
Context {rt : Runtime}.

(** At the results prompt the answers of the detail view are not on
    offer. *)
Lemma run_actions_at_results st vars acts :
  frame st = Some (vars, results_prompt) →
  run st (action <$> acts) = st.
Proof.
  intros Hframe. induction acts as [|a acts IH]; [done|].
  rewrite fmap_cons. cbn [run fold_left]. unfold step at 2. by rewrite Hframe.
Qed.

(** In the detail view: answers are taken until one ends the view; the
    store and the loop's variables stay as they are, "back" keeps the
    navigation stack and "main menu" empties it. *)
Lemma run_detail st vars selected acts :
  frame st = Some (vars, detail_prompt selected) →
  let st' := run st (action <$> acts) in
  heap st' = heap st ∧
  frame st' =
    Some (vars, if existsb leaves_detail acts then results_prompt
                else detail_prompt selected) ∧
  (existsb leaves_detail acts = false →
     navigationStack st' = navigationStack st) ∧
  (∀ pre a post, acts = pre ++ a :: post →
     existsb leaves_detail pre = false → leaves_detail a = true →
     navigationStack st' =
       match a with main_menu => [] | _ => navigationStack st end).
Proof.
  revert st. induction acts as [|a acts IH]; intros st Hframe.
  - repeat split; try done. intros [|??] a post Heq; discriminate.
  - rewrite fmap_cons. cbn [run fold_left]. fold (run (step st (action a)) (action <$> acts)).
    assert (Hstep : step st (action a) = detail a selected vars st)
      by (unfold step; by rewrite Hframe).
    rewrite Hstep. cbn [existsb].
    destruct (leaves_detail a) eqn:Ha.
    + assert (Hres : frame (detail a selected vars st) = Some (vars, results_prompt))
        by by destruct a.
      rewrite (run_actions_at_results _ vars acts Hres). cbn [orb].
      repeat split; try by destruct a.
      intros pre a' post Heq Hpre Ha'.
      destruct pre as [|b pre].
      * injection Heq as <- _. by destruct a.
      * injection Heq as <- _. cbn [existsb] in Hpre. by rewrite Ha in Hpre.
    + assert (Hdet : frame (detail a selected vars st)
                     = Some (vars, detail_prompt selected)) by by destruct a.
      destruct (IH _ Hdet) as (Hh & Hf & Hn & Hex). cbn [orb].
      assert (Hsame : heap (detail a selected vars st) = heap st ∧
                      navigationStack (detail a selected vars st)
                      = navigationStack st) by by destruct a.
      destruct Hsame as (Hh' & Hn').
      repeat split; try congruence.
      * intros Hno. rewrite Hn by done. done.
      * intros pre a' post Heq Hpre Ha'.
        destruct pre as [|b pre].
        -- injection Heq as <- _. congruence.
        -- injection Heq as <- Heq. cbn [existsb] in Hpre. rewrite Ha in Hpre.
           rewrite (Hex pre a' post Heq Hpre Ha'). by rewrite Hn'.
Qed.

End DetailFacts.

(** X7. Opening an item and answering in its detail view changes nothing
    about the list: the arrays and the loop's variables stay as they are,
    so the same sequence is displayed afterwards.  The
    view ends at the first "back" or "main menu", and both lead to the
    results prompt: "back" leaves the pushed snapshot on the navigation
    stack, "main menu" empties the stack and still shows the list. *)
Theorem detail_view_leaves_list_alone {rt : Runtime}
    (st : Prowling.state) vars selected acts :
  Prowling.frame st = Some (vars, Prowling.results_prompt) →
  let st' := Prowling.run st
               (Prowling.select_item selected :: (Prowling.action <$> acts)) in
  Prowling.heap st' = Prowling.heap st ∧
  Prowling.displayed st' = Prowling.displayed st ∧
  Prowling.frame st' =
    Some (vars, if existsb Notions.leaves_detail acts
                then Prowling.results_prompt
                else Prowling.detail_prompt selected) ∧
  (∀ pre a post, acts = pre ++ a :: post →
     existsb Notions.leaves_detail pre = false →
     Notions.leaves_detail a = true →
     Prowling.navigationStack st' =
       match a with
       | Prowling.main_menu => []
       | _ => Prowling.navigationStack st
              ++ [{| Prowling.type := "results";
                     Prowling.data := Prowling.results vars |}]
       end).
Proof.
  intros Hframe st'. subst st'. cbn [Prowling.run fold_left].
  assert (Hopen : Prowling.step st (Prowling.select_item selected)
                  = Prowling.open_item selected vars st)
    by (unfold Prowling.step; by rewrite Hframe).
  rewrite Hopen.
  destruct (run_detail (Prowling.open_item selected vars st) vars selected acts
              eq_refl) as (Hh & Hf & _ & Hex).
  fold (Prowling.run (Prowling.open_item selected vars st) (Prowling.action <$> acts)).
  split; [done|]. split; [|split; [done|]].
  - unfold Prowling.displayed. by rewrite Hf, Hframe, Hh.
  - intros pre a post Heq Hpre Ha. rewrite (Hex pre a post Heq Hpre Ha).
    by destruct a.
Qed.

Lemma detail_view_leaves_list_alone_witness :
  Prowling.displayed
    (Prowling.run (rt := Host.runtime) Sample.listing
       (Prowling.select_item Sample.ubuntu
          :: (Prowling.action <$> [Prowling.more_info; Prowling.main_menu])))
  = Prowling.displayed Sample.listing.
Proof.
  apply (detail_view_leaves_list_alone (rt := Host.runtime)
           Sample.listing Sample.listing_vars Sample.ubuntu
           [Prowling.more_info; Prowling.main_menu]).
  reflexivity.
Defined.

Section StackFacts.
Import JS Prowling Spec Notions.
Context {rt : Runtime}.

Lemma elem_of_removelast {A : Type} (x : A) l : x ∈ removelast l → x ∈ l.
Proof.
  induction l as [|y l IH]; simpl; [done|].
  destruct l as [|z l]; [by intros ?%elem_of_nil|].
  intros [->|Hin]%elem_of_cons; [by left|]. right. by apply IH.
Qed.

Lemma navigationStack_sort st vars sortBy :
  frame st = Some (vars, results_prompt) →
  navigationStack (step st (select_sort sortBy)) = navigationStack st.
Proof. intros Hframe. by rewrite (sort_step _ _ _ Hframe). Qed.

Lemma navigationStack_search st vars query :
  frame st = Some (vars, results_prompt) →
  navigationStack (step st (select_search query)) = navigationStack st.
Proof.
  intros Hframe. unfold step. rewrite Hframe. unfold search_results.
  destruct (truthy_string (trim query)); [|done].
  destruct (Array_filter _ _ _) as [filtered h].
  by destruct (length (contents h filtered) =? 0)%nat.
Qed.

(** Whatever is on the navigation stack was there before the search or is
    a snapshot of the search's full result array. *)
Lemma step_stack (r : loc) (old : list nav_entry) st i :
  (match frame st with Some (vars, _) => results vars = r | None => True end) →
  (∀ e, e ∈ navigationStack st →
     e ∈ old ∨ e = {| type := "results"; data := r |}) →
  ∀ e, e ∈ navigationStack (step st i) →
    e ∈ old ∨ e = {| type := "results"; data := r |}.
Proof.
  intros Hr Hold e. destruct (frame st) as [[vars p]|] eqn:Hframe.
  - destruct p as [| |selected].
    + destruct i as [sortBy|query| | |selected| |a].
      * rewrite (navigationStack_sort _ vars) by done. apply Hold.
      * rewrite (navigationStack_search _ vars) by done. apply Hold.
      * unfold step. rewrite Hframe. apply Hold.
      * unfold step. rewrite Hframe. simpl. intros Hin.
        by apply Hold, elem_of_removelast.
      * unfold step. rewrite Hframe. simpl.
        intros [Hin|Hin]%elem_of_app; [by apply Hold|].
        apply list_elem_of_singleton in Hin. right. by rewrite Hin, Hr.
      * unfold step. rewrite Hframe. apply Hold.
      * unfold step. rewrite Hframe. apply Hold.
    + unfold step. rewrite Hframe. destruct i; apply Hold.
    + unfold step. rewrite Hframe. destruct i as [| | | | | |a]; try apply Hold.
      destruct a; simpl; try apply Hold. by intros ?%elem_of_nil.
  - unfold step. rewrite Hframe. apply Hold.
Qed.

End StackFacts.

(** X8. The navigation stack only ever receives snapshots of the full
    result array: after any answers, each entry was on the stack before
    the search or is a "results" entry whose array still holds the full
    result sequence, never a sorted or filtered view. *)
Theorem navigation_stack_holds_full_results {rt : Runtime}
    (st0 : Prowling.state) found inputs :
  let st := Prowling.run (Prowling.enter_results found st0) inputs in
  ∀ e, e ∈ Prowling.navigationStack st →
    e ∈ Prowling.navigationStack st0 ∨
    (Prowling.type e = "results" ∧
     Prowling.heap st !! Prowling.data e = Some found).
Proof.
  intros st e Hin.
  set (r := fresh (dom (Prowling.heap st0))).
  assert (Hinv : ∀ inputs,
            Spec.retains r found
              (Prowling.run (Prowling.enter_results found st0) inputs) ∧
            ∀ e, e ∈ Prowling.navigationStack
                       (Prowling.run (Prowling.enter_results found st0) inputs) →
              e ∈ Prowling.navigationStack st0
              ∨ e = {| Prowling.type := "results"; Prowling.data := r |}).
  { clear. intros inputs.
    assert (Hstart : Spec.retains r found (Prowling.enter_results found st0))
      by apply enter_results_retains.
    assert (Hstack : ∀ e, e ∈ Prowling.navigationStack
                                (Prowling.enter_results found st0) →
              e ∈ Prowling.navigationStack st0
              ∨ e = {| Prowling.type := "results"; Prowling.data := r |}).
    { intros e. unfold Prowling.enter_results, Prowling.alloc.
      destruct (length found =? 0)%nat; simpl; auto. }
    revert Hstart Hstack. generalize (Prowling.enter_results found st0).
    induction inputs as [|i inputs IH]; intros st Hstart Hstack; [done|].
    cbn [Prowling.run fold_left]. apply IH.
    - by apply step_retains.
    - apply step_stack; [|done]. by destruct Hstart as (_ & _ & Hv). }
  destruct (Hinv inputs) as [(Hr & _ & _) Hstack].
  destruct (Hstack e Hin) as [Hold| ->]; [by left|]. right. by split.
Qed.

Lemma navigation_stack_holds_full_results_witness :
  let st := Prowling.run (rt := Host.runtime) Sample.listing
              [Prowling.select_sort SortBy.size_desc;
               Prowling.select_item Sample.ubuntu] in
  let e := {| Prowling.type := "results"; Prowling.data := 0%nat |} in
  e ∈ Prowling.navigationStack st ∧
  (e ∈ Prowling.navigationStack Sample.start ∨
   (Prowling.type e = "results" ∧
    Prowling.heap st !! Prowling.data e
    = Some [Sample.ubuntu; Sample.debian; Sample.fedora])).
Proof.
  intros st e.
  assert (He : e ∈ Prowling.navigationStack st)
    by (vm_compute; apply list_elem_of_here).
  split; [exact He|].
  exact (navigation_stack_holds_full_results (rt := Host.runtime) Sample.start
           [Sample.ubuntu; Sample.debian; Sample.fedora]
           [Prowling.select_sort SortBy.size_desc;
            Prowling.select_item Sample.ubuntu] e He).
Defined.

(** ** Sorting twice, by two keys *)

Lemma StronglySorted_filter {A : Type} (R : A → A → Prop) (p : A → bool) l :
  StronglySorted R l → StronglySorted R (List.filter p l).
Proof.
  induction 1 as [|x l Hs IH Hall]; simpl; [constructor|].
  destruct (p x); [|done]. constructor; [done|].
  rewrite Forall_forall in Hall. apply Forall_forall. intros y Hy.
  apply Hall. apply list_elem_of_In. apply list_elem_of_In in Hy.
  by apply filter_In in Hy as [Hy _].
Qed.

(** X9. Where both comparators can place all the results (for a date
    key: every publish date is missing or parses), sorting by one key and
    then by another orders the list by the second key and, because the
    sort is stable, leaves every group of results that tie under the
    second key in the order the first sort gave them. *)
Theorem second_sort_keeps_first_among_ties
    {rt : Runtime} {laws : RuntimeLaws rt}
    (st : Prowling.state) vars first second (T : SearchResult.t → bool) :
  Prowling.frame st = Some (vars, Prowling.results_prompt) →
  Forall (Spec.comparable first) (Prowling.displayed st) →
  Forall (Spec.comparable second) (Prowling.displayed st) →
  (∀ x y, x ∈ Prowling.displayed st → y ∈ Prowling.displayed st →
     T x = true → T y = true →
     JS.SortCompare (Prowling.compareBy (Prowling.this st) second) x y ≤ 0) →
  let st' := Prowling.step (Prowling.step st (Prowling.select_sort first))
               (Prowling.select_sort second) in
  StronglySorted (JS.ordered (Prowling.compareBy (Prowling.this st) second))
    (Prowling.displayed st') ∧
  StronglySorted (JS.ordered (Prowling.compareBy (Prowling.this st) first))
    (List.filter T (Prowling.displayed st')).
Proof.
  intros Hframe Hcmp Hcmp2 HT st'.
  set (once := Prowling.step st (Prowling.select_sort first)) in *.
  assert (Honce : Prowling.displayed once
            = JS.Array_sort (Prowling.compareBy (Prowling.this st) first)
                (Prowling.displayed st))
    by apply (displayed_sort_step _ _ _ Hframe).
  assert (Hthis : Prowling.this once = Prowling.this st)
    by (subst once; by rewrite (sort_step _ _ _ Hframe)).
  assert (Hf : ∃ vars1, Prowling.frame once = Some (vars1, Prowling.results_prompt))
    by (subst once; rewrite (sort_step _ _ _ Hframe); by eexists).
  destruct Hf as [vars1 Hf]. subst st'.
  rewrite (displayed_sort_step _ _ _ Hf), Hthis, Honce. split.
  - apply Array_sort_compareBy_StronglySorted.
    apply Forall_forall. intros r Hr. rewrite Forall_forall in Hcmp2.
    apply Hcmp2. by rewrite Array_sort_Permutation in Hr.
  - rewrite Array_sort_stable.
    + apply StronglySorted_filter. by apply Array_sort_compareBy_StronglySorted.
    + intros x y Hx Hy. rewrite Array_sort_Permutation in Hx, Hy. by apply HT.
Qed.

Lemma second_sort_keeps_first_among_ties_witness :
  let st' := Prowling.step (rt := Host.runtime)
               (Prowling.step (rt := Host.runtime) Sample.listing
                  (Prowling.select_sort SortBy.size_desc))
               (Prowling.select_sort SortBy.protocol) in
  StronglySorted
    (JS.ordered (Prowling.compareBy (rt := Host.runtime) Prowling.constructor
                   SortBy.size_desc))
    (List.filter (λ r, negb (Prowling.is_usenet r)) (Prowling.displayed st')).
Proof.
  apply (second_sort_keeps_first_among_ties (laws := host_laws)
           Sample.listing Sample.listing_vars SortBy.size_desc SortBy.protocol
           (λ r, negb (Prowling.is_usenet r))).
  - reflexivity.
  - apply Forall_forall. by intros r _.
  - apply Forall_forall. by intros r _.
  - intros x y _ _ Hx Hy.
    unfold JS.SortCompare, Prowling.compareBy.
    destruct (Prowling.is_usenet x), (Prowling.is_usenet y); done.
Defined.

(** ** Reading a configuration that parses *)

Section LoadFacts.
Import JS Prowling Notions.

(** [loadConfig] on a file that parses to an object. *)
Lemma loadConfig_object text (config : gmap string json) st :
  loadConfig (parse_returns text (JObj config)) st
  = (Normal (JObj config),
     set_this
       (set_settings
          (merged (settings (this st)) (config !! "settings"))
          (set_theme (merged (theme (this st)) (config !! "theme")) (this st)))
       st).
Proof.
  unfold loadConfig, mbind, M_bind, try_catch, lift, merged. simpl.
  destruct st as [[] ? ? ? ?].
  destruct (config !! "theme") as [th|]; [destruct (truthy th)|];
    (destruct (config !! "settings") as [se|]; [destruct (truthy se)|]);
    reflexivity.
Qed.

End LoadFacts.

(** X10. A configuration file that parses to an object is returned as it
    is, without a warning, and its [theme] and [settings] objects are laid
    over the client's key by key: a saved key wins, a key the file does
    not mention keeps the value the client had. *)
Theorem loadConfig_merges_saved_over_defaults
    (text : string) (config saved_theme saved_settings : gmap string JS.json)
    (st : Prowling.state) :
  config !! "theme" = Some (JS.JObj saved_theme) →
  config !! "settings" = Some (JS.JObj saved_settings) →
  ∃ st',
    Prowling.loadConfig (Prowling.parse_returns text (JS.JObj config)) st
      = (JS.Normal (JS.JObj config), st') ∧
    Prowling.console st' = Prowling.console st ∧
    (∀ key, Prowling.settings (Prowling.this st') !! key
            = match saved_settings !! key with
              | Some v => Some v
              | None => Prowling.settings (Prowling.this st) !! key
              end) ∧
    (∀ key, Prowling.theme (Prowling.this st') !! key
            = match saved_theme !! key with
              | Some v => Some v
              | None => Prowling.theme (Prowling.this st) !! key
              end).
Proof.
  intros Htheme Hsettings. eexists. split; [apply loadConfig_object|].
  rewrite Htheme, Hsettings. simpl. split; [done|].
  split; intros key; unfold JS.spread_over, JS.own_properties;
    rewrite lookup_union; by destruct (_ !! key), (_ !! key).
Qed.

Lemma loadConfig_merges_saved_over_defaults_witness :
  ∃ st',
    Prowling.loadConfig
      (Prowling.parse_returns ""
         (JS.JObj (list_to_map
            [("theme", JS.JObj ∅);
             ("settings", JS.JObj {["pageSize" := JS.JNum 40]})])))
      Sample.start
      = (JS.Normal
           (JS.JObj (list_to_map
              [("theme", JS.JObj ∅);
               ("settings", JS.JObj {["pageSize" := JS.JNum 40]})])), st') ∧
    Prowling.settings (Prowling.this st') !! "pageSize" = Some (JS.JNum 40) ∧
    Prowling.settings (Prowling.this st') !! "cacheDuration" = Some (JS.JNum 30).
Proof.
  destruct (loadConfig_merges_saved_over_defaults ""
              (list_to_map
                 [("theme", JS.JObj ∅);
                  ("settings", JS.JObj {["pageSize" := JS.JNum 40]})])
              ∅ {["pageSize" := JS.JNum 40]} Sample.start)
    as (st' & Hload & _ & Hsettings & _).
  - by vm_compute.
  - by vm_compute.
  - exists st'. split; [exact Hload|].
    split; [exact (Hsettings "pageSize") | exact (Hsettings "cacheDuration")].
Defined.

(** X11. A configuration file holding valid JSON that is not an object:
    a number, boolean, string or array is returned as the configuration,
    with the client untouched and no warning; [null] parses too, but
    reading its [theme] throws, so the fallback is returned after the
    warning. *)
Theorem loadConfig_of_non_object
    (text : string) (config : JS.json) (st : Prowling.state) :
  (∀ m, config ≠ JS.JObj m) →
  Prowling.loadConfig (Prowling.parse_returns text config) st
  = match config with
    | JS.JNull =>
        (JS.Normal (Prowling.fallback_config (Prowling.this st)),
         Prowling.console_log Prowling.load_warning st)
    | _ => (JS.Normal config, st)
    end.
Proof.
  intros Hobj. destruct config as [|b|z|s|l|m]; try reflexivity.
  by destruct (Hobj m).
Qed.

Lemma loadConfig_of_non_object_witness :
  Prowling.loadConfig (Prowling.parse_returns "42" (JS.JNum 42)) Sample.start
  = (JS.Normal (JS.JNum 42), Sample.start).
Proof.
  apply (loadConfig_of_non_object "42" (JS.JNum 42) Sample.start).
  intros m. discriminate.
Defined.

(** ** The settings menu *)

Section SettingsFacts.
Import JS Prowling Settings Notions.
Variable chalk : string → string → completion string.
Hypothesis chalk_colors : colors_are_styles chalk.

Lemma completes_run {A : Type} (m : MS A) s a s' (Q : A → session → Prop) :
  m s = (Normal a, s') → Q a s' → completes m s Q.
Proof. intros Hm HQ. by exists a, s'. Qed.

Lemma completes_bind {A B : Type} (m : MS A) (f : A → MS B) s
    (Q : B → session → Prop) :
  completes m s (λ a s', completes (f a) s' Q) → completes (m ≫= f) s Q.
Proof.
  intros (a & s' & Hm & b & s'' & Hf & HQ). exists b, s''. split; [|done].
  unfold mbind, MS_bind. by rewrite Hm.
Qed.

Lemma completes_themed r text s (Q : string → session → Prop) :
  role_ok s r → (∀ out, Q out s) → completes (themed chalk r text) s Q.
Proof.
  intros [k Hk] HQ.
  destruct (chalk_colors k text) as [out Hout].
  exists out, s. split; [|done]. unfold themed. rewrite Hk.
  cbn [ToPropertyKey ToString]. by rewrite Hout.
Qed.

Lemma completes_styled r msg s (Q : unit → session → Prop) :
  role_ok s r → (∀ out, Q () (print out s).2) →
  completes (styled chalk r msg) s Q.
Proof.
  intros Hok HQ. unfold styled. apply completes_bind.
  apply completes_themed; [done|]. intros out.
  by apply (completes_run _ _ () (print out s).2).
Qed.

Lemma color_name_available k : color_name k ∈ availableColors.
Proof. destruct k; unfold availableColors; set_solver. Qed.

Lemma completes_color_choices l s (Q : list string → session → Prop) :
  Forall (λ name, ∃ k, name = color_name k) l →
  (∀ names, Q names s) → completes (color_choices chalk l) s Q.
Proof.
  intros Hl HQ.
  assert (Hall : ∃ names, color_choices chalk l s = (Normal names, s)).
  { induction Hl as [|name l [k ->] _ [names IH]]; [by exists []|].
    destruct (chalk_colors k (color_name k)) as [out Hout].
    exists (out :: names). cbn [color_choices].
    unfold mbind at 1, MS_bind at 1, call_chalk. rewrite Hout.
    unfold mbind at 1, MS_bind at 1. by rewrite IH. }
  destruct Hall as [names Hnames]. by exists names, s.
Qed.

Lemma availableColors_colors :
  Forall (λ name, ∃ k, name = color_name k) availableColors.
Proof.
  unfold availableColors. repeat constructor.
  - by exists black. - by exists red. - by exists green.
  - by exists yellow. - by exists blue. - by exists magenta.
  - by exists cyan. - by exists white. - by exists gray.
Qed.

(** The colour prompt changes one role to one of the nine colours. *)
Lemma theme_ok_insert (t : gmap string json) (e : role) (k : color) :
  (∀ r : role, ∃ k, t !! role_name r = Some (JStr (color_name k))) →
  ∀ r : role, ∃ k',
    <[role_name e := JStr (color_name k)]> t !! role_name r
    = Some (JStr (color_name k')).
Proof.
  intros Hok r. destruct (decide (role_name e = role_name r)) as [Heq|Hne].
  - exists k. by rewrite Heq, lookup_insert_eq.
  - rewrite lookup_insert_ne by done. apply Hok.
Qed.

Lemma theme_ok_default (r : role) :
  ∃ k, default_theme !! role_name r = Some (JStr (color_name k)).
Proof.
  destruct r;
    [exists cyan|exists yellow|exists green|exists red|exists yellow
    |exists blue|exists magenta]; by vm_compute.
Qed.

(** Assigning a value of the kind of its default to one of the keys. *)
Lemma settings_typed_insert (m : gmap string json) k v :
  (∀ key, kind_of <$> m !! key = kind_of <$> default_settings !! key) →
  kind_of <$> default_settings !! k = Some (kind_of v) →
  ∀ key, kind_of <$> <[k := v]> m !! key = kind_of <$> default_settings !! key.
Proof.
  intros Hm Hk key. destruct (decide (k = key)) as [<-|Hne].
  - by rewrite lookup_insert_eq, Hk.
  - by rewrite lookup_insert_ne.
Qed.

Ltac ms_theme :=
  unfold theme_ok, role_ok in *;
  cbn [client_state this theme set_this set_theme set_settings set_baseUrl
       set_qbittorrentUrl set_indexers console_log set_currentMenuLevel
       set_navigationStack print on_state on_this snd];
  first [ assumption
        | match goal with Hok : ∀ r : role, ∃ k, _ |- _ => apply Hok end
        | apply theme_ok_insert; assumption
        | apply theme_ok_default ].

Ltac ms_step :=
  lazymatch goal with
  | |- completes (mbind _ _) _ _ => apply completes_bind
  | |- completes (styled _ _ _) _ _ =>
      apply completes_styled; [ms_theme | intros ?]
  | |- completes (themed _ _ _) _ _ =>
      apply completes_themed; [ms_theme | intros ?]
  | |- completes (color_choices _ _) _ _ =>
      apply completes_color_choices; [apply availableColors_colors | intros ?]
  | |- completes (match ?x with _ => _ end) _ _ => destruct x
  | |- completes _ _ _ => eapply completes_run; [reflexivity|]
  end;
  cbv beta;
  cbn [client_state X_Api_Key disk snd print on_state on_this set_X_Api_Key
       set_disk].

Ltac ms_typed :=
  let Htyped := fresh "Htyped" in
  intros Htyped; unfold settings_typed in *; cbn;
  first [ exact Htyped
        | apply settings_typed_insert; [exact Htyped | by vm_compute]
        | done ].

Ltac ms_post :=
  unfold visit_post; cbn [saves];
  split; [ms_theme|];
  split; [ms_typed|];
  split; [first [ by intros [=] | by intros _ ]|];
  first
    [ by intros [=]
    | by (intros _; eexists)
    | (intros _; cbn; set_solver) ].

Lemma visit_menu_post s v w :
  theme_ok s →
  completes (visit_menu chalk v w) s (λ _ s', visit_post s v w s').
Proof.
  intros Hok.
  destruct v as [[]|[]|[]|[]|[]|[]|[]|[]|[]|[]]; destruct w;
    unfold visit_menu, customizeConnectionSettings, customizeTheme,
      customizeUI, customizeDownloadSettings, customizeSearchPreferences,
      customizeAppearanceSettings, customizeKeyboardShortcuts,
      customizeNotificationSettings, customizePerformanceSettings,
      reset_to_default, saved, keyboard_saved, shortcuts_note,
      press_enter_to_continue, test_connection.
  all: repeat ms_step.
  all: ms_post.
Qed.

Lemma completes_weaken {A : Type} (m : MS A) s (Q Q' : A → session → Prop) :
  completes m s Q → (∀ a s', Q a s' → Q' a s') → completes m s Q'.
Proof. intros (a & s' & Hm & HQ) Himp. exists a, s'. auto. Qed.

Lemma settings_loop_post visits s :
  theme_ok s →
  completes (settings_loop chalk visits) s (λ _ s', menu_post s visits s').
Proof.
  revert s. induction visits as [|[v w] visits IH]; intros s Hok;
    cbn [settings_loop]; ms_step; ms_step.
  - ms_step. by unfold menu_post.
  - ms_step. eapply completes_weaken; [by apply visit_menu_post|].
    cbv beta. intros _ s1 (Hok1 & Htyped1 & Hback & Hw).
    eapply completes_weaken; [by apply IH|].
    cbv beta. intros _ s2 (Hok2 & Htyped2 & Hsync2).
    split; [done|]. split; [auto|].
    intros [[text Hwrite] Hrest]%Forall_cons Hsync. cbn in Hwrite. subst w.
    apply Hsync2; [done|].
    destruct (saves v) eqn:Hsaves; [by apply Hw|].
    destruct Hback as (Hthis & Hkey & Hdisk); [done|].
    destruct Hsync as [text' Hsync]. exists text'.
    by rewrite Hthis, Hkey, Hdisk.
Qed.

Lemma showSettingsMenu_post visits s :
  theme_ok s →
  completes (showSettingsMenu chalk visits) s (λ _ s', menu_post s visits s').
Proof.
  intros Hok. unfold showSettingsMenu. repeat ms_step.
  eapply completes_weaken; [apply settings_loop_post; ms_theme|].
  cbv beta. intros _ s' (Hok' & Htyped & Hsync).
  split; [done|]. split.
  - intros H. by apply Htyped.
  - intros Hall [text H]. apply Hsync; [done|]. by exists text.
Qed.

(** A confirmed reset, from any theme. *)
Lemma reset_post s w :
  completes (visit_menu chalk (reset true) w) s
    (λ _ s',
       this (client_state s')
       = set_settings default_settings
           (set_theme default_theme (this (client_state s))) ∧
       X_Api_Key s' = X_Api_Key s ∧
       disk s'
       = match w with
         | write_returns text =>
             parse_returns text
               (config_object (baseUrl (this (client_state s))) (X_Api_Key s)
                  (qbittorrentUrl (this (client_state s))) default_theme
                  default_settings)
         | write_throws _ => disk s
         | write_breaks _ remains => remains
         end).
Proof.
  unfold visit_menu, reset_to_default. destruct w; by repeat ms_step.
Qed.

Lemma throws_bind {A B : Type} (m : MS A) (f : A → MS B) s error
    (Q : session → Prop) :
  completes m s (λ a s', throws (f a) s' error Q) →
  throws (m ≫= f) s error Q.
Proof.
  intros (a & s' & Hm & s'' & Hf & HQ). exists s''. split; [|done].
  unfold mbind, MS_bind. by rewrite Hm.
Qed.

Lemma throws_here {A B : Type} (m : MS A) (f : A → MS B) s error
    (Q : session → Prop) :
  throws m s error Q → throws (m ≫= f) s error Q.
Proof.
  intros (s' & Hm & HQ). exists s'. split; [|done].
  unfold mbind, MS_bind. by rewrite Hm.
Qed.

(** A line in the colour of a role that [chalk] has no style for. *)
Lemma throws_styled r msg s error (Q : session → Prop) :
  (∀ text,
     chalk (ToPropertyKey (theme (this (client_state s)) !! role_name r)) text
     = Throw error) →
  Q s → throws (styled chalk r msg) s error Q.
Proof.
  intros Hthrow HQ. apply throws_here. exists s. split; [|done].
  unfold themed. by rewrite Hthrow.
Qed.

(** Every sub-menu opens with a line in the colour of [info]. *)
Lemma sub_menu_throws v w s error (Q : session → Prop) :
  opens_sub_menu v = true →
  (∀ text,
     chalk (ToPropertyKey (theme (this (client_state s)) !! role_name info))
       text = Throw error) →
  Q s → throws (visit_menu chalk v w) s error Q.
Proof.
  intros Hsub Hthrow HQ. destruct v; [discriminate|..];
    unfold visit_menu, customizeConnectionSettings, customizeTheme,
      customizeUI, customizeDownloadSettings, customizeSearchPreferences,
      customizeAppearanceSettings, customizeKeyboardShortcuts,
      customizeNotificationSettings, customizePerformanceSettings;
    apply throws_here; by apply throws_styled.
Qed.

Ltac ms_throw_step :=
  lazymatch goal with
  | |- throws (mbind _ (styled _ _ _)) _ _ _ => apply throws_bind; ms_step
  | |- throws (mbind _ (themed _ _ _)) _ _ _ => apply throws_bind; ms_step
  | |- throws (mbind _ (print _)) _ _ _ => apply throws_bind; ms_step
  | |- throws (mbind _ (on_state _)) _ _ _ => apply throws_bind; ms_step
  end.

(** The way to a sub-menu needs the colours of [primary] and [highlight]
    only; there the colour of [info] is used first. *)
Lemma startSearchLoop_settings_throws v w rest s error :
  role_ok s primary → role_ok s highlight →
  opens_sub_menu v = true →
  (∀ text,
     chalk (ToPropertyKey (theme (this (client_state s)) !! role_name info))
       text = Throw error) →
  throws (startSearchLoop_settings chalk ((v, w) :: rest)) s error
    (λ s',
       theme (this (client_state s')) = theme (this (client_state s)) ∧
       settings (this (client_state s')) = settings (this (client_state s)) ∧
       X_Api_Key s' = X_Api_Key s ∧ disk s' = disk s).
Proof.
  intros Hprimary Hhighlight Hsub Hthrow.
  unfold startSearchLoop_settings, showSettingsMenu.
  repeat ms_throw_step. cbn [settings_loop]. ms_throw_step.
  apply throws_here. by apply sub_menu_throws.
Qed.

(** The reset needs them only as well, and leaves the default theme. *)
Lemma startSearchLoop_settings_reset w rest s :
  role_ok s primary → role_ok s highlight →
  completes (startSearchLoop_settings chalk ((reset true, w) :: rest)) s
    (λ _ s', theme_ok s').
Proof.
  intros Hprimary Hhighlight.
  unfold startSearchLoop_settings, showSettingsMenu.
  repeat ms_step. cbn [settings_loop]. do 3 ms_step.
  unfold visit_menu, reset_to_default.
  destruct w; repeat ms_step;
    (eapply completes_weaken; [apply settings_loop_post; ms_theme|];
     by intros _ s' [Hok _]).
Qed.

End SettingsFacts.

Ltac plain_chalk_colors := intros k text; exists text; by destruct k.

Ltac default_theme_ok :=
  intros r; destruct r;
  [exists Settings.cyan|exists Settings.yellow|exists Settings.green
  |exists Settings.red|exists Settings.yellow|exists Settings.blue
  |exists Settings.magenta]; by vm_compute.

(** X12. With a theme that gives every role one of the nine colours, the
    settings menu never throws, whatever is visited and answered and
    whether or not the file can be written, and it leaves such a theme
    behind. *)
Theorem settings_menu_never_throws
    (chalk : string → string → JS.completion string)
    (s : Settings.session) (visits : list (Settings.visit * Settings.write_outcome)) :
  Notions.colors_are_styles chalk →
  Notions.theme_ok s →
  ∃ s', Settings.showSettingsMenu chalk visits s = (JS.Normal (), s') ∧
        Notions.theme_ok s'.
Proof.
  intros Hchalk Hok.
  destruct (showSettingsMenu_post chalk Hchalk visits s Hok)
    as ([] & s' & Hrun & Hok' & _).
  by exists s'.
Qed.

Lemma settings_menu_never_throws_witness :
  ∃ s',
    Settings.showSettingsMenu Notions.plain_chalk
      [(Settings.theme_colors
          (Settings.theme_pick Settings.primary Settings.green),
        Settings.write_throws "EACCES");
       (Settings.keyboard (Settings.keyboard_enableKeyboardShortcuts false),
        Settings.write_returns "{}")]
      Notions.new_session = (JS.Normal (), s') ∧
    Notions.theme_ok s'.
Proof.
  apply settings_menu_never_throws.
  - plain_chalk_colors.
  - default_theme_ok.
Defined.

(** X13. The settings menu keeps the shape of the settings: if they have
    exactly the keys of the defaults, each with a value of the kind of its
    default (number, boolean or string), they still do afterwards. *)
Theorem settings_menu_keeps_settings_typed
    (chalk : string → string → JS.completion string)
    (s : Settings.session) (visits : list (Settings.visit * Settings.write_outcome)) :
  Notions.colors_are_styles chalk →
  Notions.theme_ok s →
  Notions.settings_typed s →
  ∃ s', Settings.showSettingsMenu chalk visits s = (JS.Normal (), s') ∧
        Notions.settings_typed s'.
Proof.
  intros Hchalk Hok Htyped.
  destruct (showSettingsMenu_post chalk Hchalk visits s Hok)
    as ([] & s' & Hrun & _ & Htyped' & _).
  exists s'. auto.
Qed.

Lemma settings_menu_keeps_settings_typed_witness :
  ∃ s',
    Settings.showSettingsMenu Notions.plain_chalk
      [(Settings.ui (Settings.ui_pageSize 20), Settings.write_returns "{}");
       (Settings.reset true, Settings.write_returns "{}");
       (Settings.search (Settings.search_defaultSortOrder Settings.date_asc),
        Settings.write_throws "EACCES")]
      Notions.new_session = (JS.Normal (), s') ∧
    Notions.settings_typed s'.
Proof.
  apply settings_menu_keeps_settings_typed.
  - plain_chalk_colors.
  - default_theme_ok.
  - by intros key.
Defined.

(** X14. While every write succeeds the file follows the client: if the
    file held the client's configuration when the settings menu was
    opened, it holds the client's configuration (server URL, API key,
    qBittorrent URL, theme and settings) when the menu is left. *)
Theorem settings_menu_keeps_file_in_sync
    (chalk : string → string → JS.completion string)
    (s : Settings.session) (visits : list (Settings.visit * Settings.write_outcome)) :
  Notions.colors_are_styles chalk →
  Notions.theme_ok s →
  Forall (λ vw, Notions.write_succeeds vw.2) visits →
  Notions.in_sync s →
  ∃ s', Settings.showSettingsMenu chalk visits s = (JS.Normal (), s') ∧
        Notions.in_sync s'.
Proof.
  intros Hchalk Hok Hall Hsync.
  destruct (showSettingsMenu_post chalk Hchalk visits s Hok)
    as ([] & s' & Hrun & _ & _ & Hsync').
  exists s'. auto.
Qed.

Lemma settings_menu_keeps_file_in_sync_witness :
  let s := (Settings.save_current (Settings.write_returns "{}")
              Notions.new_session).2 in
  ∃ s',
    Settings.showSettingsMenu Notions.plain_chalk
      [(Settings.connection
          (Settings.connection_qbittorrentUrl "http://localhost:8080"),
        Settings.write_returns "{}");
       (Settings.performance Settings.performance_back,
        Settings.write_returns "")]
      s = (JS.Normal (), s') ∧
    Notions.in_sync s'.
Proof.
  apply settings_menu_keeps_file_in_sync.
  - plain_chalk_colors.
  - default_theme_ok.
  - repeat constructor; by eexists.
  - by eexists.
Defined.

(** X15. A write of the configuration file that fails, before or after
    the file was opened, is reported and is not fatal: the visit completes
    normally, the theme is still usable, and the message of the failure is
    on the console whenever the visit got as far as saving. *)
Theorem failed_write_is_reported_and_not_fatal
    (chalk : string → string → JS.completion string)
    (s : Settings.session) (v : Settings.visit) (w : Settings.write_outcome)
    (message : string) :
  Notions.colors_are_styles chalk →
  Notions.theme_ok s →
  Notions.failure_message w = Some message →
  ∃ s',
    Settings.visit_menu chalk v w s = (JS.Normal (), s') ∧
    Notions.theme_ok s' ∧
    (Notions.saves v = true →
       ("Failed to save configuration: " +:+ message)
       ∈ Prowling.console (Settings.client_state s')).
Proof.
  intros Hchalk Hok Hmessage.
  destruct (visit_menu_post chalk Hchalk s v w Hok)
    as ([] & s' & Hrun & Hok' & _ & _ & Hlog).
  exists s'. split; [done|]. split; [done|].
  destruct w; cbn in Hmessage; [done| |]; by injection Hmessage as <-.
Qed.

Lemma failed_write_is_reported_and_not_fatal_witness :
  ∃ s',
    Settings.visit_menu Notions.plain_chalk
      (Settings.download (Settings.download_confirmDownloads false))
      (Settings.write_breaks "ENOSPC: no space left on device"
         (Prowling.parse_throws ""))
      Notions.new_session
    = (JS.Normal (), s') ∧
    "Failed to save configuration: ENOSPC: no space left on device"
    ∈ Prowling.console (Settings.client_state s').
Proof.
  destruct (failed_write_is_reported_and_not_fatal Notions.plain_chalk
              Notions.new_session
              (Settings.download (Settings.download_confirmDownloads false))
              (Settings.write_breaks "ENOSPC: no space left on device"
                 (Prowling.parse_throws ""))
              "ENOSPC: no space left on device")
    as (s' & Hrun & _ & Hlog).
  - plain_chalk_colors.
  - default_theme_ok.
  - reflexivity.
  - exists s'. split; [exact Hrun|]. apply Hlog. reflexivity.
Defined.

(** ** Saving and loading again *)

Lemma union_with_keys (saved current : gmap string JS.json) :
  dom current ⊆ dom saved → saved ∪ current = saved.
Proof.
  intros Hdom. apply map_eq. intros key. rewrite lookup_union.
  destruct (saved !! key) as [v|] eqn:Hs; [by destruct (current !! key)|].
  destruct (current !! key) as [v|] eqn:Hc; [|done].
  apply elem_of_dom_2, Hdom, elem_of_dom in Hc as [v' Hv']. congruence.
Qed.

(** Loading a file that holds a saved configuration. *)
Lemma loadConfig_of_saved (text url key qb : string)
    (th se : gmap string JS.json) (st0 : Prowling.state) :
  dom (Prowling.theme (Prowling.this st0)) ⊆ dom th →
  dom (Prowling.settings (Prowling.this st0)) ⊆ dom se →
  ∃ st',
    Prowling.loadConfig
      (Prowling.parse_returns text (Settings.config_object url key qb th se))
      st0 = (JS.Normal (Settings.config_object url key qb th se), st') ∧
    Prowling.theme (Prowling.this st') = th ∧
    Prowling.settings (Prowling.this st') = se ∧
    Prowling.console st' = Prowling.console st0.
Proof.
  intros Htheme Hsettings. eexists. split; [apply loadConfig_object|].
  assert (Hth : (list_to_map
                   [("serverUrl", JS.JStr url); ("apiKey", JS.JStr key);
                    ("qbittorrentUrl", JS.JStr qb);
                    ("theme", JS.JObj th); ("settings", JS.JObj se)]
                 : gmap string JS.json) !! "theme" = Some (JS.JObj th))
    by done.
  assert (Hse : (list_to_map
                   [("serverUrl", JS.JStr url); ("apiKey", JS.JStr key);
                    ("qbittorrentUrl", JS.JStr qb);
                    ("theme", JS.JObj th); ("settings", JS.JObj se)]
                 : gmap string JS.json) !! "settings" = Some (JS.JObj se))
    by done.
  rewrite Hth, Hse. cbn.
  unfold JS.spread_over, JS.own_properties.
  by rewrite !union_with_keys.
Qed.

(** What can be read from a saved configuration. *)
Lemma config_object_get (url key qb : string) (th se : gmap string JS.json) :
  JS.get (Settings.config_object url key qb th se) "serverUrl"
  = JS.Normal (Some (JS.JStr url)) ∧
  JS.get (Settings.config_object url key qb th se) "apiKey"
  = JS.Normal (Some (JS.JStr key)) ∧
  JS.get (Settings.config_object url key qb th se) "qbittorrentUrl"
  = JS.Normal (Some (JS.JStr qb)).
Proof. done. Qed.

(** X16. Round trip: what [saveConfig] writes, [loadConfig] reads back.
    After a successful write of the client's configuration, loading the
    file into a client that has no theme or settings keys beyond the saved
    ones (such as a new client, when the saved ones have all the default
    keys) completes without a warning, returns the server URL, API key and
    qBittorrent URL that were saved, and installs exactly the saved theme
    and settings. *)
Theorem saved_configuration_is_restored
    (s : Settings.session) (text : string) (st0 : Prowling.state) :
  let c := Prowling.this (Settings.client_state s) in
  dom (Prowling.theme (Prowling.this st0)) ⊆ dom (Prowling.theme c) →
  dom (Prowling.settings (Prowling.this st0)) ⊆ dom (Prowling.settings c) →
  ∃ config st',
    Prowling.loadConfig
      (Settings.disk (Settings.save_current (Settings.write_returns text) s).2)
      st0 = (JS.Normal config, st') ∧
    JS.get config "serverUrl" = JS.Normal (Some (JS.JStr (Prowling.baseUrl c))) ∧
    JS.get config "apiKey" = JS.Normal (Some (JS.JStr (Settings.X_Api_Key s))) ∧
    JS.get config "qbittorrentUrl"
    = JS.Normal (Some (JS.JStr (Prowling.qbittorrentUrl c))) ∧
    Prowling.theme (Prowling.this st') = Prowling.theme c ∧
    Prowling.settings (Prowling.this st') = Prowling.settings c ∧
    Prowling.console st' = Prowling.console st0.
Proof.
  intros c Htheme Hsettings.
  destruct (loadConfig_of_saved text (Prowling.baseUrl c) (Settings.X_Api_Key s)
              (Prowling.qbittorrentUrl c) _ _ st0 Htheme Hsettings)
    as (st' & Hload & Hth & Hse & Hconsole).
  destruct (config_object_get (Prowling.baseUrl c) (Settings.X_Api_Key s)
              (Prowling.qbittorrentUrl c) (Prowling.theme c)
              (Prowling.settings c)) as (Hurl & Hkey & Hqb).
  by eexists _, st'.
Qed.

Lemma saved_configuration_is_restored_witness :
  let s := (Settings.visit_menu Notions.plain_chalk
              (Settings.theme_colors
                 (Settings.theme_pick Settings.primary Settings.green))
              (Settings.write_throws "EACCES") Notions.new_session).2 in
  ∃ config st',
    Prowling.loadConfig
      (Settings.disk (Settings.save_current (Settings.write_returns "{}") s).2)
      Sample.start = (JS.Normal config, st') ∧
    JS.get config "apiKey" = JS.Normal (Some (JS.JStr "0123456789abcdef")) ∧
    Prowling.theme (Prowling.this st') !! "primary" = Some (JS.JStr "green") ∧
    Prowling.settings (Prowling.this st') !! "pageSize" = Some (JS.JNum 15).
Proof.
  intros s.
  assert (H1 : dom (Prowling.theme (Prowling.this Sample.start))
               ⊆ dom (Prowling.theme (Prowling.this (Settings.client_state s))))
    by (apply (bool_decide_unpack _); by vm_compute).
  assert (H2 : dom (Prowling.settings (Prowling.this Sample.start))
               ⊆ dom (Prowling.settings (Prowling.this (Settings.client_state s))))
    by (apply (bool_decide_unpack _); by vm_compute).
  destruct (saved_configuration_is_restored s "{}" Sample.start H1 H2)
    as (config & st' & Hload & _ & Hkey & _ & Htheme & Hsettings & _).
  exists config, st'. split; [exact Hload|]. split; [exact Hkey|].
  rewrite Htheme, Hsettings. split; by vm_compute.
Defined.





(** ** Reset *)

(** X17. "Reset to Default Settings", once confirmed, puts the default
    theme and the default settings in place whatever they were before
    (also when the theme was not usable for some role), keeps the server
    URL, the qBittorrent URL, the indexers and the API key, and writes the
    defaults to the file; declined, it changes nothing. *)
Theorem reset_restores_defaults
    (chalk : string → string → JS.completion string)
    (s : Settings.session) (w : Settings.write_outcome) :
  Notions.colors_are_styles chalk →
  let c := Prowling.this (Settings.client_state s) in
  Settings.visit_menu chalk (Settings.reset false) w s = (JS.Normal (), s) ∧
  ∃ s',
    Settings.visit_menu chalk (Settings.reset true) w s = (JS.Normal (), s') ∧
    Prowling.this (Settings.client_state s')
    = Prowling.set_settings Prowling.default_settings
        (Prowling.set_theme Prowling.default_theme c) ∧
    Settings.X_Api_Key s' = Settings.X_Api_Key s ∧
    Settings.disk s'
    = match w with
      | Settings.write_returns text =>
          Prowling.parse_returns text
            (Settings.config_object (Prowling.baseUrl c) (Settings.X_Api_Key s)
               (Prowling.qbittorrentUrl c) Prowling.default_theme
               Prowling.default_settings)
      | Settings.write_throws _ => Settings.disk s
      | Settings.write_breaks _ remains => remains
      end.
Proof.
  intros Hchalk c. split; [done|].
  destruct (reset_post chalk Hchalk s w) as ([] & s' & Hrun & Hpost).
  by exists s'.
Qed.

Lemma reset_restores_defaults_witness :
  let s := {| Settings.client_state :=
                Prowling.set_this
                  (Prowling.set_theme {["info" := JS.JStr "pink"]}
                     Prowling.constructor)
                  Sample.start;
              Settings.X_Api_Key := "0123456789abcdef";
              Settings.disk := Prowling.file_missing |} in
  ∃ s',
    Settings.visit_menu Notions.plain_chalk (Settings.reset true)
      (Settings.write_returns "{}") s = (JS.Normal (), s') ∧
    Prowling.theme (Prowling.this (Settings.client_state s'))
    = Prowling.default_theme.
Proof.
  intros s.
  destruct (reset_restores_defaults Notions.plain_chalk s
              (Settings.write_returns "{}")) as (_ & s' & Hrun & Hthis & _).
  - intros k text. exists text. by destruct k.
  - exists s'. split; [exact Hrun|]. by rewrite Hthis.
Defined.

(** ** A theme that is not usable *)

(** X18. Nothing checks the colours of a saved theme.  When the file
    gives the role [info] a value that [chalk] has no style for (and
    leaves [primary] and [highlight] alone), [loadConfig] installs it on
    the new client without a warning.  The banner, the main menu and the
    head of the settings menu, which use [primary] and [highlight], come
    up as usual; but every sub-menu of the settings, "Theme Colors"
    included, throws on its first line, before it asks anything and
    without changing the theme, the settings or the file.  Only "Reset to
    Default Settings" still works, and it leaves a usable theme. *)
Theorem unknown_saved_colour_breaks_settings_menu
    (chalk : string → string → JS.completion string) (error text : string)
    (config saved_theme : gmap string JS.json) (v : JS.json)
    (st : Prowling.state) :
  Notions.colors_are_styles chalk →
  Prowling.this st = Prowling.constructor →
  config !! "theme" = Some (JS.JObj saved_theme) →
  saved_theme !! "primary" = None →
  saved_theme !! "highlight" = None →
  saved_theme !! "info" = Some v →
  (∀ msg, chalk (Settings.ToString v) msg = JS.Throw error) →
  ∃ st1,
    Prowling.loadConfig (Prowling.parse_returns text (JS.JObj config)) st
    = (JS.Normal (JS.JObj config), st1) ∧
    Prowling.console st1 = Prowling.console st ∧
    ∀ s : Settings.session,
      Prowling.theme (Prowling.this (Settings.client_state s))
      = Prowling.theme (Prowling.this st1) →
      (∀ visit w rest,
         Notions.opens_sub_menu visit = true →
         ∃ s',
           Settings.startSearchLoop_settings chalk ((visit, w) :: rest) s
           = (JS.Throw error, s') ∧
           Prowling.theme (Prowling.this (Settings.client_state s'))
           = Prowling.theme (Prowling.this (Settings.client_state s)) ∧
           Prowling.settings (Prowling.this (Settings.client_state s'))
           = Prowling.settings (Prowling.this (Settings.client_state s)) ∧
           Settings.X_Api_Key s' = Settings.X_Api_Key s ∧
           Settings.disk s' = Settings.disk s) ∧
      (∀ w rest,
         ∃ s',
           Settings.startSearchLoop_settings chalk
             ((Settings.reset true, w) :: rest) s
           = (JS.Normal (), s') ∧
           Notions.theme_ok s').
Proof.
  intros Hchalk Hnew Htheme Hprimary Hhighlight Hinfo Hthrow.
  eexists. split; [apply loadConfig_object|]. split; [done|].
  intros s Hs.
  rewrite Htheme, Hnew in Hs.
  cbn [Notions.merged JS.truthy Prowling.this Prowling.theme
       Prowling.set_this Prowling.set_theme Prowling.set_settings
       Prowling.constructor] in Hs.
  unfold JS.spread_over, JS.own_properties in Hs.
  assert (Hp : Notions.role_ok s Settings.primary).
  { exists Settings.cyan. rewrite Hs.
    by rewrite (lookup_union_r _ _ _ Hprimary). }
  assert (Hh : Notions.role_ok s Settings.highlight).
  { exists Settings.magenta. rewrite Hs.
    by rewrite (lookup_union_r _ _ _ Hhighlight). }
  assert (Hi : ∀ msg,
            chalk (Settings.ToPropertyKey
                     (Prowling.theme (Prowling.this (Settings.client_state s))
                      !! Settings.role_name Settings.info)) msg
            = JS.Throw error).
  { intros msg. rewrite Hs.
    by rewrite (lookup_union_Some_l _ _ _ _ Hinfo). }
  split.
  - intros visit w rest Hsub.
    destruct (startSearchLoop_settings_throws chalk Hchalk visit w rest s error
                Hp Hh Hsub Hi) as (s' & Hrun & Hkept).
    by exists s'.
  - intros w rest.
    destruct (startSearchLoop_settings_reset chalk Hchalk w rest s Hp Hh)
      as ([] & s' & Hrun & Hok).
    by exists s'.
Qed.

Lemma unknown_saved_colour_breaks_settings_menu_witness :
  let config : gmap string JS.json :=
    {["theme" := JS.JObj {["info" := JS.JStr "pink"]}]} in
  ∃ st1 s' s'',
    Prowling.loadConfig (Prowling.parse_returns "" (JS.JObj config))
      Sample.start = (JS.Normal (JS.JObj config), st1) ∧
    Settings.startSearchLoop_settings Notions.plain_chalk
      [(Settings.theme_colors
          (Settings.theme_pick Settings.info Settings.blue),
        Settings.write_returns "{}")]
      {| Settings.client_state := st1; Settings.X_Api_Key := "";
         Settings.disk := Prowling.file_missing |}
    = (JS.Throw "TypeError", s') ∧
    Settings.startSearchLoop_settings Notions.plain_chalk
      [(Settings.reset true, Settings.write_returns "{}")]
      {| Settings.client_state := st1; Settings.X_Api_Key := "";
         Settings.disk := Prowling.file_missing |}
    = (JS.Normal (), s'') ∧
    Notions.theme_ok s''.
Proof.
  intros config.
  destruct (unknown_saved_colour_breaks_settings_menu Notions.plain_chalk
              "TypeError" "" config {["info" := JS.JStr "pink"]}
              (JS.JStr "pink") Sample.start)
    as (st1 & Hload & _ & Hmenu).
  - plain_chalk_colors.
  - reflexivity.
  - by vm_compute.
  - by vm_compute.
  - by vm_compute.
  - by vm_compute.
  - intros msg. by vm_compute.
  - destruct (Hmenu {| Settings.client_state := st1; Settings.X_Api_Key := "";
                       Settings.disk := Prowling.file_missing |} eq_refl)
      as [Hsub Hreset].
    destruct (Hsub (Settings.theme_colors
                      (Settings.theme_pick Settings.info Settings.blue))
                (Settings.write_returns "{}") [] eq_refl)
      as (s' & Hthrow & _).
    destruct (Hreset (Settings.write_returns "{}") [])
      as (s'' & Hrun & Hok).
    exists st1, s', s''. split; [exact Hload|]. split; [exact Hthrow|].
    split; [exact Hrun|exact Hok].
Defined.

(** ** The actions of the detail view *)

(** When "open in qBittorrent" is among the actions. *)
Lemma offered_actions_characterized
    (c : Prowling.client) (selected : SearchResult.t) (l : Detail.links) :
  (Prowling.open_qbittorrent ∈ (Detail.actionChoices c selected l).*2 ↔
     JS.truthy_string (Prowling.qbittorrentUrl c) = true ∧
     (Detail.truthy (Detail.magnetUrl l) = true ∨
      (Detail.truthy (Detail.downloadUrl l) = true ∧
       SearchResult.protocol selected = "torrent"))) ∧
  NoDup (Detail.actionChoices c selected l).*2 ∧
  (Prowling.download_client ∉ (Detail.actionChoices c selected l).*2) ∧
  (Prowling.download_url ∈ (Detail.actionChoices c selected l).*2
   ↔ Detail.truthy (Detail.downloadUrl l) = true) ∧
  (Prowling.magnet_url ∈ (Detail.actionChoices c selected l).*2
   ↔ Detail.truthy (Detail.magnetUrl l) = true).
Proof.
  unfold Detail.actionChoices.
  rewrite <- (String.eqb_eq (SearchResult.protocol selected) "torrent").
  change "torrent"%string with Detail.protocols_torrent.
  destruct (Detail.truthy (Detail.downloadUrl l)),
    (Detail.truthy (Detail.magnetUrl l)),
    (JS.truthy_string (Prowling.qbittorrentUrl c)),
    (String.eqb (SearchResult.protocol selected) Prowling.protocols_usenet),
    (String.eqb (SearchResult.protocol selected) Detail.protocols_torrent);
    cbn [andb app fmap list_fmap snd];
    by apply (bool_decide_unpack _).
Qed.

(** X19. The actions offered for an item: "more info", "back" and "main
    menu" always close the list; the copy actions are offered exactly for
    the links the item has; "open in qBittorrent" exactly when a
    qBittorrent URL is configured and the item has a magnet link or is a
    torrent with a download link; no action is offered twice; and "send
    to download client" is never offered, so [downloadToClient] cannot be
    reached from the menu. *)
Theorem detail_actions_offered
    (c : Prowling.client) (selected : SearchResult.t) (l : Detail.links) :
  let values := (Detail.actionChoices c selected l).*2 in
  (∃ first, values
            = first ++ [Prowling.more_info; Prowling.back; Prowling.main_menu]) ∧
  NoDup values ∧
  (Prowling.download_client ∉ values) ∧
  (Prowling.download_url ∈ values ↔ Detail.truthy (Detail.downloadUrl l) = true) ∧
  (Prowling.magnet_url ∈ values ↔ Detail.truthy (Detail.magnetUrl l) = true) ∧
  (Prowling.open_qbittorrent ∈ values ↔
     JS.truthy_string (Prowling.qbittorrentUrl c) = true ∧
     (Detail.truthy (Detail.magnetUrl l) = true ∨
      (Detail.truthy (Detail.downloadUrl l) = true ∧
       SearchResult.protocol selected = "torrent"))).
Proof.
  intros values. subst values.
  split; [unfold Detail.actionChoices; rewrite !fmap_app, app_assoc; by eexists|].
  destruct (offered_actions_characterized c selected l)
    as (Hqb & Hnodup & Hclient & Hdownload & Hmagnet).
  done.
Qed.

(** X20. Whenever "open in qBittorrent" is offered for an item, choosing
    it sends exactly one request, to [/api/v2/torrents/add] under the
    configured qBittorrent URL, and the link sent is the magnet link when
    the item has one and otherwise the download link of a torrent; the
    guards inside [openInQBittorrent] never turn an offered action away.
    A failed request is caught: two lines of advice are printed, and in
    both cases the closing prompt follows and the client is unchanged. *)
Theorem offered_qbittorrent_action_sends_link
    (st : Prowling.state) (selected : SearchResult.t) (l : Detail.links)
    (reply : JS.completion unit) :
  Prowling.open_qbittorrent
  ∈ (Detail.actionChoices (Prowling.this st) selected l).*2 →
  ∃ link st',
    Detail.openInQBittorrent l reply st
    = (Some {| Detail.url := Prowling.qbittorrentUrl (Prowling.this st)
                             +:+ "/api/v2/torrents/add";
               Detail.urls := link |}, st') ∧
    JS.truthy_string link = true ∧
    (if Detail.truthy (Detail.magnetUrl l)
     then Detail.magnetUrl l = JS.val link
     else Detail.downloadUrl l = JS.val link ∧
          SearchResult.protocol selected = "torrent") ∧
    Prowling.this st' = Prowling.this st ∧
    Prowling.console st'
    = Prowling.console st ++
      match reply with
      | JS.Normal _ => []
      | JS.Throw _ =>
          [Prowling.nl +:+ "Tip: Make sure qBittorrent WebUI is enabled and the URL is correct.";
           "You may need to login to qBittorrent WebUI first in your browser."]
      end ++ [Prowling.nl +:+ "Press Enter to go back..."].
Proof.
  intros Hoffered.
  destruct (offered_actions_characterized (Prowling.this st) selected l)
    as [Hqb _]. apply Hqb in Hoffered as [Hurl Hlink]. clear Hqb.
  unfold Detail.openInQBittorrent, Detail.or_else. rewrite Hurl. cbn [negb].
  destruct (Detail.truthy (Detail.magnetUrl l)) eqn:Hmagnet.
  - destruct (Detail.magnetUrl l) as [| |link]; try discriminate.
    cbn [Detail.truthy] in Hmagnet. rewrite Hmagnet. cbn [negb].
    exists link. eexists. split; [done|]. split; [done|]. split; [done|].
    destruct reply; cbn; by rewrite <- ?app_assoc.
  - destruct Hlink as [|[Hdownload Htorrent]]; [done|].
    destruct (Detail.downloadUrl l) as [| |link]; try discriminate.
    cbn [Detail.truthy] in Hdownload. rewrite Hdownload. cbn [negb].
    exists link. eexists. split; [done|]. split; [done|]. split; [done|].
    destruct reply; cbn; by rewrite <- ?app_assoc.
Qed.

Lemma offered_qbittorrent_action_sends_link_witness :
  let st := Prowling.set_this
              (Settings.set_qbittorrentUrl "http://localhost:8080"
                 Prowling.constructor) Sample.start in
  let l := {| Detail.downloadUrl := JS.val "http://prowlarr/download/1";
              Detail.magnetUrl := JS.null |} in
  ∃ st',
    Detail.openInQBittorrent l (JS.Throw "ECONNREFUSED") st
    = (Some {| Detail.url := "http://localhost:8080/api/v2/torrents/add";
               Detail.urls := "http://prowlarr/download/1" |}, st') ∧
    length (Prowling.console st') = 3%nat.
Proof.
  intros st l.
  destruct (offered_qbittorrent_action_sends_link st Sample.ubuntu l
              (JS.Throw "ECONNREFUSED"))
    as (link & st' & Hrun & _ & Hlink & _ & Hconsole).
  - by apply (bool_decide_unpack _).
  - cbn in Hlink. destruct Hlink as [[= <-] _].
    exists st'. split; [exact Hrun|]. by rewrite Hconsole.
Defined.

(** ** The navigation stack over a session *)

Section StackGrowth.
Import JS Prowling.
Context {rt : Runtime}.

(** Viewing an item and going back to the list. *)
Lemma view_and_back st vars selected :
  frame st = Some (vars, results_prompt) →
  let st' := step (step st (select_item selected)) (action back) in
  frame st' = Some (vars, results_prompt) ∧
  heap st' = heap st ∧
  navigationStack st'
  = navigationStack st ++ [{| type := "results"; data := results vars |}].
Proof.
  intros Hframe st'. subst st'.
  assert (Hopen : step st (select_item selected) = open_item selected vars st)
    by (unfold step; by rewrite Hframe).
  rewrite Hopen. done.
Qed.

Lemma views_and_backs st vars items :
  frame st = Some (vars, results_prompt) →
  let st' := run st (items ≫= λ x, [select_item x; action back]) in
  frame st' = Some (vars, results_prompt) ∧
  heap st' = heap st ∧
  navigationStack st'
  = navigationStack st
    ++ replicate (length items) {| type := "results"; data := results vars |}.
Proof.
  revert st. induction items as [|x items IH]; intros st Hframe.
  - cbn. by rewrite app_nil_r.
  - destruct (view_and_back st vars x Hframe) as (Hf & Hh & Hn).
    destruct (IH _ Hf) as (Hf' & Hh' & Hn').
    change ((x :: items) ≫= λ x, [select_item x; action back])
      with (select_item x :: action back
            :: (items ≫= λ x, [select_item x; action back])).
    unfold run in *. cbn [fold_left length replicate].
    rewrite Hf', Hh', Hn', Hh, Hn. by rewrite <- app_assoc.
Qed.

End StackGrowth.

(** X22. The navigation stack is not popped when the detail view is left
    with "back": every item viewed leaves one more snapshot of the full
    results on the stack, and "Back to search" afterwards removes only
    the last one and returns to the main menu.  So after viewing [n]
    items of one search, [n - 1] entries stay on the stack for the rest
    of the session. *)
Theorem item_views_accumulate_on_stack {rt : Runtime}
    (st : Prowling.state) (vars : Prowling.locals)
    (items : list SearchResult.t) :
  Prowling.frame st = Some (vars, Prowling.results_prompt) →
  let entry := {| Prowling.type := "results";
                  Prowling.data := Prowling.results vars |} in
  let views := items ≫= λ x, [Prowling.select_item x;
                               Prowling.action Prowling.back] in
  Prowling.navigationStack (Prowling.run st views)
  = Prowling.navigationStack st ++ replicate (length items) entry ∧
  Prowling.frame (Prowling.run st views)
  = Some (vars, Prowling.results_prompt) ∧
  Prowling.frame (Prowling.run st (views ++ [Prowling.select_back])) = None ∧
  Prowling.navigationStack (Prowling.run st (views ++ [Prowling.select_back]))
  = removelast (Prowling.navigationStack st ++ replicate (length items) entry).
Proof.
  intros Hframe entry views.
  destruct (views_and_backs st vars items Hframe) as (Hf & _ & Hn).
  fold views in Hf, Hn. fold entry in Hn.
  split; [done|]. split; [done|].
  unfold Prowling.run in *. rewrite fold_left_app. cbn [fold_left].
  set (st1 := fold_left Prowling.step views st) in *.
  assert (Hback : Prowling.step st1 Prowling.select_back
                  = Prowling.back_to_search st1)
    by (unfold Prowling.step; by rewrite Hf).
  rewrite Hback. unfold Prowling.back_to_search. cbn. by rewrite Hn.
Qed.

Lemma item_views_accumulate_on_stack_witness :
  length
    (Prowling.navigationStack
       (Prowling.run (rt := Host.runtime) Sample.listing
          [Prowling.select_item Sample.ubuntu; Prowling.action Prowling.back;
           Prowling.select_item Sample.debian; Prowling.action Prowling.back;
           Prowling.select_item Sample.fedora; Prowling.action Prowling.back;
           Prowling.select_back])) = 2%nat.
Proof.
  destruct (item_views_accumulate_on_stack (rt := Host.runtime)
              Sample.listing Sample.listing_vars
              [Sample.ubuntu; Sample.debian; Sample.fedora] eq_refl)
    as (_ & _ & _ & Hstack).
  exact (f_equal length Hstack).
Defined.
